(** * malan: genealogy sampler, haplotype engine and pedigree analytics

    A shallow embedding of the C++ core of the malan package
    ([class_Individual.cpp], [api_simulate.cpp] and the variance sampler)
    together with the properties of its natural-language specification.

    Conventions of the embedding.
    - An [Individual*] is an address into a heap [gmap addr Individual];
      [nullptr] is [None].
    - C++ [int] and [size_t] counters are integers [Z]; signed overflow is
      undefined behaviour in C++, the model covers the executions in which
      it does not occur.
    - The [double]s of the genotype probabilities are modelled twice through
      the interface [Num]: exactly, by the rationals [Q], and bit for bit,
      by binary64 floats. Mutation rates, cumulative distributions and
      random draws are rationals: the code compares them, and a comparison
      of doubles is the comparison of the rationals they denote; where the
      samplers compute with them, the arithmetic is exact.
    - A C++ exception is the outcome [Throw]; an out-of-range vector read
      or a null dereference is the outcome [Undefined]. Recursion and
      unbounded loops carry a fuel; [Timeout] says the fuel ran out.
    - The random source ([R::runif], [unif_rand]) is a stream of draws
      together with the number of draws consumed so far.
    - Progress bars, console output and the verbose tables of the samplers
      do not feed back into the computation and are left out. *)

From Stdlib Require Import ZArith QArith Qround Floats List Lia String.
From stdpp Require Import gmap list.
Import ListNotations.

Set Warnings "-inexact-float".
#[local] Open Scope Z_scope.

(** ** Outcomes of a call *)

Inductive exn : Type :=
| invalid_argument (what : string)   (* std::invalid_argument *)
| rcpp_stop (what : string).         (* Rcpp::stop *)

Inductive outcome (A : Type) : Type :=
| Ok (a : A)
| Throw (e : exn)
| Undefined
| Timeout.

Arguments Ok {A} a.
Arguments Throw {A} e.
Arguments Undefined {A}.
Arguments Timeout {A}.

Definition obind {A B} (x : outcome A) (f : A -> outcome B) : outcome B :=
  match x with
  | Ok a => f a
  | Throw e => Throw e
  | Undefined => Undefined
  | Timeout => Timeout
  end.

Notation "'let!' x ':=' c1 'in' c2" := (obind c1 (fun x => c2))
  (at level 10, x pattern, c1 at level 100, c2 at level 200).

(** A loop over a container whose body may throw. *)
Fixpoint ofold {A B} (f : A -> B -> outcome A) (l : list B) (a : A) : outcome A :=
  match l with
  | [] => Ok a
  | b :: l' => let! a' := f a b in ofold f l' a'
  end.

(** [v[i]] on a [std::vector]: reading out of range is undefined.
    [vec_nth] reads at a loop counter that starts at zero, [vec_at] at an
    arbitrary [int]. *)
Definition vec_nth {A} (v : list A) (i : nat) : outcome A :=
  match v !! i with
  | Some x => Ok x
  | None => Undefined
  end.

Definition vec_at {A} (v : list A) (i : Z) : outcome A :=
  match i with
  | Zneg _ => Undefined
  | _ => vec_nth v (Z.to_nat i)
  end.

(** ** Arithmetic on [double], exact and binary64 *)

Class Num (R : Type) : Type := {
  num_zero : R;
  num_one : R;
  num_two : R;
  num_add : R -> R -> R;
  num_sub : R -> R -> R;
  num_mul : R -> R -> R;
  num_div : R -> R -> R;
  num_ltb : R -> R -> bool
}.

Definition Qltb (x y : Q) : bool := negb (Qle_bool y x).

#[export] Instance Num_Q : Num Q := {|
  num_zero := 0%Q;
  num_one := 1%Q;
  num_two := 2%Q;
  num_add := Qplus;
  num_sub := Qminus;
  num_mul := Qmult;
  num_div := Qdiv;
  num_ltb := Qltb
|}.

#[export] Instance Num_f64 : Num float := {|
  num_zero := 0%float;
  num_one := 1%float;
  num_two := 2%float;
  num_add := PrimFloat.add;
  num_sub := PrimFloat.sub;
  num_mul := PrimFloat.mul;
  num_div := PrimFloat.div;
  num_ltb := PrimFloat.ltb
|}.

(** ** Genotype probabilities with theta ([api_utility_haplotypes.cpp]) *)

Module Genotype.
Section Generic.
Context {R : Type} {N : Num R}.

(** [std::accumulate(ps.begin(), ps.end(), 0.0)] *)
Definition accumulate (ps : list R) : R :=
  fold_left num_add ps num_zero.

(** [any(allele_dist < 0) || any(allele_dist > 1)] *)
Definition out_of_unit (ps : list R) : bool :=
  existsb (fun p => num_ltb p num_zero) ps
  || existsb (fun p => num_ltb num_one p) ps.

(** The normalisation loop [ps[i] = ps[i] / ps_sum]. *)
Definition normalise (ps : list R) : list R :=
  let ps_sum := accumulate ps in
  map (fun p => num_div p ps_sum) ps.

Definition ps_at (ps : list R) (i : nat) : R := nth i ps num_zero.

(** The body of the inner loop: the value stored at [allele_dist_theta[k]]
    for the pair [(i, j)], [j <= i]. *)
Definition genotype_entry (theta : R) (ps : list R) (i j : nat) : R :=
  if Nat.eqb i j then
    num_add (num_mul theta (ps_at ps i))
            (num_mul (num_mul (num_sub num_one theta) (ps_at ps i)) (ps_at ps i))
  else
    num_mul (num_mul (num_mul (num_sub num_one theta) num_two) (ps_at ps i))
            (ps_at ps j).

(** [for (j = 0; j <= i; ++j)] *)
Definition genotype_row (theta : R) (ps : list R) (i : nat) : list R :=
  map (genotype_entry theta ps i) (seq 0 (S i)).

(** [for (i = 0; i < alleles_count; ++i)], entries stored at successive [k]. *)
Definition genotype_rows (theta : R) (ps : list R) (alleles_count : nat) : list R :=
  flat_map (genotype_row theta ps) (seq 0 alleles_count).

Definition calc_autosomal_genotype_probs (allele_dist : list R) (theta : R)
  : outcome (list R) :=
  if out_of_unit allele_dist then
    Throw (rcpp_stop "allele_dist's elements must be between 0 and 1, both included")
  else if num_ltb theta num_zero || num_ltb num_one theta then
    Throw (rcpp_stop "theta must be between 0 and 1, both included")
  else
    let ps := normalise allele_dist in
    Ok (genotype_rows theta ps (length ps)).
End Generic.

(** The sum of a vector of exact values. *)
Definition Qsum (v : list Q) : Q := fold_right Qplus 0%Q v.

(** The inputs of the third concrete scenario, as doubles and exactly. *)
Definition scenario_p_f64 : list float := [0.2; 0.3; 0.5]%float.
Definition scenario_theta_f64 : float := 0.1%float.
Definition scenario_p : list Q := [2 # 10; 3 # 10; 5 # 10]%Q.
Definition scenario_theta : Q := (1 # 10)%Q.

(** Entry-wise closeness of two double vectors: [|x - y| < eps] throughout. *)
Fixpoint all_within (eps : float) (xs ys : list float) : bool :=
  match xs, ys with
  | [], [] => true
  | x :: xs', y :: ys' =>
      PrimFloat.ltb (PrimFloat.abs (PrimFloat.sub x y)) eps && all_within eps xs' ys'
  | _, _ => false
  end.

Definition within_of (eps : float) (expected : list float) (r : outcome (list float)) : bool :=
  match r with
  | Ok v => all_within eps v expected
  | _ => false
  end.

Definition sum_within_of (eps : float) (expected : float) (r : outcome (list float)) : bool :=
  match r with
  | Ok v => PrimFloat.ltb (PrimFloat.abs (PrimFloat.sub (accumulate v) expected)) eps
  | _ => false
  end.

Definition spec_expected : list float := [0.052; 0.108; 0.093; 0.180; 0.270; 0.275]%float.
Definition code_expected : list float := [0.056; 0.108; 0.111; 0.180; 0.270; 0.275]%float.
Definition code_exact : list Q :=
  [56 # 1000; 108 # 1000; 111 # 1000; 180 # 1000; 270 # 1000; 275 # 1000]%Q.

(** Partial sums of the allele probabilities, by index. *)
Definition prefix_sum (ps : list Q) (n : nat) : Q :=
  Qsum (map (ps_at ps) (seq 0 n)).

(** Entry-wise equality of two exact vectors. *)
Fixpoint all_Qeq (xs ys : list Q) : bool :=
  match xs, ys with
  | [], [] => true
  | x :: xs', y :: ys' => Qeq_bool x y && all_Qeq xs' ys'
  | _, _ => false
  end.

Definition exactly (expected : list Q) (r : outcome (list Q)) : bool :=
  match r with
  | Ok v => all_Qeq v expected && Qeq_bool (Qsum v) 1
  | _ => false
  end.

Definition tolerance : float := 1e-9%float.

End Genotype.


(** ** The data model ([malan_types.h]) *)

Definition addr : Type := positive.

Record Individual : Type := mkIndividual {
  m_pid : Z;
  m_generation : Z;
  m_children : list addr;
  m_father : option addr;
  m_pedigree_id : Z;
  m_pedigree : option addr;
  m_dijkstra_visited : bool;
  m_dijkstra_distance : Z;
  m_haplotype : list Z;
  m_haplotype_set : bool;
  m_haplotype_mutated : bool
}.

(** Modelled from the spec: the class [Pedigree] (its header and
    implementation are not part of the sources at hand). Section 3 gives it
    an id, a root, a member list and a list of parent-child relations. *)
Record Pedigree : Type := mkPedigree {
  ped_id : Z;
  ped_root : option addr;
  ped_members : list addr;
  ped_relations : list (addr * addr)
}.

Abbreviation heap := (gmap addr Individual).
Abbreviation pedigrees := (gmap addr Pedigree).

(** Modelled from the spec: the default member initialisers of the class
    [Individual], which the header (not among the sources) gives: section 3
    has the father and the pedigree null, the pedigree id 0 when unassigned,
    the traversal scratch cleared, and the haplotype unset and not mutated. *)
Definition default_Individual : Individual := {|
  m_pid := 0;
  m_generation := 0;
  m_children := [];
  m_father := None;
  m_pedigree_id := 0;
  m_pedigree := None;
  m_dijkstra_visited := false;
  m_dijkstra_distance := 0;
  m_haplotype := [];
  m_haplotype_set := false;
  m_haplotype_mutated := false
|}.

(** [Individual::Individual(int pid, int generation)]: the constructor sets
    the pid and the generation and allocates an empty child vector. *)
Definition new_Individual (pid generation : Z) : Individual :=
  mkIndividual pid generation []
    (m_father default_Individual)
    (m_pedigree_id default_Individual) (m_pedigree default_Individual)
    (m_dijkstra_visited default_Individual) (m_dijkstra_distance default_Individual)
    (m_haplotype default_Individual) (m_haplotype_set default_Individual)
    (m_haplotype_mutated default_Individual).

Definition with_father (f : option addr) (x : Individual) : Individual :=
  mkIndividual (m_pid x) (m_generation x) (m_children x) f
    (m_pedigree_id x) (m_pedigree x) (m_dijkstra_visited x) (m_dijkstra_distance x)
    (m_haplotype x) (m_haplotype_set x) (m_haplotype_mutated x).

Definition with_children (cs : list addr) (x : Individual) : Individual :=
  mkIndividual (m_pid x) (m_generation x) cs (m_father x)
    (m_pedigree_id x) (m_pedigree x) (m_dijkstra_visited x) (m_dijkstra_distance x)
    (m_haplotype x) (m_haplotype_set x) (m_haplotype_mutated x).

Definition with_dijkstra (v : bool) (d : Z) (x : Individual) : Individual :=
  mkIndividual (m_pid x) (m_generation x) (m_children x) (m_father x)
    (m_pedigree_id x) (m_pedigree x) v d
    (m_haplotype x) (m_haplotype_set x) (m_haplotype_mutated x).

Definition with_haplotype (h : list Z) (set : bool) (x : Individual) : Individual :=
  mkIndividual (m_pid x) (m_generation x) (m_children x) (m_father x)
    (m_pedigree_id x) (m_pedigree x) (m_dijkstra_visited x) (m_dijkstra_distance x)
    h set (m_haplotype_mutated x).

(** Dereferencing a pointer: a dangling one is undefined behaviour. *)
Definition deref (h : heap) (a : addr) : outcome Individual :=
  match h !! a with
  | Some x => Ok x
  | None => Undefined
  end.

(** [bool Individual::pedigree_is_set() const] *)
Definition pedigree_is_set (x : Individual) : bool :=
  negb (Z.eqb (m_pedigree_id x) 0).

(** [void Individual::add_child(Individual* child)]: push the child and set
    its father to [this]. *)
Definition add_child (this child : addr) (h : heap) : outcome heap :=
  let! x := deref h this in
  let h1 := <[this := with_children (m_children x ++ [child]) x]> h in
  let! c := deref h1 child in
  Ok (<[child := with_father (Some this) c]> h1).

(** Modelled from the spec: [Individual::set_father], called by the samplers
    and absent from [class_Individual.cpp]; step 2b links the child to its
    father. *)
Definition set_father (this : addr) (father : option addr) (h : heap) : outcome heap :=
  let! x := deref h this in
  Ok (<[this := with_father father x]> h).

(** ** The random source *)

(** The draws of [R::runif(0.0, 1.0)] lie in the unit interval, 1 excluded. *)
Definition unit_interval (unif : nat -> Q) : Prop :=
  forall k, (0 <= unif k)%Q /\ (unif k < 1)%Q.

(** ** Haplotype mutation ([class_Individual.cpp]) *)

Module Haplotype.
Section WithRandomSource.
(** [R::runif(0.0, 1.0)]: the [k]-th draw of the run. *)
Variable unif : nat -> Q.

Definition half : Q := 1 # 2.

(** The body of the loop of [haplotype_mutate] at locus [loc]. *)
Definition mutate_locus (mutation_rates : list Q) (st : list Z * nat) (loc : nat)
  : outcome (list Z * nat) :=
  let '(hap, k) := st in
  let! rate := vec_nth mutation_rates loc in
  if Qltb (unif k) rate then
    let! a := vec_nth hap loc in
    if Qltb (unif (S k)) half
    then Ok (<[loc := a - 1]> hap, S (S k))
    else Ok (<[loc := a + 1]> hap, S (S k))
  else Ok (hap, S k).

(** [void Individual::haplotype_mutate(std::vector<double>& mutation_rates)] *)
Definition haplotype_mutate (mutation_rates : list Q) (this : Individual) (k : nat)
  : outcome (Individual * nat) :=
  if negb (m_haplotype_set this) then
    Throw (invalid_argument "Father haplotype not set yet, so cannot mutate")
  else if negb (Nat.eqb (length (m_haplotype this)) (length mutation_rates)) then
    Throw (invalid_argument
      "Number of loci specified in haplotype must equal number of mutation rates specified")
  else if m_haplotype_mutated this then
    Throw (invalid_argument "Father haplotype already set and mutated")
  else
    let! (hap, k') := ofold (mutate_locus mutation_rates)
                       (seq 0 (length (m_haplotype this))) (m_haplotype this, k) in
    Ok (with_haplotype hap (m_haplotype_set this) this, k').

(** The body of the loop of [haplotype_mutate_ladder_bounded] at locus [loc]. *)
Definition mutate_locus_ladder_bounded (mutation_rates : list Q)
    (ladder_min ladder_max : list Z) (st : list Z * nat) (loc : nat)
  : outcome (list Z * nat) :=
  let '(hap, k) := st in
  let! rate := vec_nth mutation_rates loc in
  if Qltb (unif k) rate then
    let! a := vec_nth hap loc in
    let! lo := vec_nth ladder_min loc in
    if a <? lo then
      Throw (invalid_argument "Haplotype locus lower than ladder minimum")
    else
      let! hi := vec_nth ladder_max loc in
      if hi <? a then
        Throw (invalid_argument "Haplotype locus higher than ladder minimum")
      else if a =? lo then Ok (<[loc := lo + 1]> hap, S k)
      else if a =? hi then Ok (<[loc := hi - 1]> hap, S k)
      else if Qltb (unif (S k)) half
           then Ok (<[loc := a - 1]> hap, S (S k))
           else Ok (<[loc := a + 1]> hap, S (S k))
  else Ok (hap, S k).

(** [void Individual::haplotype_mutate_ladder_bounded(mutation_rates,
    ladder_min, ladder_max)] *)
Definition haplotype_mutate_ladder_bounded (mutation_rates : list Q)
    (ladder_min ladder_max : list Z) (this : Individual) (k : nat)
  : outcome (Individual * nat) :=
  if negb (m_haplotype_set this) then
    Throw (invalid_argument "Father haplotype not set yet, so cannot mutate")
  else if negb (Nat.eqb (length (m_haplotype this)) (length mutation_rates)) then
    Throw (invalid_argument
      "Number of loci specified in haplotype must equal number of mutation rates specified")
  else if m_haplotype_mutated this then
    Throw (invalid_argument "Father haplotype already set and mutated")
  else
    let! (hap, k') := ofold (mutate_locus_ladder_bounded mutation_rates ladder_min ladder_max)
                       (seq 0 (length (m_haplotype this))) (m_haplotype this, k) in
    Ok (with_haplotype hap (m_haplotype_set this) this, k').

(** [void Individual::set_haplotype(std::vector<int> h)] *)
Definition set_haplotype (h : list Z) (this : Individual) : Individual :=
  with_haplotype h true this.

(** [int possible_mutate_index(index, mutation_rate, max)] *)
Definition possible_mutate_index (index : Z) (mutation_rate : Q) (max : Z) (k : nat)
  : outcome (Z * nat) :=
  if max <=? 0 then Throw (invalid_argument "max must be >= 1")
  else if negb (Qltb (unif k) mutation_rate) then Ok (index, S k)
  else if index =? 0 then Ok (1, S k)
  else if index =? max then Ok (max - 1, S k)
  else if Qltb (unif (S k)) half then Ok (index - 1, S (S k))
  else Ok (index + 1, S (S k)).

(** The scan [if (u > cumdist[0]) for (i = 1; i < alleles_count; ++i)
    if (u <= cumdist[i]) { mother_allele = i; break; }]. *)
Fixpoint scan_cumdist (u : Q) (cumdist : list Q) (i : Z) : Z :=
  match cumdist with
  | [] => 0
  | c :: rest => if Qle_bool u c then i else scan_cumdist u rest (i + 1)
  end.

Definition draw_mother_allele (u : Q) (cumdist : list Q) : outcome Z :=
  let! c0 := vec_at cumdist 0 in
  if Qltb c0 u then Ok (scan_cumdist u (tl cumdist) 1) else Ok 0.

(** The body of the loop over the children in [pass_autosomal_to_children],
    up to and including [child->set_haplotype(geno)]. *)
Definition autosomal_child (cumdists : list (list Q)) (mutation_rate : Q)
    (this child : addr) (st : heap * nat) : outcome (heap * nat) :=
  let '(h, k) := st in
  let! x := deref h this in
  let geno_father := m_haplotype x in
  let! father_allele := (if Qltb (unif k) half then vec_at geno_father 0 else vec_at geno_father 1) in
  let! cumdist := vec_at cumdists father_allele in
  let u := unif (S k) in
  let alleles_count := Z.of_nat (length cumdist) in
  let! mother_allele := draw_mother_allele u cumdist in
  let max := alleles_count - 1 in
  let! (g0, k1) := possible_mutate_index father_allele mutation_rate max (S (S k)) in
  let! (g1, k2) := possible_mutate_index mother_allele mutation_rate max k1 in
  let geno := if g1 <=? g0 then [g1; g0] else [g0; g1] in
  let! c := deref h child in
  Ok (<[child := set_haplotype geno c]> h, k2).

(** [void Individual::pass_autosomal_to_children(recursive,
    allele_conditional_cumdists_theta, mutation_rate)] *)
Fixpoint pass_autosomal_to_children (fuel : nat) (recursive : bool)
    (cumdists : list (list Q)) (mutation_rate : Q) (this : addr) (st : heap * nat)
  : outcome (heap * nat) :=
  match fuel with
  | O => Timeout
  | S fuel' =>
      let! x := deref (fst st) this in
      ofold (fun st child =>
               let! st1 := autosomal_child cumdists mutation_rate this child st in
               if recursive
               then pass_autosomal_to_children fuel' recursive cumdists mutation_rate child st1
               else Ok st1)
            (m_children x) st
  end.
End WithRandomSource.

(** An individual whose haplotype has been set to [hap]. *)
Definition carrier (hap : list Z) : Individual :=
  set_haplotype hap (new_Individual 1 0).

Definition msg_unset : exn :=
  invalid_argument "Father haplotype not set yet, so cannot mutate".
Definition msg_mutated : exn :=
  invalid_argument "Father haplotype already set and mutated".
Definition msg_max : exn := invalid_argument "max must be >= 1".

(** A father without children whose genotype is the only one a single
    allele allows. *)
Definition childless : Individual := set_haplotype [0; 0] (new_Individual 1 0).
Definition childless_heap : heap := {[ 1%positive := childless ]}.
End Haplotype.

(** ** Pedigree analytics ([class_Individual.cpp]) *)

Module Analytics.

(** [get_pedigree()->...]: the pedigree object behind [m_pedigree]. *)
Definition get_pedigree (peds : pedigrees) (x : Individual) : outcome Pedigree :=
  match m_pedigree x with
  | None => Undefined
  | Some p => match peds !! p with
              | Some ped => Ok ped
              | None => Undefined
              end
  end.

(** [void Individual::dijkstra_reset()] *)
Definition dijkstra_reset (x : Individual) : Individual :=
  with_dijkstra false 0 x.

(** [void Individual::dijkstra_tick_distance(int step)] *)
Definition dijkstra_tick_distance (step : Z) (x : Individual) : Individual :=
  with_dijkstra (m_dijkstra_visited x) (m_dijkstra_distance x + step) x.

(** [void Individual::dijkstra_mark_visited()] *)
Definition dijkstra_mark_visited (x : Individual) : Individual :=
  with_dijkstra true (m_dijkstra_distance x) x.

(** A call of a scratch-field method through a pointer. *)
Definition update (f : Individual -> Individual) (a : addr) (h : heap) : outcome heap :=
  let! x := deref h a in Ok (<[a := f x]> h).

(** [void Individual::meiosis_dist_tree_internal(Individual* dest, int* dist) const].
    The state is the heap, which holds the scratch fields, and [*dist]. *)
Fixpoint meiosis_dist_tree_internal (fuel : nat) (this dest : addr) (st : heap * Z)
  : outcome (heap * Z) :=
  match fuel with
  | O => Timeout
  | S fuel' =>
      let '(h, dist) := st in
      let! x := deref h this in
      let! d := deref h dest in
      if m_pid x =? m_pid d then Ok (h, m_dijkstra_distance d)
      else if m_dijkstra_visited d then Ok (h, dist)
      else
        let d1 := dijkstra_tick_distance 1 (dijkstra_mark_visited d) in
        let h1 := <[dest := d1]> h in
        let m := m_dijkstra_distance d1 in
        let! st1 :=
          match m_father d1 with
          | Some father =>
              let! h2 := update (dijkstra_tick_distance m) father h1 in
              meiosis_dist_tree_internal fuel' this father (h2, dist)
          | None => Ok (h1, dist)
          end in
        ofold (fun st child =>
                 let! h' := update (dijkstra_tick_distance m) child (fst st) in
                 meiosis_dist_tree_internal fuel' this child (h', snd st))
              (m_children d1) st1
  end.

Definition msg_this_unset : exn := invalid_argument "!(this->pedigree_is_set())".
Definition msg_dest_null : exn := invalid_argument "dest is NULL".
Definition msg_dest_unset : exn := invalid_argument "!(dest->pedigree_is_set())".

(** The loop [for (auto child : *inds) child->dijkstra_reset()]. *)
Definition reset_all (members : list addr) (h : heap) : outcome heap :=
  ofold (fun h a => update dijkstra_reset a h) members h.

(** [int Individual::meiosis_dist_tree(Individual* dest) const]. Every
    level of the recursion below marks one more individual as visited, so
    a fuel of one more than the number of individuals is never used up. *)
Definition meiosis_dist_tree (h : heap) (peds : pedigrees) (this : addr)
    (dest : option addr) : outcome (heap * Z) :=
  let! x := deref h this in
  if negb (pedigree_is_set x) then Throw msg_this_unset
  else match dest with
       | None => Throw msg_dest_null
       | Some dest =>
           let! d := deref h dest in
           if negb (pedigree_is_set d) then Throw msg_dest_unset
           else if negb (m_pedigree_id x =? m_pedigree_id d) then Ok (h, -1)
           else
             let! ped := get_pedigree peds x in
             let! h1 := reset_all (ped_members ped) h in
             meiosis_dist_tree_internal (S (size h1)) this dest (h1, 0)
       end.

Definition value_of {A B} (r : outcome (A * B)) : outcome B :=
  let! p := r in Ok (snd p).

Definition heap_of (h : heap) (r : outcome (heap * Z)) : heap :=
  match r with
  | Ok (h', _) => h'
  | _ => h
  end.

(** *** The LCA path *)
Section WithFindPath.
(** [bool find_path_from_root_to_dest(Individual* root,
    std::vector<Individual*>& path, const Individual* dest)] is declared
    in a header that is not among the sources: it is a parameter. It
    receives the heap, the root, the path so far and the target and
    returns its verdict with the path. *)
Variable find_path_from_root_to_dest :
  heap -> option addr -> list addr -> addr -> bool * list addr.

(** The loop that advances [LCA_index] while the two paths agree. *)
Fixpoint lca_scan (h : heap) (path_this path_dest : list addr) (i : nat) : outcome nat :=
  match path_this, path_dest with
  | a :: pt, b :: pd =>
      let! x := deref h a in
      let! y := deref h b in
      if negb (m_pid x =? m_pid y) then Ok i else lca_scan h pt pd (S i)
  | _, _ => Ok i
  end.

Definition msg_no_path_this : exn :=
  invalid_argument "Could not find path between root and this".
Definition msg_no_path_dest : exn :=
  invalid_argument "Could not find path between root and dest".
Definition msg_lca_zero : exn := invalid_argument "LCA_index cannot be 0".

(** [std::vector<Individual*> Individual::calculate_path_to(Individual* dest) const] *)
Definition calculate_path_to (h : heap) (peds : pedigrees) (this : addr)
    (dest : option addr) : outcome (list addr) :=
  let! x := deref h this in
  if negb (pedigree_is_set x) then Throw msg_this_unset
  else match dest with
       | None => Throw msg_dest_null
       | Some dest =>
           let! d := deref h dest in
           if negb (pedigree_is_set d) then Throw msg_dest_unset
           else if negb (m_pedigree_id x =? m_pedigree_id d) then Ok []
           else
             let! ped := get_pedigree peds x in
             let root := ped_root ped in
             let '(found_this, path_this) := find_path_from_root_to_dest h root [] this in
             if negb found_this then Throw msg_no_path_this
             else
               let '(found_dest, path_dest) := find_path_from_root_to_dest h root [] dest in
               if negb found_dest then Throw msg_no_path_dest
               else
                 let! LCA_index := lca_scan h path_this path_dest 0 in
                 match LCA_index with
                 | O => Throw msg_lca_zero
                 | S i =>
                     let! lca := vec_nth path_this i in
                     Ok (lca :: drop LCA_index path_this ++ drop LCA_index path_dest)
                 end
       end.
End WithFindPath.

(** *** The genealogy as a graph, and the invariants of section 3 *)

Definition father_of (h : heap) (a : addr) : option addr :=
  match h !! a with
  | Some x => m_father x
  | None => None
  end.

Definition generation_of (h : heap) (a : addr) : Z :=
  match h !! a with
  | Some x => m_generation x
  | None => 0
  end.

(** A parent-child edge, in either direction. *)
Definition adjb (h : heap) (a b : addr) : bool :=
  bool_decide (father_of h a = Some b) || bool_decide (father_of h b = Some a).

(** The vertices of a walk along parent-child edges. *)
Fixpoint is_path (h : heap) (l : list addr) : bool :=
  match l with
  | [] => false
  | a :: t =>
      match t with
      | [] => bool_decide (is_Some (h !! a))
      | b :: _ => adjb h a b && is_path h t
      end
  end.

Definition father_ok (h : heap) (a : addr) (x : Individual) : bool :=
  match m_father x with
  | None => true
  | Some f =>
      match h !! f with
      | Some fx =>
          bool_decide (a ∈ m_children fx)
          && (m_generation fx =? m_generation x + 1)
          && (m_pedigree_id fx =? m_pedigree_id x)
      | None => false
      end
  end.

Definition children_ok (h : heap) (a : addr) (x : Individual) : bool :=
  forallb (fun c => match h !! c with
                    | Some cx => bool_decide (m_father cx = Some a)
                    | None => false
                    end) (m_children x)
  && bool_decide (NoDup (m_children x)).

Definition pedigree_ok (h : heap) (peds : pedigrees) (x : Individual) : bool :=
  if pedigree_is_set x then
    match m_pedigree x with
    | Some p =>
        match peds !! p with
        | Some ped =>
            forallb (fun b => bool_decide (is_Some (h !! b))) (ped_members ped)
            && forallb (fun by_ : addr * Individual =>
                          if m_pedigree_id (snd by_) =? m_pedigree_id x
                          then bool_decide (fst by_ ∈ ped_members ped)
                          else true) (map_to_list h)
        | None => false
        end
    | None => false
    end
  else true.

(** Section 3: pids are unique; a father is one generation older than his
    child and lists it exactly once among his children; father and child
    lie in the same pedigree; the member list of a pedigree holds every
    individual that carries its id. *)
Definition wf_population (h : heap) (peds : pedigrees) : bool :=
  forallb (fun ax : addr * Individual =>
             father_ok h (fst ax) (snd ax)
             && children_ok h (fst ax) (snd ax)
             && pedigree_ok h peds (snd ax)) (map_to_list h)
  && bool_decide (NoDup (map (fun ax : addr * Individual => m_pid (snd ax)) (map_to_list h))).

(** The iterated father. *)
Fixpoint anc (h : heap) (n : nat) (a : addr) : option addr :=
  match n with
  | O => Some a
  | S n' => match anc h n' a with
            | Some b => father_of h b
            | None => None
            end
  end.

Definition adj (h : heap) (a b : addr) : Prop :=
  father_of h a = Some b \/ father_of h b = Some a.

(** [branch h p x z n]: [z] is reached from [x] by a walk of [n] edges
    that never turns back along the edge it just took, and whose first
    step does not lead to [p]. *)
Inductive branch (h : heap) : option addr -> addr -> addr -> nat -> Prop :=
| branch_here p x : branch h p x x 0
| branch_step p x y z n :
    adj h x y -> p <> Some y -> branch h (Some x) y z n -> branch h p x z (S n).

(** Two heaps that differ in the scratch fields only. *)
Definition same_structure (h h' : heap) : Prop :=
  forall a, dijkstra_reset <$> (h !! a) = dijkstra_reset <$> (h' !! a).

Definition visited_in (h : heap) (a : addr) : bool :=
  match h !! a with
  | Some x => m_dijkstra_visited x
  | None => false
  end.

Definition distance_in (h : heap) (a : addr) : Z :=
  match h !! a with
  | Some x => m_dijkstra_distance x
  | None => 0
  end.

(** The individuals not yet marked as visited. *)
Definition unvisited (h : heap) : gset addr :=
  dom (filter (fun ax : addr * Individual => m_dijkstra_visited (snd ax) = false) h).

(** The tree of scenario 4: grandfather 1, father 2, son 3, all in
    pedigree 7; and a stranger 4 in pedigree 8. *)
Definition person (pid generation : Z) (father : option addr) (children : list addr)
    (ped_id : Z) (ped : option addr) : Individual :=
  mkIndividual pid generation children father ped_id ped false 0 [] false false.

Definition family : heap :=
  <[ 1%positive := person 1 2 None [2%positive] 7 (Some 1%positive) ]>
  (<[ 2%positive := person 2 1 (Some 1%positive) [3%positive] 7 (Some 1%positive) ]>
  (<[ 3%positive := person 3 0 (Some 2%positive) [] 7 (Some 1%positive) ]>
  (<[ 4%positive := person 4 0 None [] 8 (Some 2%positive) ]> ∅))).

Definition family_pedigrees : pedigrees :=
  <[ 1%positive := mkPedigree 7 (Some 1%positive) [1%positive; 2%positive; 3%positive] [] ]>
  (<[ 2%positive := mkPedigree 8 (Some 4%positive) [4%positive] [] ]> ∅).

(** What [wf_population] decides. *)
Record wf (h : heap) (peds : pedigrees) : Prop := {
  wf_father : forall a x f, h !! a = Some x -> m_father x = Some f ->
      exists fx, h !! f = Some fx
                 /\ a ∈ m_children fx
                 /\ m_generation fx = m_generation x + 1
                 /\ m_pedigree_id fx = m_pedigree_id x;
  wf_child : forall a x c, h !! a = Some x -> c ∈ m_children x ->
      exists cx, h !! c = Some cx /\ m_father cx = Some a;
  wf_nodup : forall a x, h !! a = Some x -> NoDup (m_children x);
  wf_pid : forall a b x y, h !! a = Some x -> h !! b = Some y ->
      m_pid x = m_pid y -> a = b;
  wf_ped : forall a x, h !! a = Some x -> pedigree_is_set x = true ->
      exists ped, get_pedigree peds x = Ok ped
                  /\ (forall b, b ∈ ped_members ped -> is_Some (h !! b))
                  /\ (forall b y, h !! b = Some y ->
                        m_pedigree_id y = m_pedigree_id x -> b ∈ ped_members ped)
}.

(** One round of the loops of [meiosis_dist_tree_internal]: tick the
    neighbour by [m], then descend into it. *)
Definition visit (fuel : nat) (this : addr) (m : Z) (st : heap * Z) (y : addr)
  : outcome (heap * Z) :=
  let! h' := update (dijkstra_tick_distance m) y (fst st) in
  meiosis_dist_tree_internal fuel this y (h', snd st).

(** The father, if any, and then the children: the order of the calls. *)
Definition neighbours (x : Individual) : list addr :=
  match m_father x with
  | Some f => f :: m_children x
  | None => m_children x
  end.

(** No father or child pointer dangles. *)
Definition closed (h : heap) : Prop :=
  forall a x y, h !! a = Some x -> y ∈ neighbours x -> is_Some (h !! y).

(** A search for the root path that never succeeds. *)
Definition never_found : heap -> option addr -> list addr -> addr -> bool * list addr :=
  fun _ _ _ _ => (false, []).

End Analytics.

(** ** The genealogy samplers ([api_simulate.cpp] and the variance variant) *)

Module Sampler.

(** The population under construction: the map from pid to individual,
    the individuals, the counter [individual_id] and the number of draws
    taken from the random source. *)
Record sim : Type := mkSim {
  population : gmap Z addr;
  individuals : heap;
  individual_id : Z;
  rng : nat
}.

Record simulation : Type := mkSimulation {
  res_population : sim;
  res_generations : Z;
  res_founders : Z;
  res_end_generation : list addr;
  (** the local [children_generation] when the loop is left *)
  res_last_generation : list (option addr)
}.

(** [Individual* indv = new Individual(individual_id++, generation)]
    followed by the registration of [indv] in [population_map] under its
    pid. *)
Definition alloc_Individual (generation : Z) (s : sim) : addr * sim :=
  let a := fresh (dom (individuals s)) in
  let x := new_Individual (individual_id s) generation in
  (a, mkSim (<[m_pid x := a]> (population s)) (<[a := x]> (individuals s))
            (individual_id s + 1) (rng s)).

(** The set-up loop of generation 0. *)
Fixpoint first_generation (n : nat) (s : sim) : list addr * sim :=
  match n with
  | O => ([], s)
  | S n' =>
      let '(a, s1) := alloc_Individual 0 s in
      let '(l, s2) := first_generation n' s1 in
      (a :: l, s2)
  end.

(** Conversion of a [double] to [int]: truncation towards zero. *)
Definition Qtrunc (q : Q) : Z := Z.quot (Qnum q) (Zpos (Qden q)).

Section Loop.
(** How a child picks the slot of its father: from the generation and
    the position in the random source to the slot and the new position. *)
Variable sample_father : Z -> nat -> Z * nat.
(** [Progress::check_abort()], polled once per generation. *)
Variable check_abort : Z -> bool.
Variable population_size : nat.

(** The body of the loop over the children of one generation. The state
    is [fathers_generation], [new_founders_left] and the population. *)
Definition pick_father (generation : Z)
    (st : list (option addr) * Z * sim) (child : option addr)
  : outcome (list (option addr) * Z * sim) :=
  let '(fathers, new_founders_left, s) := st in
  match child with
  | None => Ok st
  | Some c =>
      let '(father_i, k') := sample_father generation (rng s) in
      let s0 := mkSim (population s) (individuals s) (individual_id s) k' in
      let! slot := vec_at fathers father_i in
      let '(f, fathers1, founders1, s1) :=
        match slot with
        | Some f => (f, fathers, new_founders_left, s0)
        | None =>
            let '(f, s1) := alloc_Individual generation s0 in
            (f, <[Z.to_nat father_i := Some f]> fathers, new_founders_left + 1, s1)
        end in
      let! h1 := set_father c (Some f) (individuals s1) in
      let! h2 := add_child f c h1 in
      Ok (fathers1, founders1,
          mkSim (population s1) h2 (individual_id s1) (rng s1))
  end.

(** The [while] loop over the generations. *)
Fixpoint generations_loop (fuel : nat) (fixed : bool) (generations generation : Z)
    (founders_left : Z) (children_generation : list (option addr)) (s : sim)
    (end_generation : list addr) : outcome simulation :=
  if (fixed && (generation <? generations)) || (negb fixed && (1 <? founders_left)) then
    match fuel with
    | O => Timeout
    | S fuel' =>
        let fathers_generation := replicate population_size None in
        let! (fathers, new_founders_left, s1) :=
          ofold (pick_father generation) children_generation
                (fathers_generation, 0, s) in
        if check_abort generation then Throw (rcpp_stop "Aborted")
        else generations_loop fuel' fixed generations (generation + 1)
               new_founders_left fathers s1 end_generation
    end
  else Ok (mkSimulation s generation founders_left end_generation children_generation).

(** The common frame of [sample_geneology] and [sample_geneology_variance]. *)
Definition sample_with (fuel : nat) (generations : Z) : outcome simulation :=
  if (population_size <=? 1)%nat then
    Throw (rcpp_stop "Please specify population_size > 1")
  else if (generations <? -1) || (generations =? 0) then
    Throw (rcpp_stop
      "Please specify generations as -1 (for simulation to 1 founder) or > 0")
  else
    let fixed := negb (generations =? -1) in
    let '(end_generation, s) := first_generation population_size (mkSim ∅ ∅ 1 0) in
    generations_loop fuel fixed generations 1 (Z.of_nat population_size)
      (map Some end_generation) s end_generation.
End Loop.

(** [int sample_person(size_t population_size)]: the product of the draw
    and the population size, truncated to [int]. *)
Definition sample_person (unif : nat -> Q) (population_size : nat) (k : nat) : Z * nat :=
  (Qtrunc (unif k * inject_Z (Z.of_nat population_size)), S k).

(** [List sample_geneology(population_size, generations, progress, verbose_result)].
    The verbose tables and the progress bar do not feed back into the
    simulation and are left out. *)
Definition sample_geneology (unif : nat -> Q) (check_abort : Z -> bool) (fuel : nat)
    (population_size : nat) (generations : Z) : outcome simulation :=
  sample_with (fun _ k => sample_person unif population_size k) check_abort
    population_size fuel generations.

(** The individuals of a population. *)
Definition lookup_pid (s : sim) (pid : Z) : option (addr * Individual) :=
  match population s !! pid with
  | Some a => match individuals s !! a with
              | Some x => Some (a, x)
              | None => None
              end
  | None => None
  end.

Definition never_abort : Z -> bool := fun _ => false.

(** A source in which every child picks slot 0. *)
Definition all_zero : nat -> Q := fun _ => 0%Q.

(** Section 3: a father is one generation older than his child and has it
    among his children. *)
Definition linked (h : heap) : Prop :=
  forall a x f, h !! a = Some x -> m_father x = Some f ->
    exists fx, h !! f = Some fx
               /\ m_generation fx = m_generation x + 1
               /\ a ∈ m_children fx.

(** The number of occupied slots of a generation. *)
Fixpoint occupied (slots : list (option addr)) : Z :=
  match slots with
  | [] => 0
  | Some _ :: rest => 1 + occupied rest
  | None :: rest => occupied rest
  end.

(** The state between two children of the loop of generation [g]:
    [todo] are the children still to be served. *)
Record picking (g : Z) (children todo : list (option addr))
    (fathers : list (option addr)) (founders : Z) (h : heap) : Prop := {
  pk_linked : linked h;
  pk_bound : forall a x, h !! a = Some x -> m_generation x <= g;
  pk_fathers : forall a x, h !! a = Some x -> m_generation x = g -> Some a ∈ fathers;
  pk_slots : forall a, Some a ∈ fathers ->
      exists x, h !! a = Some x /\ m_generation x = g /\ m_father x = None;
  pk_distinct : forall i j a,
      fathers !! i = Some (Some a) -> fathers !! j = Some (Some a) -> i = j;
  pk_count : founders = occupied fathers;
  pk_todo : forall c, Some c ∈ todo -> Some c ∈ children;
  pk_children : forall c, Some c ∈ children ->
      exists x, h !! c = Some x /\ m_generation x = g - 1;
  pk_orphans : forall a x, h !! a = Some x -> m_generation x < g ->
      m_father x = None -> Some a ∈ todo
}.

(** The state between two generations: [children] is the generation
    [g - 1], the oldest one so far. *)
Record generation_inv (g : Z) (children : list (option addr)) (founders : Z)
    (h : heap) : Prop := {
  gi_linked : linked h;
  gi_bound : forall a x, h !! a = Some x -> m_generation x <= g - 1;
  gi_members : forall a x, h !! a = Some x -> m_generation x = g - 1 -> Some a ∈ children;
  gi_slots : forall a, Some a ∈ children ->
      exists x, h !! a = Some x /\ m_generation x = g - 1 /\ m_father x = None;
  gi_distinct : forall i j a,
      children !! i = Some (Some a) -> children !! j = Some (Some a) -> i = j;
  gi_count : founders = occupied children;
  gi_positive : 1 <= founders;
  gi_orphans : forall a x, h !! a = Some x -> m_generation x < g - 1 -> m_father x <> None
}.

(** A run to the last founder in which every child picks slot 0, and a run
    over three generations with a father drawn in turn. *)
Definition no_simulation : simulation := mkSimulation (mkSim ∅ ∅ 0 0) 0 0 [] [].

Definition result_of (r : outcome simulation) : simulation :=
  match r with
  | Ok res => res
  | _ => no_simulation
  end.

Definition founder_run : simulation :=
  result_of (sample_geneology all_zero never_abort 5 3 (-1)).

Definition in_turn : nat -> Q := fun k => (Z.of_nat (k mod 3) # 3)%Q.

Definition fixed_run : simulation :=
  result_of (sample_geneology in_turn never_abort 5 3 3).

(** *** The variance sampler *)

(** [arma::sort_index(fathers_prob, "descend")] and [arma::sort], as an
    insertion sort of the pairs of a probability and its slot. *)
Fixpoint insert_descending (x : Q * nat) (l : list (Q * nat)) : list (Q * nat) :=
  match l with
  | [] => [x]
  | y :: l' =>
      if Qle_bool (fst y) (fst x) then x :: y :: l' else y :: insert_descending x l'
  end.

Definition sort_descending (l : list (Q * nat)) : list (Q * nat) :=
  fold_right insert_descending [] l.

(** [arma::cumsum] *)
Fixpoint cumsum (acc : Q) (l : list Q) : list Q :=
  match l with
  | [] => []
  | x :: rest => (acc + x)%Q :: cumsum (acc + x)%Q rest
  end.

(** The paternal fitness of one generation: the gamma draws, normalised,
    sorted in descending order and cumulated, with the permutation of the
    slots. *)
Definition draw_weights (rgamma : nat -> Q) (population_size : nat) : list Q * list nat :=
  let fathers_prob_tmpl := map rgamma (seq 0 population_size) in
  let total := Genotype.accumulate fathers_prob_tmpl in
  let fathers_prob := map (fun w => (w / total)%Q) fathers_prob_tmpl in
  let sorted := sort_descending (combine fathers_prob (seq 0 population_size)) in
  (cumsum 0%Q (map fst sorted), map snd sorted).

(** The scan [for (jj = 0; jj < population_size_1; ++jj)
    if (rU <= fathers_prob_cum[jj]) break;]. *)
Fixpoint scan_weighted (rU : Q) (cum : list Q) (steps jj : nat) : nat :=
  match steps with
  | O => jj
  | S steps' =>
      match cum with
      | c :: rest => if Qle_bool rU c then jj else scan_weighted rU rest steps' (S jj)
      | [] => jj
      end
  end.

(** [int sample_person_weighted(population_size, fathers_prob_cum, fathers_perm)] *)
Definition sample_person_weighted (unif : nat -> Q) (population_size : nat)
    (fathers_prob_cum : list Q) (fathers_perm : list nat) (k : nat) : Z * nat :=
  let jj := scan_weighted (unif k) fathers_prob_cum (population_size - 1) 0 in
  (Z.of_nat (nth jj fathers_perm 0%nat), S k).

(** [List sample_geneology_variance(population_size, generations,
    gamma_parameter_shape, gamma_parameter_scale, ...)]. [rgamma shape
    scale g i] is the [i]-th gamma draw of generation [g]. The list of the
    individuals of the first generations, kept for the caller, is output
    only and left out, like the verbose tables. *)
Definition sample_geneology_variance (unif : nat -> Q)
    (rgamma : Q -> Q -> Z -> nat -> Q) (check_abort : Z -> bool) (fuel : nat)
    (population_size : nat) (generations : Z)
    (gamma_parameter_shape gamma_parameter_scale : Q) : outcome simulation :=
  sample_with
    (fun generation k =>
       let '(fathers_prob_cum, fathers_perm) :=
         draw_weights (rgamma gamma_parameter_shape gamma_parameter_scale generation)
                      population_size in
       sample_person_weighted unif population_size fathers_prob_cum fathers_perm k)
    check_abort population_size fuel generations.

(** Gamma draws that favour the later slots. *)
Definition rising : Q -> Q -> Z -> nat -> Q :=
  fun _ _ _ i => inject_Z (Z.of_nat (S i)).

Definition variance_run : simulation :=
  result_of (sample_geneology_variance all_zero rising never_abort 5 3 (-1) 1 1).

End Sampler.

(** ** More of the code: propagation, pedigree building, estimators *)

Module More.
Import Genotype Haplotype Analytics Sampler.

(** *** Haplotype distance and propagation ([class_Individual.cpp]) *)

Definition msg_sizes : exn := invalid_argument "h_this.size() != h_dest.size()".

(** Arithmetic on [int]: a result outside the 32-bit range is signed
    overflow, which the language leaves undefined. *)
Definition int_min : Z := -2147483648.
Definition int_max : Z := 2147483647.

Definition int_result (z : Z) : outcome Z :=
  if (int_min <=? z) && (z <=? int_max) then Ok z else Undefined.

(** The loop [for (i = 0; i < h_this.size(); ++i) d += abs(h_this[i] - h_dest[i])],
    run once the sizes are known to agree. *)
Fixpoint L1_loop (h_this h_dest : list Z) (d : Z) : outcome Z :=
  match h_this, h_dest with
  | a :: rest_this, b :: rest_dest =>
      let! diff := int_result (a - b) in
      let! dist := int_result (Z.abs diff) in
      let! d' := int_result (d + dist) in
      L1_loop rest_this rest_dest d'
  | _, _ => Ok d
  end.

(** [int Individual::get_haplotype_L1(Individual* dest) const] *)
Definition get_haplotype_L1 (h : heap) (this dest : addr) : outcome Z :=
  let! x := deref h this in
  let! y := deref h dest in
  if negb (Nat.eqb (length (m_haplotype x)) (length (m_haplotype y)))
  then Throw msg_sizes
  else L1_loop (m_haplotype x) (m_haplotype y) 0.

Section Propagate.
(** [R::runif(0.0, 1.0)]: the [k]-th draw of the run. *)
Variable unif : nat -> Q.



(** The same step with [child->haplotype_mutate_ladder_bounded(...)]. *)
Definition hand_down_ladder_bounded (mutation_rates : list Q)
    (ladder_min ladder_max : list Z) (this child : addr) (st : heap * nat)
  : outcome (heap * nat) :=
  let '(h, k) := st in
  let! x := deref h this in
  let! c := deref h child in
  let! (c', k') :=
    haplotype_mutate_ladder_bounded unif mutation_rates ladder_min ladder_max
      (set_haplotype (m_haplotype x) c) k in
  Ok (<[child := c']> h, k').

(** [void Individual::pass_haplotype_to_children_ladder_bounded(recursive,
    mutation_rates, ladder_min, ladder_max)] *)
Fixpoint pass_haplotype_to_children_ladder_bounded (fuel : nat) (recursive : bool)
    (mutation_rates : list Q) (ladder_min ladder_max : list Z) (this : addr)
    (st : heap * nat) : outcome (heap * nat) :=
  match fuel with
  | O => Timeout
  | S fuel' =>
      let! x := deref (fst st) this in
      ofold (fun st child =>
               let! st1 :=
                 hand_down_ladder_bounded mutation_rates ladder_min ladder_max
                   this child st in
               if recursive
               then pass_haplotype_to_children_ladder_bounded fuel' recursive
                      mutation_rates ladder_min ladder_max child st1
               else Ok st1)
            (m_children x) st
  end.
End Propagate.

(** A locus that moved by one step, or not at all. *)
Definition one_step (a b : Z) : Prop := b = a \/ b = a - 1 \/ b = a + 1.

(** Reading three vectors at the same locus. *)
Definition at_locus (hap ladder_min ladder_max : list Z) (i : nat) (a lo hi : Z) : Prop :=
  hap !! i = Some a /\ ladder_min !! i = Some lo /\ ladder_max !! i = Some hi.

(** A father with the haplotype [7; 9] and two sons without one. *)
Definition household : heap :=
  <[ 1%positive := with_children [2%positive; 3%positive]
                     (set_haplotype [7; 9] (new_Individual 1 1)) ]>
  (<[ 2%positive := with_father (Some 1%positive) (new_Individual 2 0) ]>
  (<[ 3%positive := with_father (Some 1%positive) (new_Individual 3 0) ]> ∅)).


(** Every allele lies between the ends of the ladder of its locus. *)
Definition on_ladder (hap ladder_min ladder_max : list Z) : Prop :=
  forall i a, hap !! i = Some a ->
    exists lo hi, ladder_min !! i = Some lo /\ ladder_max !! i = Some hi /\ lo <= a <= hi.

(** No ladder consists of a single allele. *)
Definition ladder_open (ladder_min ladder_max : list Z) : Prop :=
  forall i lo hi, ladder_min !! i = Some lo -> ladder_max !! i = Some hi -> lo < hi.

(** A table of conditional cumulative distributions with one row per allele
    and one column per allele. *)
Definition square (cumdists : list (list Q)) : Prop :=
  Forall (fun row => length row = length cumdists) cumdists.

(** An unordered genotype over [n] alleles, stored smaller index first. *)
Definition genotype_over (n : Z) (geno : list Z) : Prop :=
  exists a b, geno = [a; b] /\ 0 <= a /\ a <= b /\ b < n.

(** Between [h] and [h'] the individual at [p] was given a haplotype with
    the property [P] and is otherwise the same. *)
Definition haplotype_written (P : list Z -> Prop) (h h' : heap) (p : addr) : Prop :=
  exists c hap, h !! p = Some c /\ h' !! p = Some (set_haplotype hap c) /\ P hap.

Definition genotype_written (n : Z) : heap -> heap -> addr -> Prop :=
  haplotype_written (genotype_over n).

Definition ladder_written (ladder_min ladder_max : list Z) : heap -> heap -> addr -> Prop :=
  haplotype_written (fun hap => on_ladder hap ladder_min ladder_max).

(** A father with genotype [0; 1] and one child, and a table for two
    equally frequent alleles. *)
Definition autosomal_household : heap :=
  <[ 1%positive := with_children [2%positive]
                     (set_haplotype [0; 1] (new_Individual 1 1)) ]>
  (<[ 2%positive := with_father (Some 1%positive) (new_Individual 2 0) ]> ∅).

Definition even_table : list (list Q) := [[1 # 2; 1]; [1 # 2; 1]]%Q.


(** The individual at [p] carries a haplotype on the ladder. *)
Definition carries_on_ladder (ladder_min ladder_max : list Z) (h : heap) (p : addr) : Prop :=
  exists c, h !! p = Some c
            /\ m_haplotype_set c = true
            /\ on_ladder (m_haplotype c) ladder_min ladder_max.

(** Three individuals that only carry a haplotype. *)
Definition trio (ha hb hc : list Z) : heap :=
  <[ 1%positive := carrier ha ]> (<[ 2%positive := carrier hb ]>
  (<[ 3%positive := carrier hc ]> ∅)).

(** *** Conditional cumulative distributions ([api_simulate.cpp]) *)

Section Conditional.
Context {R : Type} {N : Num R}.

(** The value the double loop stores at [dists(i, j)]: the homozygous term
    on the diagonal; off the diagonal the product computed at the larger
    index first, stored at [(i, j)] and at [(j, i)]. *)
Definition conditional_entry (theta : R) (ps : list R) (i j : nat) : R :=
  if Nat.eqb i j then
    num_add (num_mul theta (ps_at ps i))
            (num_mul (num_mul (num_sub num_one theta) (ps_at ps i)) (ps_at ps i))
  else
    num_mul (num_mul (num_sub num_one theta) (ps_at ps (Nat.max i j)))
            (ps_at ps (Nat.min i j)).

(** [std::partial_sum(first, last, out, std::plus<double>())] *)
Fixpoint partial_sum_from (acc : R) (v : list R) : list R :=
  match v with
  | [] => []
  | x :: rest => let acc' := num_add acc x in acc' :: partial_sum_from acc' rest
  end.

Definition partial_sum (v : list R) : list R :=
  match v with
  | [] => []
  | x :: rest => x :: partial_sum_from x rest
  end.

(** Row [i] after the last pass: [dists(i, _) / ps[i]], then its running sums. *)
Definition conditional_row (theta : R) (ps : list R) (alleles_count : nat) (i : nat)
  : list R :=
  partial_sum (map (fun j => num_div (conditional_entry theta ps i j) (ps_at ps i))
                   (seq 0 alleles_count)).

(** [Rcpp::NumericMatrix calc_autosomal_genotype_conditional_cumdist(allele_dist, theta)],
    the matrix as the list of its rows. *)
Definition calc_autosomal_genotype_conditional_cumdist (allele_dist : list R) (theta : R)
  : outcome (list (list R)) :=
  if out_of_unit allele_dist then
    Throw (rcpp_stop "allele_dist's elements must be between 0 and 1, both included")
  else if num_ltb theta num_zero || num_ltb num_one theta then
    Throw (rcpp_stop "theta must be between 0 and 1, both included")
  else
    let ps := normalise allele_dist in
    Ok (map (conditional_row theta ps (length ps)) (seq 0 (length ps))).
End Conditional.

(** A row of cumulative probabilities: it starts at or above zero, never
    falls and ends at one. *)
Definition cumulative (row : list Q) : Prop :=
  (forall a, row !! O = Some a -> (0 <= a)%Q)
  /\ (forall j a b, row !! j = Some a -> row !! S j = Some b -> (a <= b)%Q)
  /\ (forall z, last row = Some z -> (z == 1)%Q).

(** *** Tables for the estimators of theta ([api_simulate.cpp]) *)

(** [m[k] += x] on a [std::unordered_map<_, double>]: a missing key is
    first inserted with the value [0.0]. Arithmetic is exact here. *)
Definition bump {K : Type} `{Countable K} (m : gmap K Q) (k : K) (x : Q) : gmap K Q :=
  <[k := (default 0 (m !! k) + x)%Q]> m.

(** Reading [m[k]] with the same default. *)
Definition value_at {K : Type} `{Countable K} (m : gmap K Q) (k : K) : Q :=
  default 0%Q (m !! k).

(** An [Rcpp::IntegerMatrix]. *)
Record IntegerMatrix : Type := mkIntegerMatrix {
  nrow : nat;
  ncol : nat;
  cell : nat -> nat -> Z
}.

(** The three containers [estimate_theta_1subpop] is given. *)
Record containers : Type := mkContainers {
  allele_p : gmap Z Q;
  genotype_p : gmap (Z * Z) Q;
  genotypes_unique : gset (Z * Z)
}.

Definition no_containers : containers := mkContainers ∅ ∅ ∅.

(** [void estimate_theta_1subpop_fill_containers(a1, a2, one_over_n,
    one_over_2n, allele_p, genotype_p, genotypes_unique)] *)
Definition estimate_theta_1subpop_fill_containers (a1 a2 : Z) (one_over_n one_over_2n : Q)
    (c : containers) : containers :=
  let '(a1, a2) := if a2 <? a1 then (a2, a1) else (a1, a2) in
  let geno := (a1, a2) in
  mkContainers
    (if a1 =? a2 then bump (allele_p c) a1 one_over_n
     else bump (bump (allele_p c) a1 one_over_2n) a2 one_over_2n)
    (bump (genotype_p c) geno one_over_n)
    ({[ geno ]} ∪ genotypes_unique c).

(** [estimate_theta_1subpop_genotypes(genotypes, return_estimation_info)] up
    to its last step, the call of [estimate_theta_1subpop] on the containers
    built here. *)
Definition estimate_theta_1subpop_genotypes_containers (genotypes : IntegerMatrix)
  : outcome containers :=
  let n := nrow genotypes in
  if (Z.of_nat n <=? 0) then Throw (rcpp_stop "genotypes cannot be empty")
  else if negb (Nat.eqb (ncol genotypes) 2) then
    Throw (rcpp_stop "genotypes must have exactly two columns")
  else
    let one_over_n := (1 / inject_Z (Z.of_nat n))%Q in
    let one_over_2n := (1 / (2 * inject_Z (Z.of_nat n)))%Q in
    Ok (fold_left (fun c i =>
                     estimate_theta_1subpop_fill_containers
                       (cell genotypes i 0) (cell genotypes i 1) one_over_n one_over_2n c)
                  (seq 0 n) no_containers).

(** [estimate_theta_1subpop_individuals(individuals, return_estimation_info)]
    up to the same call. *)
Definition estimate_theta_1subpop_individuals_containers (h : heap) (individuals : list addr)
  : outcome containers :=
  let n := length individuals in
  if (Z.of_nat n <=? 0) then Throw (rcpp_stop "No individuals given")
  else
    let! first := vec_nth individuals 0 in
    let! x0 := deref h first in
    if negb (m_haplotype_set x0) then Throw (rcpp_stop "Haplotypes not yet set")
    else if negb (Nat.eqb (length (m_haplotype x0)) 2) then
      Throw (rcpp_stop "Expected exactly 2 autosomal loci")
    else
      let one_over_n := (1 / inject_Z (Z.of_nat n))%Q in
      let one_over_2n := (1 / (2 * inject_Z (Z.of_nat n)))%Q in
      ofold (fun c individual =>
               let! x := deref h individual in
               let hap := m_haplotype x in
               let! a1 := vec_nth hap 0 in
               let! a2 := vec_nth hap 1 in
               Ok (estimate_theta_1subpop_fill_containers a1 a2 one_over_n one_over_2n c))
            individuals no_containers.

(** The sum of [g k v] over the entries of a table. *)
Definition table_sum {K : Type} `{Countable K} (g : K -> Q -> Q) (m : gmap K Q) : Q :=
  map_fold (fun k v acc => (g k v + acc)%Q) 0%Q m.

Definition total {K : Type} `{Countable K} (m : gmap K Q) : Q :=
  table_sum (fun _ v => v) m.

(** Half the number of copies of the allele [a] in a genotype. *)
Definition share (a : Z) (geno : Z * Z) : Q :=
  ((if fst geno =? a then 1 # 2 else 0) + (if snd geno =? a then 1 # 2 else 0))%Q.

(** A genotype with the smaller allele first. *)
Definition ordered (geno : Z * Z) : Z * Z :=
  if snd geno <? fst geno then (snd geno, fst geno) else geno.

(** The rows of a matrix with two columns. *)
Definition genotype_rows_of (genotypes : IntegerMatrix) : list (Z * Z) :=
  map (fun i => (cell genotypes i 0, cell genotypes i 1)) (seq 0 (nrow genotypes)).

(** The matrix with the two columns exchanged in the rows chosen by [flip]. *)
Definition flipped (flip : nat -> bool) (genotypes : IntegerMatrix) : IntegerMatrix :=
  mkIntegerMatrix (nrow genotypes) (ncol genotypes)
    (fun i j => if flip i
                then cell genotypes i (match j with O => 1 | 1 => 0 | _ => j end)%nat
                else cell genotypes i j).

(** A sample of three genotypes over the alleles 1 and 2. *)
Definition three_genotypes : IntegerMatrix :=
  mkIntegerMatrix 3 2
    (fun i j => match i, j with
                | O, _ => 1
                | 1%nat, O => 2
                | 1%nat, _ => 1
                | _, _ => 2
                end).

(** The genotypes of a list of individuals, one row each. *)
Definition matrix_of_individuals (h : heap) (individuals : list addr) : IntegerMatrix :=
  mkIntegerMatrix (length individuals) 2
    (fun i j => match individuals !! i with
                | Some p => match h !! p with
                            | Some x => nth j (m_haplotype x) 0
                            | None => 0
                            end
                | None => 0
                end).

(** Every key [estimate_theta_1subpop] looks up with [at] is present:
    the genotype itself in [genotype_p], its two alleles in [allele_p]. *)
Definition lookups_succeed (c : containers) : Prop :=
  forall a1 a2, (a1, a2) ∈ genotypes_unique c ->
    a1 <= a2
    /\ is_Some (genotype_p c !! (a1, a2))
    /\ is_Some (allele_p c !! a1)
    /\ is_Some (allele_p c !! a2).

(** Three individuals with the genotypes of [three_genotypes]. *)
Definition three_individuals : heap :=
  <[ 1%positive := carrier [1; 1] ]> (<[ 2%positive := carrier [2; 1] ]>
  (<[ 3%positive := carrier [2; 2] ]> ∅)).

(** An individual with a genotype followed by one without a haplotype. *)
Definition unchecked_pair : heap :=
  <[ 1%positive := carrier [1; 1] ]> (<[ 2%positive := new_Individual 2 0 ]> ∅).

(** The three containers of the estimator for several subpopulations: per
    subpopulation the heterozygous, homozygous and allele proportions. *)
Record subpop_tables : Type := mkTables {
  H_A : list (gmap Z Q);
  P_AA : list (gmap Z Q);
  p_A : list (gmap Z Q)
}.

(** [v[i][a] += x] on a vector of maps. *)
Definition bump_at (v : list (gmap Z Q)) (i : nat) (a : Z) (x : Q)
  : outcome (list (gmap Z Q)) :=
  let! m := vec_nth v i in
  Ok (<[i := bump m a x]> v).

(** [void fill_H_A_P_AA_p_A(a, b, i, frac1, frac2, H_A, P_AA, p_A)] *)
Definition fill_H_A_P_AA_p_A (a b : Z) (i : nat) (frac1 frac2 : Q) (t : subpop_tables)
  : outcome subpop_tables :=
  if a =? b then
    let! p := bump_at (p_A t) i a frac2 in
    let! P := bump_at (P_AA t) i a frac2 in
    Ok (mkTables (H_A t) P p)
  else
    let! p := bump_at (p_A t) i a frac1 in
    let! p := bump_at p i b frac1 in
    let! H := bump_at (H_A t) i a frac2 in
    let! H := bump_at H i b frac2 in
    Ok (mkTables H (P_AA t) p).

(** The body of the loop over the subpopulations in
    [estimate_theta_subpops_genotypes]. *)
Definition fill_subpop (subpops : list IntegerMatrix) (subpops_sizes : list Z)
    (st : subpop_tables * list Q) (i : nat) : outcome (subpop_tables * list Q) :=
  let! subpop := vec_nth subpops i in
  if Z.of_nat (nrow subpop) <=? 0 then Throw (rcpp_stop "Subpop sample of size <= 0")
  else if negb (Nat.eqb (ncol subpop) 2) then
    Throw (rcpp_stop "Expected exactly 2 autosomal loci")
  else
    let! size := vec_nth subpops_sizes i in
    if size <=? 0 then Throw (rcpp_stop "Subpop size <= 0")
    else
      let n := <[i := inject_Z size]> (snd st) in
      let sample_size_i := inject_Z (Z.of_nat (nrow subpop)) in
      let frac1 := (1 / (2 * sample_size_i))%Q in
      let frac2 := (1 / sample_size_i)%Q in
      let! t := ofold (fun t j =>
                         fill_H_A_P_AA_p_A (cell subpop j 0) (cell subpop j 1) i
                           frac1 frac2 t)
                      (seq 0 (nrow subpop)) (fst st) in
      Ok (t, n).

(** [estimate_theta_subpops_genotypes(subpops, subpops_sizes)] up to its
    last step, the call of [estimate_theta_subpops_weighted_engine] on the
    containers and the vector [n] built here. *)
Definition estimate_theta_subpops_genotypes_containers (subpops : list IntegerMatrix)
    (subpops_sizes : list Z) : outcome (subpop_tables * list Q) :=
  let r := length subpops in
  if Z.of_nat r <=? 0 then Throw (rcpp_stop "No subpopulations given")
  else if negb (Nat.eqb (length subpops_sizes) r) then
    Throw (rcpp_stop "length(subpops) != length(subpops_sizes)")
  else if existsb (fun s => s <=? 0) subpops_sizes then
    Throw (rcpp_stop "All subpops_sizes must be positive")
  else
    ofold (fill_subpop subpops subpops_sizes) (seq 0 r)
      (mkTables (replicate r ∅) (replicate r ∅) (replicate r ∅), replicate r 0%Q).

(** In subpopulation [i] the allele proportions sum to one and the
    heterozygous proportion of every allele is twice the difference of its
    allele and homozygous proportions. *)
Definition consistent_at (t : subpop_tables) (i : nat) : Prop :=
  exists HA PAA pA,
    H_A t !! i = Some HA /\ P_AA t !! i = Some PAA /\ p_A t !! i = Some pA
    /\ (total pA == 1)%Q
    /\ forall a, (value_at HA a == 2 * (value_at pA a - value_at PAA a))%Q.

(** Two samples: the genotypes of [three_genotypes] and a single
    heterozygote. *)
Definition two_subpops : list IntegerMatrix :=
  [three_genotypes; mkIntegerMatrix 1 2 (fun _ j => match j with O => 4 | _ => 5 end)].

(** The state of the loop over [r] subpopulations before subpopulation [s]:
    the earlier ones are filled, the later ones still empty. *)
Definition filled_upto (subpops_sizes : list Z) (r s : nat)
    (st : subpop_tables * list Q) : Prop :=
  length (H_A (fst st)) = r /\ length (P_AA (fst st)) = r
  /\ length (p_A (fst st)) = r /\ length (snd st) = r
  /\ (forall k, (k < s)%nat ->
        consistent_at (fst st) k
        /\ exists size, subpops_sizes !! k = Some size
                        /\ snd st !! k = Some (inject_Z size))
  /\ (forall k, (s <= k < r)%nat ->
        H_A (fst st) !! k = Some ∅ /\ P_AA (fst st) !! k = Some ∅
        /\ p_A (fst st) !! k = Some ∅).

(** *** Hashing pairs of alleles ([api_simulate.cpp]) *)

(** Arithmetic on [size_t], taken as 64 bits wide. *)
Definition wrap64 (z : Z) : Z := z mod 2 ^ 64.

(** [size_t hash_combine(size_t lhs, size_t rhs)]:
    [lhs ^= rhs + 0x9e3779b9 + (lhs << 6) + (lhs >> 2)]. *)
Definition hash_combine (lhs rhs : Z) : Z :=
  Z.lxor lhs (wrap64 (rhs + 2654435769 + wrap64 (Z.shiftl lhs 6) + Z.shiftr lhs 2)).

(** The conversion of a [size_t] to [int]: the low 32 bits, read as a signed
    number. *)
Definition to_int (z : Z) : Z := (z + 2 ^ 31) mod 2 ^ 32 - 2 ^ 31.

(** [tab[hash] += 1] on a [std::unordered_map<int, int>]. *)
Definition count_up (tab : gmap Z Z) (hash : Z) : gmap Z Z :=
  <[hash := default 0 (tab !! hash) + 1]> tab.

(** [std::unordered_map<int, int> hash_colisions(int p)] *)
Definition hash_colisions (p : Z) : gmap Z Z :=
  fold_left (fun tab i =>
               fold_left (fun tab j =>
                            count_up tab (to_int (hash_combine (Z.of_nat i) (Z.of_nat j))))
                         (seq (S i) (Z.to_nat p - S i)) tab)
            (seq 0 (Z.to_nat (p - 1))) ∅.

(** The sum of the counts of a table. *)
Definition count_total (tab : gmap Z Z) : Z :=
  map_fold (fun _ v acc => v + acc) 0 tab.

(** *** The population map of the samplers *)

(** The population map [pop] registers the individuals of [h] under their
    pids: every individual is found under its pid, which lies between 1
    and the counter [id]; every entry leads to an individual with that
    pid; and the counter is one more than the number of individuals. *)
Definition registered_at (pop : gmap Z addr) (h : heap) (id : Z) : Prop :=
  (forall a x, h !! a = Some x -> pop !! m_pid x = Some a /\ 1 <= m_pid x < id)
  /\ (forall pid a, pop !! pid = Some a -> exists x, h !! a = Some x /\ m_pid x = pid)
  /\ Z.of_nat (size h) = id - 1.

Definition registered (s : sim) : Prop :=
  registered_at (population s) (individuals s) (individual_id s).

(** *** The pedigree builder ([class_Individual.cpp]) *)

Definition with_pedigree (id : Z) (ped : option addr) (x : Individual) : Individual :=
  mkIndividual (m_pid x) (m_generation x) (m_children x) (m_father x)
    id ped (m_dijkstra_visited x) (m_dijkstra_distance x)
    (m_haplotype x) (m_haplotype_set x) (m_haplotype_mutated x).

(** [void Individual::unset_pedigree()] *)
Definition unset_pedigree (x : Individual) : Individual :=
  if negb (pedigree_is_set x) then x else with_pedigree 0 None x.

(** Modelled from the spec: [Pedigree::add_member], whose class is not among
    the sources. Section 3 gives a pedigree a member list and a root
    "assigned as the last member added whose father is null". *)
Definition add_member (this : addr) (x : Individual) (p : Pedigree) : Pedigree :=
  mkPedigree (ped_id p)
    (match m_father x with None => Some this | Some _ => ped_root p end)
    (ped_members p ++ [this]) (ped_relations p).

(** Modelled from the spec: [Pedigree::add_relation]; section 3 gives a
    pedigree "an enumerated parent-child relation list", and section 4.2
    records each traversed edge in it. *)
Definition add_relation (father child : addr) (p : Pedigree) : Pedigree :=
  mkPedigree (ped_id p) (ped_root p) (ped_members p)
    (ped_relations p ++ [(father, child)]).

(** [void Individual::set_pedigree_id(int id, Pedigree* ped, int* pedigree_size)].
    The state is the population, the pedigree at [ped] and the counter
    [*pedigree_size]. *)
Fixpoint set_pedigree_id (fuel : nat) (id : Z) (ped : addr) (this : addr)
    (st : heap * Pedigree * Z) : outcome (heap * Pedigree * Z) :=
  match fuel with
  | O => Timeout
  | S fuel' =>
      let '(h, p, pedigree_size) := st in
      let! x := deref h this in
      if pedigree_is_set x then Ok st
      else
        let x' := with_pedigree id (Some ped) x in
        let h1 := <[this := x']> h in
        let! size1 := int_result (pedigree_size + 1) in
        let p1 := add_member this x' p in
        let! st1 := match m_father x' with
                    | Some f => set_pedigree_id fuel' id ped f (h1, p1, size1)
                    | None => Ok (h1, p1, size1)
                    end in
        ofold (fun st child =>
                 let '(h, p, pedigree_size) := st in
                 set_pedigree_id fuel' id ped child
                   (h, add_relation this child p, pedigree_size))
              (m_children x') st1
  end.

(** Between [h] and [h'] exactly the individuals of [new], which had no
    pedigree, were assigned the pedigree [ped] under [id]. *)
Definition assigned (id : Z) (ped : addr) (h h' : heap) (new : list addr) : Prop :=
  NoDup new
  /\ (forall a, a ∈ new ->
        exists x, h !! a = Some x /\ pedigree_is_set x = false
                  /\ h' !! a = Some (with_pedigree id (Some ped) x))
  /\ (forall a, a ∉ new -> h' !! a = h !! a).

Definition is_set_in (h : heap) (a : addr) : Prop :=
  exists x, h !! a = Some x /\ pedigree_is_set x = true.

(** The father and the children of every individual of [new] have a
    pedigree. *)
Definition covered (h : heap) (new : list addr) : Prop :=
  forall a x, a ∈ new -> h !! a = Some x ->
    (forall f, m_father x = Some f -> is_set_in h f)
    /\ (forall c, c ∈ m_children x -> is_set_in h c).

(** What a call of [set_pedigree_id] has done to its state. *)
Definition flooded (id : Z) (ped : addr) (st st' : heap * Pedigree * Z)
    (new : list addr) : Prop :=
  assigned id ped (fst (fst st)) (fst (fst st')) new
  /\ ped_members (snd (fst st')) = ped_members (snd (fst st)) ++ new
  /\ ped_id (snd (fst st')) = ped_id (snd (fst st))
  /\ snd st' = snd st + Z.of_nat (length new).

(** An empty pedigree with the id 7. *)
Definition empty_pedigree : Pedigree := mkPedigree 7 None [] [].

(** The outcome of the flood fill from a son of [household]. *)
Definition flooded_household : heap * Pedigree * Z :=
  match set_pedigree_id 5 7 1%positive 2%positive (household, empty_pedigree, 0) with
  | Ok st => st
  | _ => (∅, empty_pedigree, 0)
  end.

(** The individuals without a pedigree. *)
Definition unassigned (h : heap) : gset addr :=
  dom (filter (fun ax : addr * Individual => pedigree_is_set (snd ax) = false) h).

(** The same individuals with the same fathers and children. *)
Definition same_links (h h' : heap) : Prop :=
  forall a, match h !! a, h' !! a with
            | Some x, Some x' =>
                m_father x' = m_father x /\ m_children x' = m_children x
            | None, None => True
            | _, _ => False
            end.

Definition nobody_assigned (h : heap) : Prop :=
  forall a x, h !! a = Some x -> pedigree_is_set x = false.

(** [a] is the child or the father of some individual that names [a] in
    return. *)
Definition on_an_edge (h : heap) (a : addr) : Prop :=
  exists x b y, h !! a = Some x /\ h !! b = Some y
    /\ ((m_father x = Some b /\ a ∈ m_children y)
        \/ (m_father y = Some a /\ b ∈ m_children x)).

End More.

(** * Properties *)

Import Genotype Haplotype Analytics Sampler.

(** ** Genotype probabilities *)

Section GenotypeFacts.
#[local] Open Scope Q_scope.

Lemma Qsum_app (u v : list Q) : Qsum (u ++ v) == Qsum u + Qsum v.
Proof.
  induction u as [|x u IH]; simpl.
  - ring.
  - rewrite IH. ring.
Qed.

Lemma accumulate_from (v : list Q) (a : Q) : fold_left Qplus v a == a + Qsum v.
Proof.
  revert a. induction v as [|x v IH]; intros a; simpl.
  - ring.
  - rewrite IH. ring.
Qed.

Lemma accumulate_Qsum (v : list Q) : accumulate v == Qsum v.
Proof. unfold accumulate. simpl. rewrite accumulate_from. ring. Qed.

(** Partial sums of the allele probabilities, by index. *)
Definition prefix_sum (ps : list Q) (n : nat) : Q :=
  Qsum (map (ps_at ps) (seq 0 n)).

Lemma prefix_sum_S ps n : prefix_sum ps (S n) == prefix_sum ps n + ps_at ps n.
Proof.
  unfold prefix_sum. rewrite seq_S, map_app, Qsum_app. simpl. ring.
Qed.

Lemma map_ps_at_seq (ps : list Q) : map (ps_at ps) (seq 0 (length ps)) = ps.
Proof.
  induction ps as [|x ps IH]; [reflexivity|].
  cbn [length seq map]. f_equal.
  rewrite <- seq_shift, map_map. exact IH.
Qed.

Lemma prefix_sum_all ps : prefix_sum ps (length ps) = Qsum ps.
Proof. unfold prefix_sum. now rewrite map_ps_at_seq. Qed.

Lemma het_part theta ps i n :
  (n <= i)%nat ->
  Qsum (map (genotype_entry theta ps i) (seq 0 n))
  == (1 - theta) * 2 * ps_at ps i * prefix_sum ps n.
Proof.
  induction n as [|n IH]; intros Hn.
  - unfold prefix_sum. simpl. ring.
  - rewrite seq_S, map_app, Qsum_app, IH, prefix_sum_S by lia.
    cbn [map Qsum Nat.add]. unfold genotype_entry.
    destruct (Nat.eqb_spec i n) as [->|_]; [lia|].
    cbn. ring.
Qed.

Lemma genotype_row_sum theta ps i :
  Qsum (genotype_row theta ps i)
  == theta * ps_at ps i + (1 - theta) * ps_at ps i * ps_at ps i
     + (1 - theta) * 2 * ps_at ps i * prefix_sum ps i.
Proof.
  unfold genotype_row. rewrite seq_S, map_app, Qsum_app, het_part by lia.
  cbn [map Qsum Nat.add]. unfold genotype_entry. rewrite Nat.eqb_refl.
  cbn. ring.
Qed.

Lemma genotype_rows_sum theta ps n :
  Qsum (genotype_rows theta ps n)
  == theta * prefix_sum ps n + (1 - theta) * prefix_sum ps n * prefix_sum ps n.
Proof.
  unfold genotype_rows. induction n as [|n IH].
  - unfold prefix_sum. simpl. ring.
  - rewrite seq_S, flat_map_app, Qsum_app, IH. cbn [flat_map Nat.add].
    rewrite app_nil_r, genotype_row_sum, prefix_sum_S. ring.
Qed.

Lemma Qsum_normalise (p : list Q) :
  ~ Qsum p == 0 -> Qsum (normalise p) == 1.
Proof.
  intros Hnz. unfold normalise.
  assert (Hs : forall (c : Q) (l : list Q), Qsum (map (fun x => num_div x c) l) == Qsum l / c).
  { intros c l. induction l as [|x l IH]; simpl.
    - unfold Qdiv. ring.
    - rewrite IH. unfold Qdiv. ring. }
  rewrite Hs, accumulate_Qsum. field. exact Hnz.
Qed.

Lemma out_of_unit_false (p : list Q) :
  Forall (fun x => 0 <= x <= 1) p -> out_of_unit p = false.
Proof.
  intros H. unfold out_of_unit. apply orb_false_iff. split.
  - apply not_true_is_false. rewrite existsb_exists. intros (x & Hin & Hx).
    apply list_elem_of_In in Hin. rewrite Forall_forall in H. destruct (H x Hin) as [H0 _].
    cbn in Hx. unfold Qltb in Hx. apply negb_true_iff in Hx.
    apply Qle_bool_iff in H0. congruence.
  - apply not_true_is_false. rewrite existsb_exists. intros (x & Hin & Hx).
    apply list_elem_of_In in Hin. rewrite Forall_forall in H. destruct (H x Hin) as [_ H1].
    cbn in Hx. unfold Qltb in Hx. apply negb_true_iff in Hx.
    apply Qle_bool_iff in H1. congruence.
Qed.

(** Claim C4. For every allele distribution with entries in [0, 1] that
    sum to 1 and every theta in [0, 1], [calc_autosomal_genotype_probs]
    returns a vector whose entries sum to 1 in exact arithmetic. *)
Theorem genotype_probs_sum_to_one (p : list Q) (theta : Q) :
  Forall (fun x => 0 <= x <= 1) p ->
  Qsum p == 1 ->
  0 <= theta <= 1 ->
  exists v, calc_autosomal_genotype_probs p theta = Ok v /\ Qsum v == 1.
Proof.
  intros Hp Hsum [Ht0 Ht1]. unfold calc_autosomal_genotype_probs.
  rewrite out_of_unit_false by exact Hp.
  assert (Hth : (num_ltb theta num_zero || num_ltb num_one theta)%bool = false).
  { cbn. unfold Qltb. apply Qle_bool_iff in Ht0, Ht1. now rewrite Ht0, Ht1. }
  rewrite Hth. eexists. split; [reflexivity|].
  rewrite genotype_rows_sum, prefix_sum_all, Qsum_normalise.
  - ring.
  - rewrite Hsum. discriminate.
Qed.

Lemma genotype_probs_sum_to_one_witness :
  exists v, calc_autosomal_genotype_probs scenario_p scenario_theta = Ok v /\ Qsum v == 1.
Proof.
  apply genotype_probs_sum_to_one.
  - repeat constructor; discriminate.
  - reflexivity.
  - split; discriminate.
Defined.

End GenotypeFacts.

(** Claim C3 fails as stated: the computed vector is not within 1e-9 of
    (0.052, 0.108, 0.093, 0.180, 0.270, 0.275). *)
Lemma genotype_scenario_spec_values_refuted :
  within_of tolerance spec_expected
    (calc_autosomal_genotype_probs scenario_p_f64 scenario_theta_f64) = false.
Proof. vm_compute. reflexivity. Qed.

(** Claim C3, as the code has it. For p = (0.2, 0.3, 0.5) and theta = 0.1
    the genotype vector, in the order 00, 10, 11, 20, 21, 22, is within 1e-9
    of (0.056, 0.108, 0.111, 0.180, 0.270, 0.275) in binary64 arithmetic
    and sums to 1 within 1e-9; in exact arithmetic it is that vector and
    sums to 1. *)
Theorem genotype_scenario_values :
  within_of tolerance code_expected
    (calc_autosomal_genotype_probs scenario_p_f64 scenario_theta_f64) = true
  /\ sum_within_of tolerance 1%float
       (calc_autosomal_genotype_probs scenario_p_f64 scenario_theta_f64) = true
  /\ exactly code_exact (calc_autosomal_genotype_probs scenario_p scenario_theta) = true.
Proof. repeat split; vm_compute; reflexivity. Qed.


(** ** Haplotype mutation *)

Lemma Qltb_true (x y : Q) : Qltb x y = true <-> (x < y)%Q.
Proof.
  unfold Qltb. rewrite negb_true_iff. split.
  - intros H. apply Qnot_le_lt. intros Hle. apply Qle_bool_iff in Hle. congruence.
  - intros H. apply not_true_is_false. intros Hle. apply Qle_bool_iff in Hle.
    apply Qlt_not_le in H. contradiction.
Qed.

Lemma unit_interval_lt_one unif k : unit_interval unif -> Qltb (unif k) 1 = true.
Proof. intros H. apply Qltb_true, H. Qed.

(** Claim C1. The ladder-bounded mutation of the haplotype [5] with
    mutation rate 1 does not fail on the ladder [5..5]: the allele sits on
    the lower bound, the step is forced upward, and the haplotype becomes
    [6], above the ladder. On the ladder [5..6] the haplotype becomes [6]
    as well, whatever the draws. *)
Theorem ladder_bounded_degenerate_ladder (unif : nat -> Q) (k : nat) :
  unit_interval unif ->
  haplotype_mutate_ladder_bounded unif [1%Q] [5] [5] (carrier [5]) k
    = Ok (carrier [6], S k)
  /\ haplotype_mutate_ladder_bounded unif [1%Q] [5] [6] (carrier [5]) k
    = Ok (carrier [6], S k).
Proof.
  intros Hu. unfold haplotype_mutate_ladder_bounded, mutate_locus_ladder_bounded.
  cbn. rewrite (unit_interval_lt_one unif k Hu). split; reflexivity.
Qed.

Lemma ladder_bounded_degenerate_ladder_witness :
  haplotype_mutate_ladder_bounded (fun _ => 0%Q) [1%Q] [5] [5] (carrier [5]) 0
    = Ok (carrier [6], 1%nat)
  /\ haplotype_mutate_ladder_bounded (fun _ => 0%Q) [1%Q] [5] [6] (carrier [5]) 0
    = Ok (carrier [6], 1%nat).
Proof.
  apply (ladder_bounded_degenerate_ladder (fun _ => 0%Q) 0).
  intros k. split; [apply Qle_refl | reflexivity].
Defined.

Lemma ofold_ok_inv {A B} (f : A -> B -> outcome A) (P : A -> Prop) (l : list B) :
  (forall a b a', P a -> f a b = Ok a' -> P a') ->
  forall a a', P a -> ofold f l a = Ok a' -> P a'.
Proof.
  intros Hstep. induction l as [|b l IH]; intros a a' Ha; cbn.
  - now intros [= <-].
  - destruct (f a b) as [a1| | |] eqn:E; cbn; try discriminate.
    intros H. exact (IH a1 a' (Hstep _ _ _ Ha E) H).
Qed.

Lemma ofold_total {A B} (f : A -> B -> outcome A) (P : A -> Prop) (Q : B -> Prop)
    (l : list B) :
  (forall a b, P a -> Q b -> exists a', f a b = Ok a' /\ P a') ->
  Forall Q l ->
  forall a, P a -> exists a', ofold f l a = Ok a' /\ P a'.
Proof.
  intros Hstep Hl. induction Hl as [|b l Hb Hl IH]; intros a Ha; cbn.
  - eauto.
  - destruct (Hstep a b Ha Hb) as (a1 & -> & Ha1). cbn. now apply IH.
Qed.

Lemma vec_nth_lt {A} (v : list A) (i : nat) :
  (i < length v)%nat -> exists x, vec_nth v i = Ok x.
Proof.
  intros H. unfold vec_nth. destruct (v !! i) eqn:E; [eauto|].
  apply lookup_ge_None in E. lia.
Qed.

Lemma mutate_locus_total unif rates (n : nat) st loc :
  length rates = n -> length (fst st) = n -> (loc < n)%nat ->
  exists st', mutate_locus unif rates st loc = Ok st' /\ length (fst st') = n.
Proof.
  intros Hr Hh Hloc. destruct st as [hap k]. cbn in Hh. unfold mutate_locus.
  destruct (vec_nth_lt rates loc) as [r ->]; [lia|]. cbn.
  destruct (Qltb (unif k) r).
  - destruct (vec_nth_lt hap loc) as [a ->]; [lia|]. cbn.
    destruct (Qltb (unif (S k)) half); eexists; (split; [reflexivity|]);
      cbn; now rewrite length_insert.
  - eexists; split; [reflexivity|]. exact Hh.
Qed.

Lemma mutate_loop_total unif rates hap k :
  length hap = length rates ->
  exists st', ofold (mutate_locus unif rates) (seq 0 (length hap)) (hap, k) = Ok st'
              /\ length (fst st') = length hap.
Proof.
  intros Hlen.
  apply (ofold_total _ (fun st => length (fst st) = length hap)
                       (fun loc => (loc < length hap)%nat)).
  - intros st loc Hst Hloc. now apply mutate_locus_total.
  - apply List.Forall_forall. intros loc Hin. apply in_seq in Hin. lia.
  - reflexivity.
Qed.

Lemma haplotype_mutate_ok_inv unif rates this k x' k' :
  haplotype_mutate unif rates this k = Ok (x', k') ->
  m_haplotype_set this = true
  /\ length (m_haplotype this) = length rates
  /\ m_haplotype_mutated this = false
  /\ exists hap, x' = with_haplotype hap true this /\ length hap = length (m_haplotype this).
Proof.
  unfold haplotype_mutate.
  destruct (m_haplotype_set this) eqn:Hs; cbn; [|discriminate].
  destruct (Nat.eqb_spec (length (m_haplotype this)) (length rates)) as [Hl|]; cbn;
    [|discriminate].
  destruct (m_haplotype_mutated this) eqn:Hm; [discriminate|].
  destruct (mutate_loop_total unif rates (m_haplotype this) k Hl) as ([hap k1] & -> & Hlen).
  cbn. intros [= <- <-]. repeat split; eauto.
Qed.

(** C8, first half *)
Lemma mutate_unset_fails unif rates lmin lmax this k :
  m_haplotype_set this = false ->
  haplotype_mutate unif rates this k = Throw msg_unset
  /\ haplotype_mutate_ladder_bounded unif rates lmin lmax this k = Throw msg_unset.
Proof.
  intros H. unfold haplotype_mutate, haplotype_mutate_ladder_bounded. now rewrite H.
Qed.

Lemma mutate_flagged_fails unif rates lmin lmax this k :
  m_haplotype_set this = true ->
  length (m_haplotype this) = length rates ->
  m_haplotype_mutated this = true ->
  haplotype_mutate unif rates this k = Throw msg_mutated
  /\ haplotype_mutate_ladder_bounded unif rates lmin lmax this k = Throw msg_mutated.
Proof.
  intros Hs Hl Hm. unfold haplotype_mutate, haplotype_mutate_ladder_bounded.
  rewrite Hs, Hm, Hl, Nat.eqb_refl. now cbn.
Qed.

(** Claim C8, second half, on the code. A successful [haplotype_mutate]
    leaves [m_haplotype_mutated] false, and a second mutation of the same
    individual is not rejected: the flag is tested and never set. *)
Theorem haplotype_mutate_twice unif rates this k x' k' :
  haplotype_mutate unif rates this k = Ok (x', k') ->
  m_haplotype_mutated x' = false
  /\ exists r, haplotype_mutate unif rates x' k' = Ok r.
Proof.
  intros H. apply haplotype_mutate_ok_inv in H as (Hs & Hl & Hm & hap & -> & Hlen).
  split; [exact Hm|].
  unfold haplotype_mutate. cbn.
  rewrite Hlen, Hl, Nat.eqb_refl, Hm. cbn.
  destruct (mutate_loop_total unif rates hap k') as ([hap2 k2] & E & _); [congruence|].
  rewrite Hlen, Hl in E. rewrite <- Hl, <- Hlen in E at 1.
  rewrite <- Hl, <- Hlen. rewrite E. cbn. eauto.
Qed.

Lemma haplotype_mutate_twice_witness :
  m_haplotype_mutated (carrier [-1]) = false
  /\ exists r, haplotype_mutate (fun _ => 0%Q) [1%Q] (carrier [-1]) 2 = Ok r.
Proof.
  apply (haplotype_mutate_twice (fun _ => 0%Q) [1%Q] (carrier [0]) 0 (carrier [-1]) 2).
  reflexivity.
Defined.

(** On the haplotype [0] with rate 1 and draws that always step down, two
    calls in a row step twice. *)
Example haplotype_mutated_twice_example :
  haplotype_mutate (fun _ => 0%Q) [1%Q] (carrier [0]) 0 = Ok (carrier [-1], 2%nat)
  /\ haplotype_mutate (fun _ => 0%Q) [1%Q] (carrier [-1]) 2 = Ok (carrier [-2], 4%nat).
Proof. split; reflexivity. Qed.

Lemma draw_mother_allele_single (u c0 : Q) : draw_mother_allele u [c0] = Ok 0.
Proof.
  unfold draw_mother_allele. change (vec_at [c0] 0) with (Ok c0). cbn.
  now destruct (Qltb c0 u).
Qed.

(** Claim C10, as the code has it. For an individual with at least one
    child whose two alleles select rows of length 1 (allele count 1),
    [pass_autosomal_to_children] throws "max must be >= 1", for every
    mutation rate and every draw. *)
Theorem autosomal_single_allele_throws unif fuel recursive cumdists rate this h k
    x child others g0 g1 rest row0 row1 :
  h !! this = Some x ->
  m_children x = child :: others ->
  m_haplotype x = g0 :: g1 :: rest ->
  vec_at cumdists g0 = Ok row0 -> length row0 = 1%nat ->
  vec_at cumdists g1 = Ok row1 -> length row1 = 1%nat ->
  pass_autosomal_to_children unif (S fuel) recursive cumdists rate this (h, k)
    = Throw msg_max.
Proof.
  intros Hx Hc Hh Hr0 Hl0 Hr1 Hl1.
  cbn -[autosomal_child]. unfold deref. rewrite Hx. cbn -[autosomal_child].
  rewrite Hc. cbn -[autosomal_child].
  assert (E : autosomal_child unif cumdists rate this child (h, k) = Throw msg_max).
  { unfold autosomal_child, deref. rewrite Hx. cbn -[vec_at]. rewrite Hh.
    change (vec_at (g0 :: g1 :: rest) 0) with (Ok g0).
    change (vec_at (g0 :: g1 :: rest) 1) with (Ok g1).
    destruct (Qltb (unif k) half); cbn -[vec_at].
    - rewrite Hr0. destruct row0 as [|c0 [|]]; try discriminate.
      cbn [obind]. rewrite draw_mother_allele_single. reflexivity.
    - rewrite Hr1. destruct row1 as [|c0 [|]]; try discriminate.
      cbn [obind]. rewrite draw_mother_allele_single. reflexivity. }
  rewrite E. reflexivity.
Qed.

Lemma autosomal_single_allele_throws_witness :
  pass_autosomal_to_children (fun _ => 0%Q) 1 true [[1%Q]] 0%Q 1%positive
    (<[ 1%positive := with_children [2%positive] childless ]>
       {[ 2%positive := new_Individual 2 0 ]}, 0%nat)
  = Throw msg_max.
Proof.
  eapply (autosomal_single_allele_throws (fun _ => 0%Q) 0 true [[1%Q]] 0%Q 1%positive
            _ 0%nat (with_children [2%positive] childless) 2%positive [] 0 0 []
            [1%Q] [1%Q]); reflexivity.
Defined.

(** Claim C10 fails as stated: with a single allele, the propagation from
    an individual without children returns normally. *)
Lemma autosomal_childless_returns :
  pass_autosomal_to_children (fun _ => 0%Q) 1 true [[1%Q]] 0%Q 1%positive
    (childless_heap, 0%nat) = Ok (childless_heap, 0%nat).
Proof. reflexivity. Qed.


(** ** The genealogy samplers *)

(** *** Linking a child to its father *)

Lemma link_lookup (h : heap) (c f : addr) (x fx : Individual) :
  h !! c = Some x -> h !! f = Some fx -> c <> f ->
  exists h1 h', set_father c (Some f) h = Ok h1 /\ add_child f c h1 = Ok h'
    /\ h' !! c = Some (with_father (Some f) x)
    /\ h' !! f = Some (with_children (m_children fx ++ [c]) fx)
    /\ forall a, a <> c -> a <> f -> h' !! a = h !! a.
Proof.
  intros Hc Hf Hne. unfold set_father, add_child, deref. rewrite Hc. cbn.
  eexists. eexists. split; [reflexivity|].
  rewrite lookup_insert_ne by done. rewrite Hf. cbn.
  rewrite lookup_insert_ne by done. rewrite lookup_insert_eq. cbn.
  split; [reflexivity|]. repeat split.
  - now rewrite lookup_insert_eq.
  - rewrite lookup_insert_ne by done. now rewrite lookup_insert_eq.
  - intros a Hac Haf. now rewrite !lookup_insert_ne by done.
Qed.

Lemma linked_link (h h' : heap) (c f : addr) (x fx : Individual) :
  linked h ->
  h !! c = Some x -> h !! f = Some fx ->
  m_generation fx = m_generation x + 1 ->
  h' !! c = Some (with_father (Some f) x) ->
  h' !! f = Some (with_children (m_children fx ++ [c]) fx) ->
  (forall a, a <> c -> a <> f -> h' !! a = h !! a) ->
  linked h'.
Proof.
  intros Hl Hc Hf Hg Hc' Hf' Ho a y fa Ha Hfa.
  assert (Hcf : c <> f) by (intros ->; rewrite Hc in Hf; injection Hf as ->; lia).
  destruct (decide (a = c)) as [->|Hac].
  - rewrite Hc' in Ha. injection Ha as <-. cbn in Hfa. injection Hfa as <-.
    eexists. split; [exact Hf'|]. cbn. split; [exact Hg|].
    apply elem_of_app. right. now apply list_elem_of_singleton.
  - assert (Hy : h !! a = Some (if decide (a = f) then fx else y)
                 /\ m_father (if decide (a = f) then fx else y) = Some fa).
    { destruct (decide (a = f)) as [->|Haf].
      - rewrite Hf' in Ha. injection Ha as <-. now cbn in Hfa.
      - rewrite Ho in Ha by done. easy. }
    destruct Hy as [Hy Hyf].
    destruct (Hl _ _ _ Hy Hyf) as (z & Hz & Hzg & Hzc).
    assert (Hgy : m_generation (if decide (a = f) then fx else y) = m_generation y).
    { destruct (decide (a = f)) as [->|]; [|done].
      rewrite Hf' in Ha. now injection Ha as <-. }
    rewrite Hgy in Hzg.
    destruct (decide (fa = c)) as [->|Hfc].
    + rewrite Hc in Hz. injection Hz as <-.
      eexists. split; [exact Hc'|]. now cbn.
    + destruct (decide (fa = f)) as [->|Hff].
      * rewrite Hf in Hz. injection Hz as <-.
        eexists. split; [exact Hf'|]. cbn. split; [done|].
        apply elem_of_app. now left.
      * eexists. rewrite Ho by done. eauto.
Qed.

Lemma linked_alloc (h : heap) (a : addr) (pid g : Z) :
  linked h -> h !! a = None -> linked (<[a := new_Individual pid g]> h).
Proof.
  intros Hl Hnone b y fa Hb Hfa.
  destruct (decide (b = a)) as [->|Hba].
  - rewrite lookup_insert_eq in Hb. injection Hb as <-. discriminate.
  - rewrite lookup_insert_ne in Hb by done.
    destruct (Hl _ _ _ Hb Hfa) as (z & Hz & Hrest).
    exists z. split; [|exact Hrest].
    rewrite lookup_insert_ne; [done|]. intros ->. congruence.
Qed.

Lemma fresh_heap (h : heap) : h !! fresh (dom h) = None.
Proof. apply not_elem_of_dom. apply is_fresh. Qed.

Lemma vec_at_Ok {A} (v : list A) (i : Z) (x : A) :
  vec_at v i = Ok x -> 0 <= i /\ v !! Z.to_nat i = Some x.
Proof.
  unfold vec_at, vec_nth. destruct i; try discriminate;
    (destruct (v !! _) eqn:E; [|discriminate]); intros [= ->]; split; (lia || done).
Qed.

Lemma occupied_insert (slots : list (option addr)) (i : nat) (a : addr) :
  slots !! i = Some None ->
  occupied (<[i := Some a]> slots) = occupied slots + 1.
Proof.
  revert i. induction slots as [|o slots IH]; intros i Hi; [done|].
  destruct i as [|i]; cbn in Hi.
  - injection Hi as ->. cbn. lia.
  - change (<[S i := Some a]> (o :: slots)) with (o :: <[i := Some a]> slots).
    cbn [occupied]. rewrite (IH i Hi). destruct o; lia.
Qed.

Lemma occupied_nonneg (slots : list (option addr)) : 0 <= occupied slots.
Proof. induction slots as [|[?|] slots IH]; cbn; lia. Qed.

Lemma occupied_positive (slots : list (option addr)) (a : addr) :
  Some a ∈ slots -> 1 <= occupied slots.
Proof.
  induction slots as [|o slots IH]; intros H; [by apply not_elem_of_nil in H|].
  apply elem_of_cons in H as [<-|H].
  - cbn. pose proof (occupied_nonneg slots). lia.
  - specialize (IH H). destruct o; cbn; lia.
Qed.

Lemma pick_father_picking sample_father g children child todo fathers founders s
    fathers' founders' s' :
  picking g children (child :: todo) fathers founders (individuals s) ->
  pick_father sample_father g (fathers, founders, s) child = Ok (fathers', founders', s') ->
  picking g children todo fathers' founders' (individuals s').
Proof.
  intros Hp. unfold pick_father. destruct child as [c|].
  2:{ intros [= <- <- <-]. destruct Hp. constructor; try done.
      - intros c Hc. apply pk_todo0. now right.
      - intros a x Ha Hg Hf. specialize (pk_orphans0 a x Ha Hg Hf).
        apply elem_of_cons in pk_orphans0 as [[=]|]; done. }
  destruct (sample_father g (rng s)) as [father_i k'].
  destruct (vec_at fathers father_i) as [slot| | |] eqn:Hslot; cbn; try discriminate.
  apply vec_at_Ok in Hslot as [Hi Hslot].
  destruct (pk_children _ _ _ _ _ _ Hp c) as (x & Hc & Hgx);
    [apply (pk_todo _ _ _ _ _ _ Hp); now left|].
  destruct slot as [f|].
  - (* the father exists already *)
    assert (Hfin : Some f ∈ fathers) by (eapply list_elem_of_lookup_2; eauto).
    destruct (pk_slots _ _ _ _ _ _ Hp f Hfin) as (fx & Hf & Hgf & Hff).
    assert (Hcf : c <> f) by (intros ->; rewrite Hc in Hf; injection Hf as ->; lia).
    cbn. destruct (link_lookup _ c f x fx Hc Hf Hcf) as (h1 & h' & -> & E & Hc' & Hf' & Ho).
    cbn. rewrite E. cbn. intros [= <- <- <-]. cbn. destruct Hp. constructor.
    + apply (linked_link (individuals s) h' c f x fx); auto; lia.
    + intros a y Ha. destruct (decide (a = c)) as [->|]; [|destruct (decide (a = f)) as [->|]].
      * rewrite Hc' in Ha. injection Ha as <-. cbn. lia.
      * rewrite Hf' in Ha. injection Ha as <-. cbn. lia.
      * rewrite Ho in Ha by done. eauto.
    + intros a y Ha Hg. destruct (decide (a = c)) as [->|]; [|destruct (decide (a = f)) as [->|]].
      * rewrite Hc' in Ha. injection Ha as <-. cbn in Hg. lia.
      * done.
      * rewrite Ho in Ha by done. eauto.
    + intros a Ha. destruct (pk_slots0 a Ha) as (y & Hy & Hgy & Hfy).
      destruct (decide (a = c)) as [->|]; [|destruct (decide (a = f)) as [->|]].
      * rewrite Hc in Hy. injection Hy as <-. lia.
      * rewrite Hf in Hy. injection Hy as <-. eexists. split; [exact Hf'|]. now cbn.
      * exists y. now rewrite Ho by done.
    + done.
    + done.
    + intros c' Hc'in. apply pk_todo0. now right.
    + intros c' Hc'in. destruct (pk_children0 c' Hc'in) as (y & Hy & Hgy).
      destruct (decide (c' = c)) as [->|]; [|destruct (decide (c' = f)) as [->|]].
      * rewrite Hc in Hy. injection Hy as <-. eexists. split; [exact Hc'|]. now cbn.
      * rewrite Hf in Hy. injection Hy as <-. lia.
      * exists y. now rewrite Ho by done.
    + intros a y Ha Hg Hfa.
      destruct (decide (a = c)) as [->|]; [|destruct (decide (a = f)) as [->|]].
      * rewrite Hc' in Ha. injection Ha as <-. discriminate.
      * rewrite Hf' in Ha. injection Ha as <-. cbn in Hg. lia.
      * rewrite Ho in Ha by done. specialize (pk_orphans0 a y Ha Hg Hfa).
        apply elem_of_cons in pk_orphans0 as [[=]|]; done.
  - (* the father is created *)
    cbn. set (f := fresh (dom (individuals s))).
    set (fx := new_Individual (individual_id s) g).
    assert (Hfnone : individuals s !! f = None) by apply fresh_heap.
    assert (Hcf : c <> f) by (intros E; rewrite E in Hc; congruence).
    assert (Hc1 : <[f := fx]> (individuals s) !! c = Some x)
      by now rewrite lookup_insert_ne.
    assert (Hf1 : <[f := fx]> (individuals s) !! f = Some fx)
      by now rewrite lookup_insert_eq.
    destruct (link_lookup _ c f x fx Hc1 Hf1 Hcf) as (h1 & h' & E1 & E & Hc' & Hf' & Ho).
    fold f fx. rewrite E1. cbn. rewrite E. cbn. intros [= <- <- <-]. cbn.
    assert (Hold : forall a, a <> c -> a <> f -> h' !! a = individuals s !! a).
    { intros a Hac Haf. rewrite Ho by done. now rewrite lookup_insert_ne. }
    assert (Hlen : (Z.to_nat father_i < length fathers)%nat)
      by (eapply lookup_lt_Some; eauto).
    assert (Hnotin : Some f ∉ fathers).
    { intros Hin. destruct (pk_slots _ _ _ _ _ _ Hp f Hin) as (y & Hy & _). congruence. }
    destruct Hp. constructor.
    + apply (linked_link (<[f := fx]> (individuals s)) h' c f x fx); auto.
      * now apply linked_alloc.
      * cbn. lia.
    + intros a y Ha. destruct (decide (a = c)) as [->|]; [|destruct (decide (a = f)) as [->|]].
      * rewrite Hc' in Ha. injection Ha as <-. cbn. lia.
      * rewrite Hf' in Ha. injection Ha as <-. cbn. lia.
      * rewrite Hold in Ha by done. eauto.
    + intros a y Ha Hg. destruct (decide (a = c)) as [->|]; [|destruct (decide (a = f)) as [->|]].
      * rewrite Hc' in Ha. injection Ha as <-. cbn in Hg. lia.
      * eapply list_elem_of_lookup_2. now apply list_lookup_insert_eq.
      * rewrite Hold in Ha by done. specialize (pk_fathers0 a y Ha Hg).
        apply list_elem_of_lookup in pk_fathers0 as [j Hj].
        eapply list_elem_of_lookup_2 with (i := j). rewrite list_lookup_insert_ne; [done|].
        intros <-. congruence.
    + intros a Ha. apply list_elem_of_lookup in Ha as [j Hj].
      destruct (decide (j = Z.to_nat father_i)) as [->|Hj'].
      * rewrite list_lookup_insert_eq in Hj by done. injection Hj as <-.
        eexists. split; [exact Hf'|]. now cbn.
      * rewrite list_lookup_insert_ne in Hj by done.
        destruct (pk_slots0 a) as (y & Hy & Hgy & Hfy);
          [eapply list_elem_of_lookup_2; eauto|].
        destruct (decide (a = c)) as [->|]; [|destruct (decide (a = f)) as [->|]].
        -- rewrite Hc in Hy. injection Hy as <-. lia.
        -- congruence.
        -- exists y. now rewrite Hold by done.
    + intros i j a Hia Hja.
      destruct (decide (i = Z.to_nat father_i)) as [->|Hi'];
        destruct (decide (j = Z.to_nat father_i)) as [->|Hj']; [done| | |].
      * rewrite list_lookup_insert_eq in Hia by done. injection Hia as <-.
        rewrite list_lookup_insert_ne in Hja by done.
        exfalso. apply Hnotin. eapply list_elem_of_lookup_2; eauto.
      * rewrite list_lookup_insert_eq in Hja by done. injection Hja as <-.
        rewrite list_lookup_insert_ne in Hia by done.
        exfalso. apply Hnotin. eapply list_elem_of_lookup_2; eauto.
      * rewrite list_lookup_insert_ne in Hia, Hja by done. eauto.
    + rewrite occupied_insert by done. lia.
    + intros c' Hc'in. apply pk_todo0. now right.
    + intros c' Hc'in. destruct (pk_children0 c' Hc'in) as (y & Hy & Hgy).
      destruct (decide (c' = c)) as [->|]; [|destruct (decide (c' = f)) as [->|]].
      * rewrite Hc in Hy. injection Hy as <-. eexists. split; [exact Hc'|]. now cbn.
      * congruence.
      * exists y. now rewrite Hold by done.
    + intros a y Ha Hg Hfa.
      destruct (decide (a = c)) as [->|]; [|destruct (decide (a = f)) as [->|]].
      * rewrite Hc' in Ha. injection Ha as <-. discriminate.
      * rewrite Hf' in Ha. injection Ha as <-. cbn in Hg. lia.
      * rewrite Hold in Ha by done. specialize (pk_orphans0 a y Ha Hg Hfa).
        apply elem_of_cons in pk_orphans0 as [[=]|]; done.
Qed.

Lemma children_loop_picking sample_father g children todo :
  forall fathers founders s fathers' founders' s',
  picking g children todo fathers founders (individuals s) ->
  ofold (pick_father sample_father g) todo (fathers, founders, s)
    = Ok (fathers', founders', s') ->
  picking g children [] fathers' founders' (individuals s').
Proof.
  induction todo as [|child todo IH]; intros fathers founders s fathers' founders' s' Hp.
  - now intros [= <- <- <-].
  - cbn [ofold]. destruct (pick_father sample_father g (fathers, founders, s) child)
      as [[[f1 n1] s1]| | |] eqn:E; cbn [obind]; try discriminate.
    intros H. eapply IH; [|exact H]. eapply pick_father_picking; eauto.
Qed.

Lemma occupied_replicate (n : nat) : occupied (replicate n None) = 0.
Proof. induction n; cbn; lia. Qed.

Lemma occupied_witness (slots : list (option addr)) :
  1 <= occupied slots -> exists a, Some a ∈ slots.
Proof.
  induction slots as [|[a|] slots IH]; cbn; intros H.
  - lia.
  - exists a. now left.
  - destruct (IH H) as [a Ha]. exists a. now right.
Qed.

Lemma occupied_one (slots : list (option addr)) (a b : addr) :
  occupied slots = 1 -> Some a ∈ slots -> Some b ∈ slots ->
  (forall i j c, slots !! i = Some (Some c) -> slots !! j = Some (Some c) -> i = j) ->
  a = b.
Proof.
  induction slots as [|o slots IH]; intros Hocc Ha Hb Hd;
    [by apply not_elem_of_nil in Ha|].
  destruct o as [c|]; cbn in Hocc.
  - assert (Hempty : forall d, Some d ∉ slots).
    { intros d Hd'. pose proof (occupied_positive _ _ Hd'). lia. }
    apply elem_of_cons in Ha as [[= ->]|Ha]; [|by apply Hempty in Ha].
    apply elem_of_cons in Hb as [[= ->]|Hb]; [done|by apply Hempty in Hb].
  - apply elem_of_cons in Ha as [[=]|Ha]. apply elem_of_cons in Hb as [[=]|Hb].
    apply IH; auto. intros i j c Hi Hj.
    specialize (Hd (S i) (S j) c Hi Hj). lia.
Qed.

Lemma generation_start g children founders h n :
  generation_inv g children founders h ->
  picking g children children (replicate n None) 0 h.
Proof.
  intros []. constructor; auto.
  - intros a x Ha. specialize (gi_bound0 a x Ha). lia.
  - intros a x Ha Hg. specialize (gi_bound0 a x Ha). lia.
  - intros a Ha. apply elem_of_replicate in Ha as [[=] _].
  - intros i j a Hi. apply lookup_replicate in Hi as [[=] _].
  - now rewrite occupied_replicate.
  - intros c Hc. destruct (gi_slots0 c Hc) as (x & ? & ? & ?). eauto.
  - intros a x Ha Hg Hf. apply (gi_members0 a x Ha).
    destruct (Z_lt_le_dec (m_generation x) (g - 1)) as [Hlt|]; [|lia].
    now destruct (gi_orphans0 a x Ha Hlt).
Qed.

Lemma generation_finish g children founders h fathers founders' h' :
  generation_inv g children founders h ->
  picking g children [] fathers founders' h' ->
  generation_inv (g + 1) fathers founders' h'.
Proof.
  intros Hg []. constructor; rewrite ?Z.add_simpl_r; auto.
  - destruct (occupied_witness children) as [c Hc].
    { rewrite <- (gi_count _ _ _ _ Hg). apply (gi_positive _ _ _ _ Hg). }
    destruct (pk_children0 c Hc) as (x & Hx & Hgx).
    destruct (m_father x) as [f|] eqn:Hf.
    + destruct (pk_linked0 c x f Hx Hf) as (fx & Hfx & Hgf & _).
      rewrite pk_count0. apply (occupied_positive _ f).
      apply (pk_fathers0 f fx Hfx). lia.
    + assert (Hin : Some c ∈ []) by (apply (pk_orphans0 c x Hx); [lia|done]).
      by apply not_elem_of_nil in Hin.
  - intros a x Ha Hlt Hf.
    assert (Hin : Some a ∈ []) by (apply (pk_orphans0 a x Ha); [lia|done]).
    by apply not_elem_of_nil in Hin.
Qed.

Lemma generations_loop_inv sample_father check_abort M fuel fixed generations :
  forall g founders children s end_generation res,
  generation_inv g children founders (individuals s) ->
  generations_loop sample_father check_abort M fuel fixed generations g founders
    children s end_generation = Ok res ->
  generation_inv (res_generations res) (res_last_generation res) (res_founders res)
    (individuals (res_population res))
  /\ (fixed = false -> res_founders res <= 1).
Proof.
  induction fuel as [|fuel IH]; intros g founders children s end_generation res Hinv;
    cbn [generations_loop].
  - destruct (_ || _) eqn:Hcond; [discriminate|].
    intros [= <-]. cbn. split; [done|]. intros ->. cbn in Hcond. lia.
  - destruct (_ || _) eqn:Hcond.
    + destruct (ofold _ _ _) as [[[fathers nfl] s1]| | |] eqn:E; cbn [obind];
        try discriminate.
      destruct (check_abort g); [discriminate|].
      apply IH. eapply generation_finish; [exact Hinv|].
      eapply children_loop_picking; [|exact E]. eapply generation_start; eauto.
    + intros [= <-]. cbn. split; [done|]. intros ->. cbn in Hcond. lia.
Qed.


Lemma first_generation_spec (n : nat) :
  forall s l s',
  first_generation n s = (l, s') ->
  (forall a x, individuals s !! a = Some x -> m_generation x = 0 /\ m_father x = None) ->
  (forall a x, individuals s' !! a = Some x -> m_generation x = 0 /\ m_father x = None)
  /\ (forall a, is_Some (individuals s' !! a) <-> is_Some (individuals s !! a) \/ a ∈ l)
  /\ NoDup l
  /\ (forall a, a ∈ l -> individuals s !! a = None)
  /\ length l = n.
Proof.
  induction n as [|n IH]; intros s l s'; cbn.
  - intros [= <- <-] Hs. refine (conj Hs (conj _ (conj _ (conj _ eq_refl)))).
    + intros a. split; [now left|].
      intros [?|Hin]; [done|by apply not_elem_of_nil in Hin].
    + constructor.
    + intros a Hin. by apply not_elem_of_nil in Hin.
  - destruct (first_generation n _) as [l1 s2] eqn:E. intros [= <- <-] Hs.
    set (a0 := fresh (dom (individuals s))) in *.
    assert (Ha0 : individuals s !! a0 = None) by apply fresh_heap.
    apply IH in E as (H1 & H2 & H3 & H4 & H5).
    2:{ cbn. intros a x Ha. destruct (decide (a = a0)) as [->|].
        - rewrite lookup_insert_eq in Ha. now injection Ha as <-.
        - rewrite lookup_insert_ne in Ha by done. eauto. }
    cbn in H2, H4.
    assert (Hnotin : a0 ∉ l1).
    { intros Hin. specialize (H4 a0 Hin). now rewrite lookup_insert_eq in H4. }
    refine (conj H1 (conj _ (conj _ (conj _ _)))).
    + intros a. split.
      * intros Hs'. apply H2 in Hs' as [Hs'|Hs'].
        -- destruct (decide (a = a0)) as [->|]; [right; now left|].
           rewrite lookup_insert_ne in Hs' by done. now left.
        -- right. now right.
      * intros [Hin|Hin]; apply H2.
        -- left. destruct (decide (a = a0)) as [->|]; [now rewrite lookup_insert_eq|].
           now rewrite lookup_insert_ne.
        -- apply elem_of_cons in Hin as [->|Hin]; [left; now rewrite lookup_insert_eq|].
           now right.
    + now constructor.
    + intros a Hin. apply elem_of_cons in Hin as [->|Hin]; [done|].
      specialize (H4 a Hin). destruct (decide (a = a0)) as [->|]; [done|].
      now rewrite lookup_insert_ne in H4.
    + cbn. now rewrite H5.
Qed.

Lemma occupied_map_Some (l : list addr) : occupied (map Some l) = Z.of_nat (length l).
Proof. induction l as [|a l IH]; cbn [map occupied length]; [done|]. rewrite IH. lia. Qed.

Lemma first_generation_inv (n : nat) l s :
  (1 <= n)%nat ->
  first_generation n (mkSim ∅ ∅ 1 0) = (l, s) ->
  generation_inv 1 (map Some l) (Z.of_nat n) (individuals s).
Proof.
  intros Hn E. apply first_generation_spec in E as (H1 & H2 & H3 & H4 & H5).
  2:{ cbn. intros a x Ha. by rewrite lookup_empty in Ha. }
  cbn in H2. constructor.
  - intros a x f Ha Hf. destruct (H1 a x Ha). congruence.
  - intros a x Ha. destruct (H1 a x Ha). lia.
  - intros a x Ha _. apply list_elem_of_fmap. exists a. split; [done|].
    destruct (proj1 (H2 a)) as [Hin|Hin]; [eauto| |done].
    rewrite lookup_empty in Hin. by destruct Hin.
  - intros a Ha. apply list_elem_of_fmap in Ha as (b & [= <-] & Hb).
    destruct (proj2 (H2 a)) as [x Hx]; [now right|].
    exists x. destruct (H1 a x Hx). repeat split; auto.
  - intros i j a Hi Hj. rewrite list_lookup_fmap in Hi, Hj.
    destruct (l !! i) eqn:Ei; [|discriminate]. destruct (l !! j) eqn:Ej; [|discriminate].
    cbn in Hi, Hj. injection Hi as ->. injection Hj as ->.
    eapply NoDup_lookup; eauto.
  - rewrite occupied_map_Some. now rewrite H5.
  - lia.
  - intros a x Ha Hlt. destruct (H1 a x Ha). lia.
Qed.

Lemma sample_with_inv sample_father check_abort M fuel G res :
  sample_with sample_father check_abort M fuel G = Ok res ->
  generation_inv (res_generations res) (res_last_generation res) (res_founders res)
    (individuals (res_population res))
  /\ (G = -1 -> res_founders res <= 1).
Proof.
  unfold sample_with. destruct (Nat.leb_spec M 1) as [|HM]; [discriminate|].
  destruct (_ || _) eqn:HG; [discriminate|].
  destruct (first_generation M _) as [l s] eqn:E.
  intros H. apply generations_loop_inv in H as [H1 H2].
  - split; [done|]. intros ->. now apply H2.
  - apply first_generation_inv; [lia|done].
Qed.

(** Claim C9. After [sample_geneology] has returned, every individual [x]
    of the population with a father [f] has [f] one generation older and
    is an element of the children of [f]. *)
Theorem sampler_links_father_and_child unif check_abort fuel M G res pid a x f :
  sample_geneology unif check_abort fuel M G = Ok res ->
  lookup_pid (res_population res) pid = Some (a, x) ->
  m_father x = Some f ->
  exists fx, individuals (res_population res) !! f = Some fx
             /\ m_generation fx = m_generation x + 1
             /\ a ∈ m_children fx.
Proof.
  intros Hrun Hlook Hf. apply sample_with_inv in Hrun as [Hinv _].
  unfold lookup_pid in Hlook.
  destruct (population _ !! pid) as [a'|]; [|discriminate].
  destruct (individuals _ !! a') as [x'|] eqn:Hx; [|discriminate].
  injection Hlook as -> ->.
  exact (gi_linked _ _ _ _ Hinv a x f Hx Hf).
Qed.

Lemma sampler_links_father_and_child_witness :
  exists fx, individuals (res_population fixed_run) !! 4%positive = Some fx
             /\ m_generation fx = 0 + 1
             /\ 1%positive ∈ m_children fx.
Proof.
  apply (sampler_links_father_and_child in_turn never_abort 5 3 3 fixed_run 1 1%positive
           (with_father (Some 4%positive) (new_Individual 1 0)) 4%positive);
    vm_compute; reflexivity.
Defined.

(** Claim C7. Whenever [sample_geneology] returns in sentinel mode
    (generations = -1), whatever the draws, the founders count is 1 and the
    last generation holds exactly one individual; its father is null, and
    it is the only individual of its generation and the only one without a
    father. *)
Theorem sentinel_run_ends_with_one_founder unif check_abort fuel M res :
  sample_geneology unif check_abort fuel M (-1) = Ok res ->
  res_founders res = 1
  /\ exists c x,
       Some c ∈ res_last_generation res
       /\ individuals (res_population res) !! c = Some x
       /\ m_generation x = res_generations res - 1
       /\ m_father x = None
       /\ (forall a, Some a ∈ res_last_generation res -> a = c)
       /\ (forall a y, individuals (res_population res) !! a = Some y ->
             m_generation y = res_generations res - 1 \/ m_father y = None -> a = c).
Proof.
  unfold sample_geneology.
  intros Hrun. apply sample_with_inv in Hrun as [Hinv Hle]. specialize (Hle eq_refl).
  destruct Hinv as [_ Hbound Hmembers Hslots Hdistinct Hcount Hpositive Horphans].
  assert (Hone : res_founders res = 1) by lia.
  split; [done|].
  destruct (occupied_witness (res_last_generation res)) as [c Hc]; [lia|].
  destruct (Hslots c Hc) as (x & Hx & Hgx & Hfx).
  assert (Huniq : forall a, Some a ∈ res_last_generation res -> a = c).
  { intros a Ha. apply (occupied_one (res_last_generation res)); auto. lia. }
  exists c, x. repeat split; auto.
  intros a y Hy Hcase. apply Huniq. apply (Hmembers a y Hy).
  destruct Hcase as [|Hfy]; [done|].
  pose proof (Hbound a y Hy).
  destruct (Z_lt_le_dec (m_generation y) (res_generations res - 1)) as [Hlt|]; [|lia].
  now destruct (Horphans a y Hy Hlt).
Qed.

Lemma sentinel_run_ends_with_one_founder_witness :
  res_founders founder_run = 1
  /\ exists c x,
       Some c ∈ res_last_generation founder_run
       /\ individuals (res_population founder_run) !! c = Some x
       /\ m_generation x = res_generations founder_run - 1
       /\ m_father x = None
       /\ (forall a, Some a ∈ res_last_generation founder_run -> a = c)
       /\ (forall a y, individuals (res_population founder_run) !! a = Some y ->
             m_generation y = res_generations founder_run - 1 \/ m_father y = None -> a = c).
Proof.
  apply (sentinel_run_ends_with_one_founder all_zero never_abort 5 3).
  vm_compute. reflexivity.
Defined.

(** The variance sampler runs the same loop: in sentinel mode it ends with
    one founder as well, whatever the gamma and the uniform draws. *)
Lemma variance_sentinel_run_ends_with_one_founder unif rgamma check_abort fuel M
    shape scale res :
  sample_geneology_variance unif rgamma check_abort fuel M (-1) shape scale = Ok res ->
  res_founders res = 1
  /\ exists c x,
       Some c ∈ res_last_generation res
       /\ individuals (res_population res) !! c = Some x
       /\ m_generation x = res_generations res - 1
       /\ m_father x = None
       /\ (forall a, Some a ∈ res_last_generation res -> a = c)
       /\ (forall a y, individuals (res_population res) !! a = Some y ->
             m_generation y = res_generations res - 1 \/ m_father y = None -> a = c).
Proof.
  unfold sample_geneology_variance.
  intros Hrun. apply sample_with_inv in Hrun as [Hinv Hle]. specialize (Hle eq_refl).
  destruct Hinv as [_ Hbound Hmembers Hslots Hdistinct Hcount Hpositive Horphans].
  assert (Hone : res_founders res = 1) by lia.
  split; [done|].
  destruct (occupied_witness (res_last_generation res)) as [c Hc]; [lia|].
  destruct (Hslots c Hc) as (x & Hx & Hgx & Hfx).
  assert (Huniq : forall a, Some a ∈ res_last_generation res -> a = c).
  { intros a Ha. apply (occupied_one (res_last_generation res)); auto. lia. }
  exists c, x. repeat split; auto.
  intros a y Hy Hcase. apply Huniq. apply (Hmembers a y Hy).
  destruct Hcase as [|Hfy]; [done|].
  pose proof (Hbound a y Hy).
  destruct (Z_lt_le_dec (m_generation y) (res_generations res - 1)) as [Hlt|]; [|lia].
  now destruct (Horphans a y Hy Hlt).
Qed.

Example variance_run_founders :
  sample_geneology_variance all_zero rising never_abort 5 3 (-1) 1 1 = Ok variance_run
  /\ res_founders variance_run = 1 /\ res_generations variance_run = 2.
Proof. vm_compute. auto. Qed.

(** *** A run over a fixed number of generations returns *)

Lemma vec_at_in_range {A} (v : list A) (i : Z) :
  0 <= i < Z.of_nat (length v) -> exists x, vec_at v i = Ok x.
Proof.
  intros Hi. unfold vec_at, vec_nth.
  destruct (lookup_lt_is_Some_2 v (Z.to_nat i)) as [x Hx]; [lia|].
  destruct i; try lia; rewrite Hx; eauto.
Qed.

Lemma pick_father_returns sample_father M g children child todo fathers founders s :
  (forall g k, 0 <= fst (sample_father g k) < Z.of_nat M) ->
  picking g children (child :: todo) fathers founders (individuals s) ->
  length fathers = M ->
  exists fathers' founders' s',
    pick_father sample_father g (fathers, founders, s) child = Ok (fathers', founders', s')
    /\ length fathers' = M.
Proof.
  intros Hrange Hp Hlen. unfold pick_father. destruct child as [c|]; [|eauto 6].
  pose proof (Hrange g (rng s)) as Hr.
  destruct (sample_father g (rng s)) as [father_i k']. cbn in Hr.
  destruct (vec_at_in_range fathers father_i) as [slot Hslot]; [lia|].
  rewrite Hslot. cbn [obind].
  apply vec_at_Ok in Hslot as [_ Hslot].
  destruct (pk_children _ _ _ _ _ _ Hp c) as (x & Hc & Hgx);
    [apply (pk_todo _ _ _ _ _ _ Hp); now left|].
  destruct slot as [f|].
  - assert (Hfin : Some f ∈ fathers) by (eapply list_elem_of_lookup_2; eauto).
    destruct (pk_slots _ _ _ _ _ _ Hp f Hfin) as (fx & Hf & Hgf & Hff).
    assert (Hcf : c <> f) by (intros ->; rewrite Hc in Hf; injection Hf as ->; lia).
    cbn. destruct (link_lookup _ c f x fx Hc Hf Hcf) as (h1 & h' & -> & E & _).
    cbn. rewrite E. cbn. eauto 6.
  - cbn. set (f := fresh (dom (individuals s))).
    set (fx := new_Individual (individual_id s) g).
    assert (Hfnone : individuals s !! f = None) by apply fresh_heap.
    assert (Hcf : c <> f) by (intros E; rewrite E in Hc; congruence).
    assert (Hc1 : <[f := fx]> (individuals s) !! c = Some x)
      by now rewrite lookup_insert_ne.
    assert (Hf1 : <[f := fx]> (individuals s) !! f = Some fx)
      by now rewrite lookup_insert_eq.
    destruct (link_lookup _ c f x fx Hc1 Hf1 Hcf) as (h1 & h' & E1 & E & _).
    rewrite E1. cbn. rewrite E. cbn.
    eexists _, _, _. split; [reflexivity|]. now rewrite length_insert.
Qed.

Lemma children_loop_returns sample_father M g children todo :
  (forall g k, 0 <= fst (sample_father g k) < Z.of_nat M) ->
  forall fathers founders s,
  picking g children todo fathers founders (individuals s) ->
  length fathers = M ->
  exists fathers' founders' s',
    ofold (pick_father sample_father g) todo (fathers, founders, s)
      = Ok (fathers', founders', s').
Proof.
  intros Hrange. induction todo as [|child todo IH]; intros fathers founders s Hp Hlen.
  - cbn. eauto.
  - cbn [ofold].
    destruct (pick_father_returns _ _ _ _ _ _ _ _ _ Hrange Hp Hlen)
      as (f1 & n1 & s1 & E & Hlen1).
    rewrite E. cbn [obind]. apply IH; [|done].
    eapply pick_father_picking; eauto.
Qed.

Lemma generations_loop_returns sample_father M generations fuel :
  (forall g k, 0 <= fst (sample_father g k) < Z.of_nat M) ->
  forall g founders children s end_generation,
  generation_inv g children founders (individuals s) ->
  generations - g <= Z.of_nat fuel ->
  exists res,
    generations_loop sample_father never_abort M fuel true generations g founders
      children s end_generation = Ok res
    /\ (g <= generations -> res_generations res = generations).
Proof.
  intros Hrange. induction fuel as [|fuel IH];
    intros g founders children s end_generation Hinv Hfuel; cbn [generations_loop].
  - destruct (Z.ltb_spec g generations); [lia|]. cbn. eexists. split; [reflexivity|].
    cbn. lia.
  - destruct (Z.ltb_spec g generations) as [Hlt|Hge]; cbn [andb orb negb].
    + destruct (children_loop_returns sample_father M g children children Hrange
                  (replicate M None) 0 s) as (fathers & nfl & s1 & E).
      { eapply generation_start; eauto. }
      { apply length_replicate. }
      rewrite E. cbn [obind]. unfold never_abort at 1.
      destruct (IH (g + 1) nfl fathers s1 end_generation) as (res & Hres & Hg).
      * eapply generation_finish; [exact Hinv|].
        eapply children_loop_picking; [|exact E]. eapply generation_start; eauto.
      * lia.
      * exists res. split; [exact Hres|]. intros _. apply Hg. lia.
    + eexists. split; [reflexivity|]. cbn. lia.
Qed.

Lemma Qtrunc_range (u : Q) (M : nat) :
  (0 <= u)%Q -> (u < 1)%Q -> (1 <= M)%nat ->
  0 <= Qtrunc (u * inject_Z (Z.of_nat M)) < Z.of_nat M.
Proof.
  intros H0 H1 HM. set (q := (u * inject_Z (Z.of_nat M))%Q).
  assert (Hq0 : (0 <= q)%Q).
  { unfold q. apply Qmult_le_0_compat; [done|]. change 0%Q with (inject_Z 0).
    rewrite <- Zle_Qle. lia. }
  assert (Hq1 : (q < inject_Z (Z.of_nat M))%Q).
  { unfold q. rewrite <- (Qmult_1_l (inject_Z (Z.of_nat M))) at 2.
    apply Qmult_lt_r; [|done]. change 0%Q with (inject_Z 0). rewrite <- Zlt_Qlt. lia. }
  assert (Hfloor : Qtrunc q = Qfloor q).
  { unfold Qtrunc, Qfloor. destruct q as [n d]. cbn [Qnum Qden].
    apply Z.quot_div_nonneg; [|lia].
    unfold Qle in Hq0. cbn in Hq0. lia. }
  rewrite Hfloor. split.
  - change 0 with (Qfloor 0). now apply Qfloor_resp_le.
  - rewrite Zlt_Qlt. eapply Qle_lt_trans; [apply Qfloor_le|done].
Qed.

(** With draws in the unit interval, no cancellation and a fuel of at least
    [G], the sampler over [G] generations returns, and reports [G]
    generations. *)
Theorem sample_geneology_fixed_returns unif fuel M G :
  unit_interval unif -> (2 <= M)%nat -> 0 < G -> G <= Z.of_nat fuel ->
  exists res, sample_geneology unif never_abort fuel M G = Ok res
              /\ res_generations res = G.
Proof.
  intros Hu HM HG Hfuel. unfold sample_geneology, sample_with.
  destruct (Nat.leb_spec M 1); [lia|].
  destruct (Z.ltb_spec G (-1)); [lia|]. destruct (Z.eqb_spec G 0); [lia|].
  destruct (Z.eqb_spec G (-1)); [lia|]. cbn [orb negb].
  destruct (first_generation M _) as [l s] eqn:E.
  destruct (generations_loop_returns (fun _ k => sample_person unif M k) M G fuel)
    with (g := 1) (founders := Z.of_nat M) (children := map Some l) (s := s)
         (end_generation := l) as (res & Hres & Hg).
  - intros g k. cbn. destruct (Hu k). apply Qtrunc_range; auto. lia.
  - apply first_generation_inv; [lia|done].
  - lia.
  - exists res. split; [exact Hres|]. apply Hg. lia.
Qed.


(** ** Pedigree analytics *)

Lemma forallb_elem_of {A} (f : A -> bool) (l : list A) (x : A) :
  forallb f l = true -> x ∈ l -> f x = true.
Proof.
  intros H Hin. apply list_elem_of_In in Hin.
  now apply (proj1 (forallb_forall f l) H).
Qed.

Lemma wf_population_spec (h : heap) (peds : pedigrees) :
  wf_population h peds = true -> wf h peds.
Proof.
  unfold wf_population. intros H. apply andb_prop in H as [Hall Hpid].
  assert (Hind : forall a x, h !! a = Some x ->
            father_ok h a x = true /\ children_ok h a x = true /\ pedigree_ok h peds x = true).
  { intros a x Ha. apply elem_of_map_to_list in Ha.
    pose proof (forallb_elem_of _ _ _ Hall Ha) as E. cbn in E.
    apply andb_prop in E as [E E3]. apply andb_prop in E as [E1 E2]. auto. }
  constructor.
  - intros a x f Ha Hf. destruct (Hind a x Ha) as (E & _ & _).
    unfold father_ok in E. rewrite Hf in E. destruct (h !! f) as [fx|]; [|discriminate].
    apply andb_prop in E as [E E3]. apply andb_prop in E as [E1 E2].
    apply bool_decide_eq_true in E1. exists fx. repeat split; auto; lia.
  - intros a x c Ha Hc. destruct (Hind a x Ha) as (_ & E & _).
    unfold children_ok in E. apply andb_prop in E as [E _].
    pose proof (forallb_elem_of _ _ _ E Hc) as E'. cbn in E'.
    destruct (h !! c) as [cx|]; [|discriminate].
    apply bool_decide_eq_true in E'. eauto.
  - intros a x Ha. destruct (Hind a x Ha) as (_ & E & _).
    unfold children_ok in E. apply andb_prop in E as [_ E].
    now apply bool_decide_eq_true in E.
  - intros a b x y Ha Hb Hxy. apply bool_decide_eq_true in Hpid.
    apply elem_of_map_to_list in Ha, Hb.
    apply list_elem_of_lookup in Ha as [i Hi]. apply list_elem_of_lookup in Hb as [j Hj].
    assert (i = j).
    { eapply NoDup_lookup; [exact Hpid| |].
      - rewrite list_lookup_fmap, Hi. reflexivity.
      - rewrite list_lookup_fmap, Hj. cbn. now rewrite Hxy. }
    subst j. rewrite Hi in Hj. now injection Hj.
  - intros a x Ha Hset. destruct (Hind a x Ha) as (_ & _ & E).
    unfold pedigree_ok in E. rewrite Hset in E. unfold get_pedigree.
    destruct (m_pedigree x) as [p|]; [|discriminate].
    destruct (peds !! p) as [ped|]; [|discriminate].
    apply andb_prop in E as [E1 E2]. exists ped. split; [done|]. split.
    + intros b Hb. pose proof (forallb_elem_of _ _ _ E1 Hb) as E'. cbn in E'.
      now apply bool_decide_eq_true in E'.
    + intros b y Hb Hid. apply elem_of_map_to_list in Hb.
      pose proof (forallb_elem_of _ _ _ E2 Hb) as E'. cbn in E'.
      rewrite Hid, Z.eqb_refl in E'. now apply bool_decide_eq_true in E'.
Qed.

(** *** Fathers, generations and ancestors *)

Section Tree.
Variables (h : heap) (peds : pedigrees).
Hypothesis W : wf h peds.

Lemma father_of_Some a f :
  father_of h a = Some f ->
  exists x fx, h !! a = Some x /\ m_father x = Some f /\ h !! f = Some fx
               /\ a ∈ m_children fx /\ m_generation fx = m_generation x + 1.
Proof.
  unfold father_of. destruct (h !! a) as [x|] eqn:Ha; [|discriminate]. intros Hf.
  destruct (wf_father _ _ W a x f Ha Hf) as (fx & ? & ? & ? & ?).
  exists x, fx. auto.
Qed.

Lemma father_generation a f :
  father_of h a = Some f -> generation_of h f = generation_of h a + 1.
Proof.
  intros Hf. apply father_of_Some in Hf as (x & fx & Ha & _ & Hfx & _ & Hg).
  unfold generation_of. now rewrite Ha, Hfx.
Qed.

Lemma adj_sym a b : adj h a b -> adj h b a.
Proof. unfold adj. tauto. Qed.

Lemma adj_generation a b :
  adj h a b ->
  generation_of h b = generation_of h a + 1 \/ generation_of h b = generation_of h a - 1.
Proof.
  intros [H|H]; apply father_generation in H; lia.
Qed.

Lemma adj_in_heap a b : adj h a b -> is_Some (h !! a) /\ is_Some (h !! b).
Proof.
  intros [H|H]; apply father_of_Some in H as (x & fx & Ha & _ & Hfx & _); eauto.
Qed.

Lemma anc_S_inner n a :
  anc h (S n) a = match father_of h a with
                  | Some f => anc h n f
                  | None => None
                  end.
Proof.
  induction n as [|n IH].
  - cbn. now destruct (father_of h a).
  - change (anc h (S (S n)) a) with
      (match anc h (S n) a with Some b => father_of h b | None => None end).
    rewrite IH. now destruct (father_of h a).
Qed.

Lemma anc_add n m a :
  anc h (n + m) a = match anc h m a with
                    | Some b => anc h n b
                    | None => None
                    end.
Proof.
  induction n as [|n IH].
  - cbn. now destruct (anc h m a).
  - cbn [Nat.add anc]. rewrite IH. now destruct (anc h m a).
Qed.

Lemma anc_generation n a b :
  anc h n a = Some b -> generation_of h b = generation_of h a + Z.of_nat n.
Proof.
  revert b. induction n as [|n IH]; intros b.
  - cbn. intros [= ->]. lia.
  - cbn [anc]. destruct (anc h n a) as [c|]; [|discriminate]. intros Hf.
    apply father_generation in Hf. specialize (IH c eq_refl). lia.
Qed.

(** A walk first climbs [i] fathers from [x] to a top [t] and then
    descends [j] children to [z]; the last step up and the first step
    down use different children of [t]. *)
Lemma branch_shape p x z n :
  branch h p x z n ->
  exists i j t,
    n = (i + j)%nat
    /\ anc h i x = Some t /\ anc h j z = Some t
    /\ (forall i' j', i = S i' -> j = S j' -> anc h i' x <> anc h j' z)
    /\ (forall i', i = S i' -> p <> father_of h x)
    /\ (forall j', i = O -> j = S j' -> p <> anc h j' z).
Proof.
  induction 1 as [p x|p x y z n Hadj Hp Hbr IH].
  - exists O, O, x. repeat split; try done.
  - destruct IH as (i & j & t & -> & Hi & Hj & Hturn & Hup & Hdown).
    destruct Hadj as [Hxy|Hyx].
    + (* a step up *)
      exists (S i), j, t.
      refine (conj eq_refl (conj _ (conj Hj (conj _ (conj _ _))))).
      * rewrite anc_S_inner, Hxy. exact Hi.
      * intros i' j' [= <-] ->. destruct i as [|i0].
        -- cbn. exact (Hdown j' eq_refl eq_refl).
        -- rewrite anc_S_inner, Hxy. exact (Hturn i0 j' eq_refl eq_refl).
      * intros i' _. now rewrite Hxy.
      * intros j' [=].
    + (* a step down *)
      destruct i as [|i0].
      * cbn in Hi. injection Hi as <-.
        exists O, (S j), x.
        refine (conj eq_refl (conj eq_refl (conj _ (conj _ (conj _ _))))).
        -- cbn [anc]. now rewrite Hj.
        -- intros i' j' [=].
        -- intros i' [=].
        -- intros j' _ [= <-]. now rewrite Hj.
      * exfalso. apply (Hup i0 eq_refl). now rewrite Hyx.
Qed.

Lemma father_not_mutual a b :
  father_of h a = Some b -> father_of h b = Some a -> False.
Proof.
  intros H1 H2. apply father_generation in H1, H2. lia.
Qed.

(** A walk never comes back to the individual it left. *)
Lemma branch_leaves x y z n :
  adj h x y -> branch h (Some x) y z n -> z <> x.
Proof.
  intros Hadj Hbr ->.
  apply branch_shape in Hbr as (i & j & t & _ & Hi & Hj & Hturn & Hup & Hdown).
  pose proof (anc_generation _ _ _ Hi) as Gi.
  pose proof (anc_generation _ _ _ Hj) as Gj.
  destruct Hadj as [Hxy|Hyx].
  - pose proof (father_generation _ _ Hxy) as G.
    destruct i as [|i'].
    + destruct j as [|j']; [lia|]. apply (Hdown j' eq_refl eq_refl).
      assert (j' = O) by lia. now subst j'.
    + destruct j as [|j']; [lia|]. apply (Hturn i' j' eq_refl eq_refl).
      assert (j' = S i') by lia. subst j'. now rewrite anc_S_inner, Hxy.
  - pose proof (father_generation _ _ Hyx) as G.
    destruct i as [|i']; [lia|]. apply (Hup i' eq_refl). now rewrite Hyx.
Qed.

Lemma branch_no_loop p x n : branch h p x x (S n) -> False.
Proof.
  inversion 1 as [|? ? y ? ? Hadj _ Hbr]; subst.
  now apply (branch_leaves x y x n Hadj Hbr).
Qed.

Lemma branch_up_down x y1 y2 z n1 n2 :
  father_of h x = Some y1 -> father_of h y2 = Some x ->
  branch h (Some x) y1 z n1 -> branch h (Some x) y2 z n2 -> False.
Proof.
  intros H1 H2 B1 B2.
  apply branch_shape in B1 as (i1 & j1 & t1 & _ & Hi1 & Hj1 & Hturn1 & _ & Hdown1).
  apply branch_shape in B2 as (i2 & j2 & t2 & _ & Hi2 & Hj2 & _ & Hup2 & _).
  destruct i2 as [|i2']; [|apply (Hup2 i2' eq_refl); now rewrite H2].
  cbn in Hi2. injection Hi2 as <-.
  assert (Hx : anc h (S j2) z = Some x) by (cbn [anc]; now rewrite Hj2).
  assert (Hy1 : anc h (S (S j2)) z = Some y1) by (cbn [anc] in *; now rewrite Hx).
  pose proof (anc_generation _ _ _ Hi1) as G1.
  pose proof (anc_generation _ _ _ Hj1) as G2.
  pose proof (anc_generation _ _ _ Hy1) as G3.
  destruct i1 as [|i1'].
  - destruct j1 as [|j1']; [lia|]. apply (Hdown1 j1' eq_refl eq_refl).
    assert (j1' = S j2) by lia. subst j1'. now rewrite Hx.
  - destruct j1 as [|j1']; [lia|]. apply (Hturn1 i1' j1' eq_refl eq_refl).
    assert (j1' = (i1' + S (S j2))%nat) by lia. subst j1'.
    now rewrite anc_add, Hy1.
Qed.

(** Two walks that leave [x] through different neighbours never meet. *)
Lemma branch_disjoint x y1 y2 z n1 n2 :
  adj h x y1 -> adj h x y2 ->
  branch h (Some x) y1 z n1 -> branch h (Some x) y2 z n2 -> y1 = y2.
Proof.
  intros [H1|H1] [H2|H2] B1 B2.
  - congruence.
  - destruct (branch_up_down _ _ _ _ _ _ H1 H2 B1 B2).
  - destruct (branch_up_down _ _ _ _ _ _ H2 H1 B2 B1).
  - apply branch_shape in B1 as (i1 & j1 & t1 & _ & Hi1 & Hj1 & _ & Hup1 & _).
    apply branch_shape in B2 as (i2 & j2 & t2 & _ & Hi2 & Hj2 & _ & Hup2 & _).
    destruct i1 as [|i1']; [|destruct (Hup1 i1' eq_refl); now rewrite H1].
    destruct i2 as [|i2']; [|destruct (Hup2 i2' eq_refl); now rewrite H2].
    cbn in Hi1, Hi2. injection Hi1 as <-. injection Hi2 as <-.
    pose proof (anc_generation _ _ _ Hj1). pose proof (anc_generation _ _ _ Hj2).
    pose proof (father_generation _ _ H1). pose proof (father_generation _ _ H2).
    assert (j1 = j2) by lia. subst. congruence.
Qed.

Lemma build_down j :
  forall z x p,
  anc h j z = Some x ->
  (forall j', j = S j' -> p <> anc h j' z) ->
  branch h p x z j.
Proof.
  induction j as [|j IH]; intros z x p Hj Hp.
  - cbn in Hj. injection Hj as <-. constructor.
  - cbn [anc] in Hj. destruct (anc h j z) as [y|] eqn:Hy; [|discriminate].
    apply (branch_step h p x y z j).
    + now right.
    + rewrite <- Hy. now apply Hp.
    + apply IH; [exact Hy|]. intros j' -> E.
      cbn [anc] in Hy. rewrite <- E in Hy.
      exact (father_not_mutual _ _ Hy Hj).
Qed.

Lemma build_up i :
  forall x t z j p,
  anc h i x = Some t -> anc h j z = Some t ->
  (forall i' j', i = S i' -> j = S j' -> anc h i' x <> anc h j' z) ->
  (forall i', i = S i' -> p <> father_of h x) ->
  (forall j', i = O -> j = S j' -> p <> anc h j' z) ->
  branch h p x z (i + j).
Proof.
  induction i as [|i IH]; intros x t z j p Hi Hj Hturn Hup Hdown.
  - cbn in Hi. injection Hi as <-. change (0 + j)%nat with j.
    apply build_down; [exact Hj|].
    intros j' ->. now apply Hdown.
  - rewrite anc_S_inner in Hi. destruct (father_of h x) as [f|] eqn:Hf; [|discriminate].
    cbn [Nat.add]. apply (branch_step h p x f z (i + j)).
    + now left.
    + now apply (Hup i).
    + apply (IH f t z j (Some x)); auto.
      * intros i' j' -> ->. specialize (Hturn (S i') j' eq_refl eq_refl).
        now rewrite anc_S_inner, Hf in Hturn.
      * intros i' -> E. symmetry in E. exact (father_not_mutual _ _ Hf E).
      * intros j' -> ->. exact (Hturn O j' eq_refl eq_refl).
Qed.

(** The walk from [x] to [z], read backwards. *)
Lemma branch_rev x z n : branch h None x z n -> branch h None z x n.
Proof.
  intros B. apply branch_shape in B as (i & j & t & -> & Hi & Hj & Hturn & _ & _).
  rewrite Nat.add_comm. apply (build_up j z t x i None); auto.
  - intros j' i' -> -> E. now apply (Hturn i' j' eq_refl eq_refl).
  - intros j' ->. rewrite anc_S_inner in Hj. now destruct (father_of h z).
  - intros i' _ ->. cbn [anc] in Hi. now destruct (anc h i' x).
Qed.

Lemma adjb_adj a b : adjb h a b = true -> adj h a b.
Proof.
  unfold adjb, adj. intros H. apply orb_prop in H as [H|H];
    apply bool_decide_eq_true in H; auto.
Qed.

(** A path without repeated individuals is a walk that never turns back. *)
Lemma path_branch l :
  forall x z p,
  is_path h (x :: l) = true -> NoDup (x :: l) -> last (x :: l) = Some z ->
  (forall q, p = Some q -> q ∉ l) ->
  branch h p x z (length l).
Proof.
  induction l as [|y l IH]; intros x z p Hpath Hnd Hlast Hp.
  - cbn in Hlast. injection Hlast as <-. constructor.
  - cbn [is_path] in Hpath. apply andb_prop in Hpath as [Hadj Hpath].
    apply NoDup_cons in Hnd as [Hx Hnd].
    cbn [length]. apply (branch_step h p x y z (length l)).
    + now apply adjb_adj.
    + intros ->. apply (Hp y eq_refl). now left.
    + apply IH; auto.
      intros q [= <-] Hq. apply Hx. now right.
Qed.
End Tree.

(** *** Heaps that differ in the scratch fields *)

Lemma reset_fields (x y : Individual) :
  dijkstra_reset x = dijkstra_reset y ->
  m_pid x = m_pid y /\ m_father x = m_father y /\ m_children x = m_children y
  /\ m_generation x = m_generation y /\ m_pedigree_id x = m_pedigree_id y
  /\ m_pedigree x = m_pedigree y.
Proof. destruct x, y. cbn. intros [=]. repeat split; assumption. Qed.

Lemma same_structure_refl h : same_structure h h.
Proof. now intros a. Qed.

Lemma same_structure_trans h1 h2 h3 :
  same_structure h1 h2 -> same_structure h2 h3 -> same_structure h1 h3.
Proof. intros H1 H2 a. now rewrite H1. Qed.

Lemma same_structure_sym h1 h2 : same_structure h1 h2 -> same_structure h2 h1.
Proof. intros H a. now rewrite H. Qed.

Lemma same_structure_lookup h h' a x :
  same_structure h h' -> h !! a = Some x ->
  exists x', h' !! a = Some x' /\ dijkstra_reset x' = dijkstra_reset x.
Proof.
  intros H Ha. specialize (H a). rewrite Ha in H.
  destruct (h' !! a) as [x'|]; [|discriminate].
  exists x'. split; [done|]. cbn [fmap option_fmap option_map] in H. congruence.
Qed.

Lemma same_structure_is_Some h h' a :
  same_structure h h' -> is_Some (h !! a) -> is_Some (h' !! a).
Proof.
  intros H [x Hx]. destruct (same_structure_lookup _ _ _ _ H Hx) as (x' & ? & _). eauto.
Qed.

Lemma same_structure_scratch h a x v d :
  h !! a = Some x -> same_structure h (<[a := with_dijkstra v d x]> h).
Proof.
  intros Ha b. destruct (decide (b = a)) as [->|].
  - now rewrite lookup_insert_eq, Ha.
  - now rewrite lookup_insert_ne.
Qed.

Lemma neighbours_reset x y :
  dijkstra_reset x = dijkstra_reset y -> neighbours x = neighbours y.
Proof.
  intros H. apply reset_fields in H as (_ & Hf & Hc & _). unfold neighbours.
  now rewrite Hf, Hc.
Qed.

Lemma closed_same_structure h h' : same_structure h h' -> closed h -> closed h'.
Proof.
  intros H Hc a x' y Ha Hy.
  destruct (same_structure_lookup _ _ _ _ (same_structure_sym _ _ H) Ha) as (x & Hx & E).
  apply (same_structure_is_Some _ _ _ H). apply (Hc a x y Hx).
  now rewrite (neighbours_reset _ _ E).
Qed.

Lemma visited_in_insert h a b x :
  visited_in (<[a := x]> h) b = if decide (a = b) then m_dijkstra_visited x else visited_in h b.
Proof. unfold visited_in. rewrite lookup_insert. now destruct (decide (a = b)). Qed.

Lemma distance_in_insert h a b x :
  distance_in (<[a := x]> h) b = if decide (a = b) then m_dijkstra_distance x else distance_in h b.
Proof. unfold distance_in. rewrite lookup_insert. now destruct (decide (a = b)). Qed.

(** *** The three cases of a call *)

Lemma internal_at_source fuel this dest h dist x d :
  h !! this = Some x -> h !! dest = Some d -> m_pid x = m_pid d ->
  meiosis_dist_tree_internal (S fuel) this dest (h, dist) = Ok (h, m_dijkstra_distance d).
Proof.
  intros Hx Hd E. cbn. unfold deref. rewrite Hx, Hd. cbn. now rewrite E, Z.eqb_refl.
Qed.

Lemma internal_at_visited fuel this dest h dist x d :
  h !! this = Some x -> h !! dest = Some d -> m_pid x <> m_pid d ->
  m_dijkstra_visited d = true ->
  meiosis_dist_tree_internal (S fuel) this dest (h, dist) = Ok (h, dist).
Proof.
  intros Hx Hd E Hv. cbn. unfold deref. rewrite Hx, Hd. cbn.
  apply Z.eqb_neq in E. now rewrite E, Hv.
Qed.

Lemma internal_at_fresh fuel this dest h dist x d :
  h !! this = Some x -> h !! dest = Some d -> m_pid x <> m_pid d ->
  m_dijkstra_visited d = false ->
  meiosis_dist_tree_internal (S fuel) this dest (h, dist)
  = ofold (visit fuel this (m_dijkstra_distance d + 1)) (neighbours d)
      (<[dest := with_dijkstra true (m_dijkstra_distance d + 1) d]> h, dist).
Proof.
  intros Hx Hd E Hv. cbn -[ofold]. unfold deref. rewrite Hx, Hd. cbn -[ofold].
  apply Z.eqb_neq in E. rewrite E, Hv.
  unfold neighbours. destruct (m_father d) as [f|]; reflexivity.
Qed.

(** *** Termination *)

Lemma elem_of_unvisited h a :
  a ∈ unvisited h <-> exists x, h !! a = Some x /\ m_dijkstra_visited x = false.
Proof.
  unfold unvisited. rewrite elem_of_dom. unfold is_Some.
  setoid_rewrite map_lookup_filter_Some. cbn. reflexivity.
Qed.

Lemma unvisited_tick h a x m :
  h !! a = Some x ->
  unvisited (<[a := dijkstra_tick_distance m x]> h) ⊆ unvisited h.
Proof.
  intros Ha b. rewrite !elem_of_unvisited. intros (y & Hy & Hv).
  destruct (decide (b = a)) as [->|].
  - rewrite lookup_insert_eq in Hy. injection Hy as <-. eauto.
  - rewrite lookup_insert_ne in Hy by done. eauto.
Qed.

Lemma unvisited_mark h a x d :
  h !! a = Some x -> m_dijkstra_visited x = false ->
  (size (unvisited (<[a := with_dijkstra true d x]> h)) < size (unvisited h))%nat.
Proof.
  intros Ha Hv. apply subset_size. split.
  - intros b. rewrite !elem_of_unvisited. intros (y & Hy & Hvy).
    destruct (decide (b = a)) as [->|].
    + rewrite lookup_insert_eq in Hy. injection Hy as <-. discriminate.
    + rewrite lookup_insert_ne in Hy by done. eauto.
  - intros Hsub. assert (Hin : a ∈ unvisited h) by (apply elem_of_unvisited; eauto).
    apply Hsub in Hin. apply elem_of_unvisited in Hin as (y & Hy & Hvy).
    rewrite lookup_insert_eq in Hy. injection Hy as <-. discriminate.
Qed.

Lemma internal_terminates fuel :
  forall this dest h dist,
  closed h -> is_Some (h !! this) -> is_Some (h !! dest) ->
  (size (unvisited h) < fuel)%nat ->
  exists h' d', meiosis_dist_tree_internal fuel this dest (h, dist) = Ok (h', d')
                /\ same_structure h h' /\ unvisited h' ⊆ unvisited h.
Proof.
  induction fuel as [|fuel IH]; intros this dest h dist Hcl [x Hx] [d Hd] Hfuel; [lia|].
  destruct (Z.eq_dec (m_pid x) (m_pid d)) as [E|E].
  { rewrite (internal_at_source _ _ _ _ _ _ _ Hx Hd E).
    eexists _, _. split; [reflexivity|]. split; [apply same_structure_refl|done]. }
  destruct (m_dijkstra_visited d) eqn:Hv.
  { rewrite (internal_at_visited _ _ _ _ _ _ _ Hx Hd E Hv).
    eexists _, _. split; [reflexivity|]. split; [apply same_structure_refl|done]. }
  rewrite (internal_at_fresh _ _ _ _ _ _ _ Hx Hd E Hv).
  set (m := m_dijkstra_distance d + 1).
  set (h1 := <[dest := with_dijkstra true m d]> h).
  assert (Hs1 : same_structure h h1) by now apply same_structure_scratch.
  assert (Hlt : (size (unvisited h1) < size (unvisited h))%nat) by now apply unvisited_mark.
  assert (Hloop : forall ys hc dc,
            same_structure h hc -> unvisited hc ⊆ unvisited h1 ->
            (forall y, y ∈ ys -> is_Some (h !! y)) ->
            exists h' d', ofold (visit fuel this m) ys (hc, dc) = Ok (h', d')
                          /\ same_structure h h' /\ unvisited h' ⊆ unvisited h1).
  { induction ys as [|y ys IHys]; intros hc dc Hsc Hsub Hys.
    - eexists _, _. split; [reflexivity|]. auto.
    - cbn [ofold]. unfold visit at 1. cbn [fst snd]. unfold update, deref.
      destruct (same_structure_is_Some _ _ y Hsc) as [yd Hyd]; [apply Hys; now left|].
      rewrite Hyd. cbn [obind].
      set (h2 := <[y := dijkstra_tick_distance m yd]> hc).
      assert (Hs2 : same_structure hc h2) by now apply same_structure_scratch.
      assert (Hsub2 : unvisited h2 ⊆ unvisited hc) by now apply unvisited_tick.
      destruct (IH this y h2 dc) as (h3 & d3 & -> & Hs3 & Hsub3).
      + eapply closed_same_structure; [|exact Hcl].
        eapply same_structure_trans; eauto.
      + apply (same_structure_is_Some h); [|eauto]. eapply same_structure_trans; eauto.
      + unfold h2. rewrite lookup_insert_eq. eauto.
      + assert ((size (unvisited h2) <= size (unvisited h1))%nat).
        { apply subseteq_size. etrans; eauto. }
        lia.
      + cbn [obind]. apply IHys.
        * eapply same_structure_trans; [|exact Hs3]. eapply same_structure_trans; eauto.
        * etrans; [exact Hsub3|]. etrans; eauto.
        * intros y' Hy'. apply Hys. now right. }
  destruct (Hloop (neighbours d) h1 dist Hs1) as (h' & d' & -> & Hs' & Hsub'); [done| |].
  - intros y Hy. exact (Hcl dest d y Hd Hy).
  - eexists _, _. split; [reflexivity|]. split; [done|].
    etrans; [exact Hsub'|]. intros b. rewrite !elem_of_unvisited. intros (z & Hz & Hvz).
    unfold h1 in Hz. destruct (decide (b = dest)) as [->|].
    + rewrite lookup_insert_eq in Hz. injection Hz as <-. discriminate.
    + rewrite lookup_insert_ne in Hz by done. eauto.
Qed.

Lemma visited_in_tick h y yd m z :
  h !! y = Some yd ->
  visited_in (<[y := dijkstra_tick_distance m yd]> h) z = visited_in h z.
Proof.
  intros Hy. rewrite visited_in_insert. destruct (decide (y = z)) as [<-|]; [|done].
  unfold visited_in. now rewrite Hy.
Qed.

Lemma visited_in_Some h a x : h !! a = Some x -> visited_in h a = m_dijkstra_visited x.
Proof. unfold visited_in. now intros ->. Qed.

Lemma distance_in_Some h a x : h !! a = Some x -> distance_in h a = m_dijkstra_distance x.
Proof. unfold distance_in. now intros ->. Qed.

(** *** The search on a tree *)

Section Search.
Variables (h0 : heap) (peds : pedigrees).
Hypothesis W : wf h0 peds.
Variable src : addr.
Hypothesis Hsrc : is_Some (h0 !! src).

Lemma pid_injective h a b x y :
  same_structure h0 h -> h !! a = Some x -> h !! b = Some y ->
  m_pid x = m_pid y -> a = b.
Proof.
  intros Hs Ha Hb E.
  destruct (same_structure_lookup _ _ _ _ (same_structure_sym _ _ Hs) Ha) as (x0 & Hx0 & Ex).
  destruct (same_structure_lookup _ _ _ _ (same_structure_sym _ _ Hs) Hb) as (y0 & Hy0 & Ey).
  apply reset_fields in Ex as (Ex & _). apply reset_fields in Ey as (Ey & _).
  apply (wf_pid _ _ W a b x0 y0 Hx0 Hy0). congruence.
Qed.

Lemma neighbours_adj x d y : h0 !! x = Some d -> y ∈ neighbours d -> adj h0 x y.
Proof.
  intros Hx. unfold neighbours. destruct (m_father d) as [f|] eqn:Hf.
  - intros Hy. apply elem_of_cons in Hy as [->|Hy].
    + left. unfold father_of. now rewrite Hx.
    + right. destruct (wf_child _ _ W x d y Hx Hy) as (cx & Hc & Hfc).
      unfold father_of. now rewrite Hc.
  - intros Hy. right. destruct (wf_child _ _ W x d y Hx Hy) as (cx & Hc & Hfc).
    unfold father_of. now rewrite Hc.
Qed.

Lemma adj_neighbours x d y : h0 !! x = Some d -> adj h0 x y -> y ∈ neighbours d.
Proof.
  intros Hx [H|H].
  - unfold father_of in H. rewrite Hx in H. unfold neighbours. rewrite H. now left.
  - apply (father_of_Some _ _ W) in H as (yx & fx & Hy & Hfy & Hfx & Hin & _).
    rewrite Hx in Hfx. injection Hfx as <-.
    unfold neighbours. destruct (m_father d); [now right|done].
Qed.

Lemma neighbours_NoDup x d : h0 !! x = Some d -> NoDup (neighbours d).
Proof.
  intros Hx. pose proof (wf_nodup _ _ W x d Hx) as Hnd. unfold neighbours.
  destruct (m_father d) as [f|] eqn:Hf; [|done].
  constructor; [|done]. intros Hin.
  destruct (wf_child _ _ W x d f Hx Hin) as (cx & Hc & Hfc).
  apply (father_not_mutual h0 peds W x f); unfold father_of.
  - now rewrite Hx.
  - now rewrite Hc.
Qed.

Lemma internal_spec fuel :
  forall p x m h dist h' dist',
  same_structure h0 h ->
  is_Some (h0 !! x) ->
  (forall z n, branch h0 p x z n ->
     visited_in h z = false /\ (z <> x -> distance_in h z = 0)) ->
  distance_in h x = m ->
  (forall q, p = Some q -> adj h0 q x /\ visited_in h q = true /\ q <> src) ->
  meiosis_dist_tree_internal fuel src x (h, dist) = Ok (h', dist') ->
  same_structure h0 h'
  /\ (forall z, (forall n, ~ branch h0 p x z n) ->
        visited_in h' z = visited_in h z /\ (p <> Some z -> h' !! z = h !! z))
  /\ (forall n, branch h0 p x src n -> dist' = m + Z.of_nat n)
  /\ (dist' = dist \/ exists n, branch h0 p x src n).
Proof.
  induction fuel as [|fuel IH]; intros p x m h dist h' dist' Hs Hx Hpre Hm Hp;
    [discriminate|].
  destruct (same_structure_is_Some _ _ _ Hs Hsrc) as [sx Hsx].
  destruct (same_structure_is_Some _ _ _ Hs Hx) as [d Hd].
  destruct Hx as [d0 Hd0].
  assert (Ed : neighbours d = neighbours d0).
  { destruct (same_structure_lookup _ _ _ _ Hs Hd0) as (d' & Hd' & E).
    rewrite Hd in Hd'. injection Hd' as <-. now apply neighbours_reset. }
  destruct (decide (x = src)) as [->|Hne].
  { rewrite Hsx in Hd. injection Hd as <-.
    rewrite (internal_at_source _ _ _ _ _ _ _ Hsx Hsx eq_refl). intros [= <- <-].
    split; [done|]. split; [now intros|]. split.
    - intros [|n] B; [|destruct (branch_no_loop _ _ W _ _ _ B)].
      rewrite (distance_in_Some _ _ _ Hsx) in Hm. cbn. lia.
    - right. exists O. constructor. }
  assert (Epid : m_pid sx <> m_pid d).
  { intros E. apply Hne. symmetry. exact (pid_injective _ _ _ _ _ Hs Hsx Hd E). }
  assert (Hv : m_dijkstra_visited d = false).
  { rewrite <- (visited_in_Some _ _ _ Hd). apply (Hpre x O). constructor. }
  rewrite (internal_at_fresh _ _ _ _ _ _ _ Hsx Hd Epid Hv).
  rewrite (distance_in_Some _ _ _ Hd) in Hm. rewrite Hm.
  set (m1 := m + 1). set (h1 := <[x := with_dijkstra true m1 d]> h).
  assert (Hxsrc : forall q, p = Some q -> q <> src) by (intros q Hq; now apply Hp).
  assert (Hpadj : forall q, p = Some q -> adj h0 x q).
  { intros q Hq. apply adj_sym. now apply Hp. }
  assert (Hloop : forall ys hc dc,
    same_structure h0 hc ->
    visited_in hc x = true ->
    NoDup ys ->
    (forall y, y ∈ ys -> adj h0 x y) ->
    (forall y z n, y ∈ ys -> p <> Some y -> branch h0 (Some x) y z n ->
       visited_in hc z = false /\ distance_in hc z = 0) ->
    (forall q, p = Some q -> visited_in hc q = true) ->
    ofold (visit fuel src m1) ys (hc, dc) = Ok (h', dist') ->
    same_structure h0 h'
    /\ visited_in h' x = true
    /\ (forall z, z <> x ->
          (forall y n, y ∈ ys -> p <> Some y -> ~ branch h0 (Some x) y z n) ->
          visited_in h' z = visited_in hc z /\ (p <> Some z -> h' !! z = hc !! z))
    /\ (forall y n, y ∈ ys -> p <> Some y -> branch h0 (Some x) y src n ->
          dist' = m1 + Z.of_nat n)
    /\ (dist' = dc \/ exists y n, y ∈ ys /\ p <> Some y /\ branch h0 (Some x) y src n)).
  { induction ys as [|y ys IHys]; intros hc dc Hsc Hvx Hnd Hadj Hunt Hpv.
    - intros [= <- <-]. split; [done|]. split; [done|]. split; [now intros|].
      split; [|now left]. intros y n Hy. by apply not_elem_of_nil in Hy.
    - apply NoDup_cons in Hnd as [Hy_notin Hnd].
      assert (Hxy : adj h0 x y) by (apply Hadj; now left).
      destruct (adj_in_heap _ _ W _ _ Hxy) as [_ Hy0].
      destruct (same_structure_is_Some _ _ _ Hsc Hy0) as [yd Hyd].
      cbn [ofold]. unfold visit at 1. cbn [fst snd]. unfold update, deref.
      rewrite Hyd. cbn [obind].
      set (h2 := <[y := dijkstra_tick_distance m1 yd]> hc).
      assert (Hs2 : same_structure h0 h2).
      { eapply same_structure_trans; [exact Hsc|]. now apply same_structure_scratch. }
      assert (Hv2 : forall z, visited_in h2 z = visited_in hc z)
        by (intros z; now apply visited_in_tick).
      assert (Ho2 : forall z, z <> y -> h2 !! z = hc !! z)
        by (intros z Hz; unfold h2; now rewrite lookup_insert_ne).
      assert (Hother : forall y' z n, y' ∈ ys -> branch h0 (Some x) y' z n ->
                forall n', ~ branch h0 (Some x) y z n').
      { intros y' z n Hy' B n' B'.
        assert (y = y').
        { apply (branch_disjoint h0 peds W x y y' z n' n); auto. apply Hadj. now right. }
        subst y'. contradiction. }
      destruct (meiosis_dist_tree_internal fuel src y (h2, dc)) as [[h3 d3]| | |] eqn:E3;
        cbn [obind]; try discriminate.
      intros Hrest.
      destruct (decide (p = Some y)) as [Hpy|Hpy].
      + (* the neighbour we came from: it is visited, the call returns at once *)
        destruct fuel as [|fuel']; [discriminate|].
        destruct (same_structure_is_Some _ _ _ Hs2 Hsrc) as [sx2 Hsx2].
        assert (Hy2 : h2 !! y = Some (dijkstra_tick_distance m1 yd))
          by (unfold h2; now rewrite lookup_insert_eq).
        rewrite (internal_at_visited _ _ _ _ _ _ _ Hsx2 Hy2) in E3.
        2:{ intros E. apply (Hxsrc y Hpy). symmetry.
            exact (pid_injective _ _ _ _ _ Hs2 Hsx2 Hy2 E). }
        2:{ cbn. rewrite <- (visited_in_Some _ _ _ Hyd). now apply Hpv. }
        injection E3 as <- <-.
        assert (Hzy : forall y' z n, y' ∈ ys -> branch h0 (Some x) y' z n -> z <> y).
        { intros y' z n Hy' B ->. apply (Hother y' y n Hy' B O). constructor. }
        destruct (IHys h2 dc) as (P1 & P2 & P3 & P4 & P5); auto.
        * now rewrite Hv2.
        * intros y' Hy'. apply Hadj. now right.
        * intros y' z n Hy' Hpy' B.
          destruct (Hunt y' z n) as [U1 U2]; auto; [now right|].
          split; [now rewrite Hv2|].
          unfold distance_in. rewrite (Ho2 z (Hzy y' z n Hy' B)). exact U2.
        * intros q Hq. rewrite Hv2. now apply Hpv.
        * split; [done|]. split; [done|]. split; [|split].
          -- intros z Hzx Hz. destruct (P3 z Hzx) as [Q1 Q2].
             { intros y' n Hy'. apply Hz. now right. }
             split; [now rewrite Q1, Hv2|].
             intros Hpz. rewrite (Q2 Hpz). apply Ho2. intros ->. contradiction.
          -- intros y' n Hy' Hpy' B. apply elem_of_cons in Hy' as [->|Hy']; [done|].
             now apply (P4 y' n).
          -- destruct P5 as [->|(y' & n & Hy' & Hpy' & B)]; [now left|].
             right. exists y', n. split; [now right|done].
      + (* a proper neighbour: the search descends *)
        assert (Hunt_y : forall z n, branch h0 (Some x) y z n ->
                  visited_in hc z = false /\ distance_in hc z = 0).
        { intros z n B. apply (Hunt y z n); auto. now left. }
        destruct (IH (Some x) y m1 h2 dc h3 d3) as (S3 & F3 & R3 & O3); auto.
        * intros z n B. destruct (Hunt_y z n B) as [U1 U2].
          split; [now rewrite Hv2|]. intros Hzy. unfold distance_in.
          now rewrite (Ho2 z Hzy).
        * unfold h2. rewrite distance_in_insert, decide_True by done. cbn.
          destruct (Hunt_y y O) as [_ U2]; [constructor|].
          rewrite (distance_in_Some _ _ _ Hyd) in U2. lia.
        * intros q [= <-]. split; [done|]. split; [now rewrite Hv2|done].
        * assert (Hfar : forall y' z n, y' ∈ ys -> branch h0 (Some x) y' z n ->
                    visited_in h3 z = visited_in hc z /\ h3 !! z = hc !! z).
          { intros y' z n Hy' B.
            destruct (F3 z) as [Q1 Q2]; [intros n'; now apply (Hother y' z n)|].
            split; [now rewrite Q1, Hv2|].
            rewrite Q2.
            - apply Ho2. intros ->. apply (Hother y' y n Hy' B O). constructor.
            - intros [= <-].
              apply (branch_leaves h0 peds W x y' x n); [apply Hadj; now right|done|done]. }
          destruct (IHys h3 d3) as (P1 & P2 & P3 & P4 & P5); auto.
          -- destruct (F3 x) as [Q1 _].
             { intros n B. now apply (branch_leaves h0 peds W x y x n). }
             now rewrite Q1, Hv2.
          -- intros y' Hy'. apply Hadj. now right.
          -- intros y' z n Hy' Hpy' B.
             destruct (Hunt y' z n) as [U1 U2]; auto; [now right|].
             destruct (Hfar y' z n Hy' B) as [Q1 Q2].
             split; [now rewrite Q1|]. unfold distance_in. now rewrite Q2.
          -- intros q Hq. destruct (F3 q) as [Q1 _].
             { intros n B.
               assert (y = q).
               { eapply (branch_disjoint h0 peds W x y q); eauto. constructor. }
               subst q. contradiction. }
             rewrite Q1, Hv2. now apply Hpv.
          -- split; [done|]. split; [done|]. split; [|split].
             ++ intros z Hzx Hz.
                destruct (F3 z) as [Q1 Q2]; [intros n; apply Hz; [now left|done]|].
                destruct (P3 z Hzx) as [Q3 Q4]; [intros y' n Hy'; apply Hz; now right|].
                split; [now rewrite Q3, Q1, Hv2|].
                intros Hpz. rewrite (Q4 Hpz), Q2 by congruence.
                apply Ho2. intros ->. apply (Hz y O); [now left|done|constructor].
             ++ intros y' n Hy' Hpy' B. apply elem_of_cons in Hy' as [->|Hy'].
                ** destruct P5 as [->|(y' & n' & Hy' & _ & B')]; [now apply R3|].
                   destruct (Hother y' src n' Hy' B' n B).
                ** now apply (P4 y' n).
             ++ destruct P5 as [->|(y' & n & Hy' & Hpy' & B)].
                ** destruct O3 as [->|[n B]]; [now left|].
                   right. exists y, n. split; [now left|done].
                ** right. exists y', n. split; [now right|done]. }
  intros Hrun.
  destruct (Hloop (neighbours d) h1 dist) as (P1 & P2 & P3 & P4 & P5); auto.
  - eapply same_structure_trans; [exact Hs|]. now apply same_structure_scratch.
  - unfold h1. now rewrite visited_in_insert, decide_True.
  - rewrite Ed. now apply (neighbours_NoDup x).
  - intros y Hy. rewrite Ed in Hy. now apply (neighbours_adj x d0).
  - intros y z n Hy Hpy B. rewrite Ed in Hy.
    assert (Hzx : z <> x).
    { apply (branch_leaves h0 peds W x y z n); [|done]. now apply (neighbours_adj x d0). }
    destruct (Hpre z (S n)) as [U1 U2].
    { apply (branch_step h0 p x y z n); auto. now apply (neighbours_adj x d0). }
    unfold h1. rewrite visited_in_insert, distance_in_insert, !decide_False by done.
    auto.
  - intros q Hq. unfold h1. rewrite visited_in_insert.
    destruct (decide (x = q)); [done|]. now apply Hp.
  - assert (Hzx : forall z, (forall n, ~ branch h0 p x z n) -> z <> x).
    { intros z Hz ->. apply (Hz O). constructor. }
    split; [done|]. split; [|split].
    + intros z Hz. destruct (P3 z (Hzx z Hz)) as [Q1 Q2].
      { intros y n Hy Hpy B. rewrite Ed in Hy. apply (Hz (S n)).
        apply (branch_step h0 p x y z n); auto. now apply (neighbours_adj x d0). }
      unfold h1 in Q1, Q2.
      rewrite visited_in_insert, decide_False in Q1 by (intros E; now apply (Hzx z Hz)).
      split; [done|]. intros Hpz. rewrite (Q2 Hpz).
      rewrite lookup_insert_ne; [done|]. intros E. now apply (Hzx z Hz).
    + intros [|n] B.
      * inversion B; subst. contradiction.
      * inversion B as [|? ? y ? ? Hadj Hpy B']; subst.
        rewrite (P4 y n); [unfold m1; lia| |done|done].
        rewrite Ed. now apply (adj_neighbours x d0).
    + destruct P5 as [->|(y & n & Hy & Hpy & B)]; [now left|].
      right. exists (S n). rewrite Ed in Hy.
      apply (branch_step h0 p x y src n); auto. now apply (neighbours_adj x d0).
Qed.
End Search.

(** *** The reset before the search *)

Lemma reset_all_spec l :
  forall h,
  (forall b, b ∈ l -> is_Some (h !! b)) ->
  exists h1, reset_all l h = Ok h1
             /\ same_structure h h1
             /\ (forall b, b ∈ l \/ (visited_in h b = false /\ distance_in h b = 0) ->
                   visited_in h1 b = false /\ distance_in h1 b = 0).
Proof.
  unfold reset_all. induction l as [|a l IH]; intros h Hl.
  - exists h. split; [done|]. split; [apply same_structure_refl|].
    intros b [Hb|Hb]; [by apply not_elem_of_nil in Hb|done].
  - destruct (Hl a) as [x Hx]; [now left|].
    cbn [ofold]. unfold update at 1, deref. rewrite Hx. cbn [obind].
    set (h2 := <[a := dijkstra_reset x]> h).
    assert (Hs2 : same_structure h h2) by now apply same_structure_scratch.
    destruct (IH h2) as (h1 & -> & Hs1 & Hc).
    { intros b Hb. apply (same_structure_is_Some h); [done|]. apply Hl. now right. }
    exists h1. split; [done|]. split; [eapply same_structure_trans; eauto|].
    intros b Hb. apply Hc.
    destruct (decide (b = a)) as [->|Hba].
    + right. unfold h2. now rewrite visited_in_insert, distance_in_insert, !decide_True.
    + destruct Hb as [Hb|Hb].
      * left. apply elem_of_cons in Hb as [?|?]; [done|done].
      * right. unfold h2.
        now rewrite visited_in_insert, distance_in_insert, !decide_False.
Qed.

Lemma wf_closed h peds : wf h peds -> closed h.
Proof.
  intros W a x y Ha Hy.
  exact (proj2 (adj_in_heap h peds W a y (neighbours_adj h peds W a x y Ha Hy))).
Qed.

Lemma branch_same_pedigree h peds p x z n :
  wf h peds -> branch h p x z n ->
  forall dx, h !! x = Some dx ->
  exists dz, h !! z = Some dz /\ m_pedigree_id dz = m_pedigree_id dx.
Proof.
  intros W. induction 1 as [p x|p x y z n Hadj Hp Hbr IH]; intros dx Hx; [eauto|].
  assert (exists dy, h !! y = Some dy /\ m_pedigree_id dy = m_pedigree_id dx) as (dy & Hy & E).
  { destruct Hadj as [H|H];
      apply (father_of_Some h peds W) in H as (c & f & Hc & Hfc & Hf & _).
    - rewrite Hx in Hc. injection Hc as <-.
      destruct (wf_father _ _ W x dx y Hx Hfc) as (f' & Hf' & _ & _ & E).
      eauto.
    - rewrite Hx in Hf. injection Hf as <-.
      destruct (wf_father _ _ W y c x Hc Hfc) as (f' & Hf' & _ & _ & E).
      rewrite Hx in Hf'. injection Hf' as <-. eauto. }
  destruct (IH dy Hy) as (dz & Hz & E'). exists dz. split; [done|]. congruence.
Qed.

Lemma unvisited_size h : (size (unvisited h) <= size h)%nat.
Proof.
  rewrite <- (size_dom (D := gset addr) h). apply subseteq_size.
  intros a Ha. apply elem_of_unvisited in Ha as (x & Hx & _). apply elem_of_dom. eauto.
Qed.

(** *** The distance within a pedigree *)

Lemma meiosis_same_pedigree h0 peds h a b x y :
  wf h0 peds -> same_structure h0 h ->
  h0 !! a = Some x -> h0 !! b = Some y ->
  pedigree_is_set x = true -> pedigree_is_set y = true ->
  m_pedigree_id x = m_pedigree_id y ->
  exists h' d, meiosis_dist_tree h peds a (Some b) = Ok (h', d)
               /\ same_structure h0 h'
               /\ (forall n, branch h0 None b a n -> d = Z.of_nat n)
               /\ (d = 0 \/ exists n, branch h0 None b a n).
Proof.
  intros W Hs Ha Hb Hxs Hys Hid.
  destruct (same_structure_lookup _ _ _ _ Hs Ha) as (x' & Ha' & Ex).
  destruct (same_structure_lookup _ _ _ _ Hs Hb) as (y' & Hb' & Ey).
  apply reset_fields in Ex as (_ & _ & _ & _ & Ex1 & Ex2).
  apply reset_fields in Ey as (_ & _ & _ & _ & Ey1 & _).
  destruct (wf_ped _ _ W a x Ha Hxs) as (ped & Hped & Hmem & Hall).
  unfold meiosis_dist_tree, deref. rewrite Ha'. cbn [obind].
  unfold pedigree_is_set in *. rewrite Ex1, Hxs. cbn [negb]. rewrite Hb'. cbn [obind].
  rewrite Ey1, Hys. cbn [negb]. rewrite Hid, Z.eqb_refl. cbn [negb].
  replace (get_pedigree peds x') with (Ok ped)
    by (unfold get_pedigree in *; now rewrite Ex2).
  cbn [obind].
  destruct (reset_all_spec (ped_members ped) h) as (h1 & -> & Hs1 & Hclear).
  { intros c Hc. apply (same_structure_is_Some h0); auto. }
  cbn [obind].
  assert (Hs01 : same_structure h0 h1) by (eapply same_structure_trans; eauto).
  destruct (internal_terminates (S (size h1)) a b h1 0) as (h' & d & E & _ & _).
  { eapply closed_same_structure; [exact Hs01|]. eapply wf_closed; eauto. }
  { apply (same_structure_is_Some h0); eauto. }
  { apply (same_structure_is_Some h0); eauto. }
  { pose proof (unvisited_size h1). lia. }
  exists h', d. split; [exact E|].
  assert (Hcl : forall z n, branch h0 None b z n ->
            visited_in h1 z = false /\ distance_in h1 z = 0).
  { intros z n B. apply Hclear. left.
    destruct (branch_same_pedigree _ _ _ _ _ _ W B y Hb) as (dz & Hz & Ez).
    apply (Hall z dz Hz). congruence. }
  destruct (internal_spec h0 peds W a (ex_intro _ x Ha) (S (size h1)) None b 0 h1 0 h' d)
    as (S1 & _ & R1 & R2).
  - exact Hs01.
  - eauto.
  - intros z n B. destruct (Hcl z n B). auto.
  - apply (Hcl b O). constructor.
  - intros q [=].
  - exact E.
  - split; [done|]. split; [|done]. intros n B. rewrite (R1 n B). lia.
Qed.

Lemma meiosis_other_pedigree h peds a b x y :
  h !! a = Some x -> h !! b = Some y ->
  pedigree_is_set x = true -> pedigree_is_set y = true ->
  m_pedigree_id x <> m_pedigree_id y ->
  meiosis_dist_tree h peds a (Some b) = Ok (h, -1).
Proof.
  intros Ha Hb Hx Hy Hne. unfold meiosis_dist_tree, deref.
  rewrite Ha. cbn [obind]. rewrite Hx. cbn [negb]. rewrite Hb. cbn [obind].
  rewrite Hy. cbn [negb]. apply Z.eqb_neq in Hne. now rewrite Hne.
Qed.

(** Claim C5. In a population that satisfies the invariants of the data
    model, [meiosis_dist_tree] returns the number of parent-child edges of
    a path without repetitions from [a] to [b] when both carry the same
    pedigree id; it returns -1 when both have a pedigree and the ids
    differ; it throws when [a] has no pedigree, when the destination is
    null, and when [b] has no pedigree. *)
Theorem meiosis_dist_contract h peds a b x y :
  wf_population h peds = true -> h !! a = Some x -> h !! b = Some y ->
  (pedigree_is_set x = true -> pedigree_is_set y = true ->
   m_pedigree_id x = m_pedigree_id y ->
   forall l, is_path h (a :: l) = true -> NoDup (a :: l) -> last (a :: l) = Some b ->
     exists h', meiosis_dist_tree h peds a (Some b) = Ok (h', Z.of_nat (length l)))
  /\ (pedigree_is_set x = true -> pedigree_is_set y = true ->
      m_pedigree_id x <> m_pedigree_id y ->
      meiosis_dist_tree h peds a (Some b) = Ok (h, -1))
  /\ (pedigree_is_set x = false ->
      forall dest, meiosis_dist_tree h peds a dest = Throw msg_this_unset)
  /\ (pedigree_is_set x = true ->
      meiosis_dist_tree h peds a None = Throw msg_dest_null)
  /\ (pedigree_is_set x = true -> pedigree_is_set y = false ->
      meiosis_dist_tree h peds a (Some b) = Throw msg_dest_unset).
Proof.
  intros Hwf Ha Hb. apply wf_population_spec in Hwf as W.
  split; [|split; [|split; [|split]]].
  - intros Hx Hy Hid l Hpath Hnd Hlast.
    destruct (meiosis_same_pedigree h peds h a b x y W (same_structure_refl h)
                Ha Hb Hx Hy Hid) as (h' & d & E & _ & R1 & _).
    exists h'. rewrite E. f_equal. f_equal. apply R1.
    apply (branch_rev h peds W). apply (path_branch h l a b None); auto.
    intros q [=].
  - now apply meiosis_other_pedigree.
  - intros Hx dest. unfold meiosis_dist_tree, deref. rewrite Ha. cbn [obind]. now rewrite Hx.
  - intros Hx. unfold meiosis_dist_tree, deref. rewrite Ha. cbn [obind]. now rewrite Hx.
  - intros Hx Hy. unfold meiosis_dist_tree, deref. rewrite Ha. cbn [obind].
    rewrite Hx. cbn [negb]. rewrite Hb. cbn [obind]. now rewrite Hy.
Qed.

Lemma meiosis_dist_contract_witness :
  (exists h', meiosis_dist_tree family family_pedigrees 1%positive (Some 3%positive)
              = Ok (h', 2))
  /\ meiosis_dist_tree family family_pedigrees 1%positive None = Throw msg_dest_null.
Proof.
  destruct (meiosis_dist_contract family family_pedigrees 1%positive 3%positive
              (person 1 2 None [2%positive] 7 (Some 1%positive))
              (person 3 0 (Some 2%positive) [] 7 (Some 1%positive)))
    as (H1 & _ & _ & H4 & _); [vm_compute; reflexivity..|].
  split.
  - apply (H1 eq_refl eq_refl eq_refl [2%positive; 3%positive]).
    + vm_compute; reflexivity.
    + apply (bool_decide_unpack _). vm_compute. exact I.
    + reflexivity.
  - apply H4. reflexivity.
Defined.

(** Scenario 4: grandfather, father and son. *)
Example family_distances :
  value_of (meiosis_dist_tree family family_pedigrees 1%positive (Some 2%positive)) = Ok 1
  /\ value_of (meiosis_dist_tree family family_pedigrees 2%positive (Some 3%positive)) = Ok 1
  /\ value_of (meiosis_dist_tree family family_pedigrees 1%positive (Some 3%positive)) = Ok 2
  /\ value_of (meiosis_dist_tree family family_pedigrees 1%positive (Some 1%positive)) = Ok 0
  /\ value_of (meiosis_dist_tree family family_pedigrees 1%positive (Some 4%positive))
     = Ok (-1).
Proof. repeat split; vm_compute; reflexivity. Qed.

(** Claim C6. In a population that satisfies the invariants of the data
    model, for individuals [a] and [b] with a pedigree each, the distance
    from [a] to itself is 0, and the distance from [a] to [b] equals the
    distance from [b] to [a], whether the second query starts from the
    original heap or from the heap the first query left behind. *)
Theorem meiosis_dist_symmetric h peds a b x y :
  wf_population h peds = true -> h !! a = Some x -> h !! b = Some y ->
  pedigree_is_set x = true -> pedigree_is_set y = true ->
  value_of (meiosis_dist_tree h peds a (Some a)) = Ok 0
  /\ exists d,
       value_of (meiosis_dist_tree h peds a (Some b)) = Ok d
       /\ value_of (meiosis_dist_tree h peds b (Some a)) = Ok d
       /\ value_of (meiosis_dist_tree (heap_of h (meiosis_dist_tree h peds a (Some b)))
                      peds b (Some a)) = Ok d.
Proof.
  intros Hwf Ha Hb Hx Hy. apply wf_population_spec in Hwf as W. split.
  - destruct (meiosis_same_pedigree h peds h a a x x W (same_structure_refl h)
                Ha Ha Hx Hx eq_refl) as (h' & d & E & _ & R1 & _).
    rewrite E. cbn. f_equal. apply (R1 O). constructor.
  - destruct (Z.eq_dec (m_pedigree_id x) (m_pedigree_id y)) as [Hid|Hid].
    + destruct (meiosis_same_pedigree h peds h a b x y W (same_structure_refl h)
                  Ha Hb Hx Hy Hid) as (h1 & d1 & E1 & S1 & R1 & O1).
      destruct (meiosis_same_pedigree h peds h b a y x W (same_structure_refl h)
                  Hb Ha Hy Hx (eq_sym Hid)) as (h2 & d2 & E2 & _ & R2 & O2).
      destruct (meiosis_same_pedigree h peds h1 b a y x W S1
                  Hb Ha Hy Hx (eq_sym Hid)) as (h3 & d3 & E3 & _ & R3 & O3).
      assert (Hrev : forall u v n, branch h None u v n -> branch h None v u n)
        by (intros u v n; apply (branch_rev h peds W)).
      assert (H12 : d2 = d1).
      { destruct O1 as [->|[n B]].
        - destruct O2 as [->|[n B]]; [done|]. rewrite (R2 n B). symmetry.
          apply R1. now apply Hrev.
        - rewrite (R1 n B). apply R2. now apply Hrev. }
      assert (H13 : d3 = d1).
      { destruct O1 as [->|[n B]].
        - destruct O3 as [->|[n B]]; [done|]. rewrite (R3 n B). symmetry.
          apply R1. now apply Hrev.
        - rewrite (R1 n B). apply R3. now apply Hrev. }
      exists d1. rewrite E1. cbn [heap_of]. rewrite E2, E3. cbn. subst. auto.
    + exists (-1).
      rewrite (meiosis_other_pedigree h peds a b x y Ha Hb Hx Hy Hid). cbn [heap_of].
      rewrite (meiosis_other_pedigree h peds b a y x Hb Ha Hy Hx) by congruence.
      cbn. auto.
Qed.

Lemma meiosis_dist_symmetric_witness :
  value_of (meiosis_dist_tree family family_pedigrees 3%positive (Some 3%positive)) = Ok 0
  /\ exists d,
       value_of (meiosis_dist_tree family family_pedigrees 3%positive (Some 1%positive)) = Ok d
       /\ value_of (meiosis_dist_tree family family_pedigrees 1%positive (Some 3%positive)) = Ok d
       /\ value_of (meiosis_dist_tree
                      (heap_of family
                         (meiosis_dist_tree family family_pedigrees 3%positive (Some 1%positive)))
                      family_pedigrees 1%positive (Some 3%positive)) = Ok d.
Proof.
  apply (meiosis_dist_symmetric family family_pedigrees 3%positive 1%positive
           (person 3 0 (Some 2%positive) [] 7 (Some 1%positive))
           (person 1 2 None [2%positive] 7 (Some 1%positive)));
    vm_compute; reflexivity.
Defined.

(** Claim C2, as the code has it. For two individuals with a pedigree
    each, [calculate_path_to] returns the empty path when the pedigree ids
    differ; within one pedigree it throws when the path from the root to
    the first individual is not found, and when that one is found but the
    path from the root to the second is not. *)
Theorem calculate_path_to_outcomes find_path h peds a b x y ped :
  h !! a = Some x -> h !! b = Some y ->
  pedigree_is_set x = true -> pedigree_is_set y = true ->
  get_pedigree peds x = Ok ped ->
  (m_pedigree_id x <> m_pedigree_id y ->
   calculate_path_to find_path h peds a (Some b) = Ok [])
  /\ (m_pedigree_id x = m_pedigree_id y ->
      fst (find_path h (ped_root ped) [] a) = false ->
      calculate_path_to find_path h peds a (Some b) = Throw msg_no_path_this)
  /\ (m_pedigree_id x = m_pedigree_id y ->
      fst (find_path h (ped_root ped) [] a) = true ->
      fst (find_path h (ped_root ped) [] b) = false ->
      calculate_path_to find_path h peds a (Some b) = Throw msg_no_path_dest).
Proof.
  intros Ha Hb Hx Hy Hped.
  assert (E : calculate_path_to find_path h peds a (Some b)
              = if negb (m_pedigree_id x =? m_pedigree_id y) then Ok []
                else
                  let '(found_this, path_this) := find_path h (ped_root ped) [] a in
                  if negb found_this then Throw msg_no_path_this
                  else
                    let '(found_dest, path_dest) := find_path h (ped_root ped) [] b in
                    if negb found_dest then Throw msg_no_path_dest
                    else
                      let! LCA_index := lca_scan h path_this path_dest 0 in
                      match LCA_index with
                      | O => Throw msg_lca_zero
                      | S i =>
                          let! lca := vec_nth path_this i in
                          Ok (lca :: drop LCA_index path_this ++ drop LCA_index path_dest)
                      end).
  { unfold calculate_path_to, deref. rewrite Ha. cbn [obind]. rewrite Hx. cbn [negb].
    rewrite Hb. cbn [obind]. rewrite Hy. cbn [negb]. rewrite Hped. reflexivity. }
  rewrite E. split; [|split].
  - intros Hne. apply Z.eqb_neq in Hne. now rewrite Hne.
  - intros Hid Hf. rewrite Hid, Z.eqb_refl. cbn [negb].
    destruct (find_path h (ped_root ped) [] a) as [f1 p1]. cbn in Hf. now rewrite Hf.
  - intros Hid Hf1 Hf2. rewrite Hid, Z.eqb_refl. cbn [negb].
    destruct (find_path h (ped_root ped) [] a) as [f1 p1]. cbn in Hf1. rewrite Hf1.
    cbn [negb]. destruct (find_path h (ped_root ped) [] b) as [f2 p2]. cbn in Hf2.
    now rewrite Hf2.
Qed.

Lemma calculate_path_to_outcomes_witness :
  calculate_path_to never_found family family_pedigrees 1%positive (Some 4%positive) = Ok []
  /\ calculate_path_to never_found family family_pedigrees 1%positive (Some 3%positive)
     = Throw msg_no_path_this.
Proof.
  split.
  - apply (calculate_path_to_outcomes never_found family family_pedigrees
             1%positive 4%positive
             (person 1 2 None [2%positive] 7 (Some 1%positive))
             (person 4 0 None [] 8 (Some 2%positive))
             (mkPedigree 7 (Some 1%positive) [1%positive; 2%positive; 3%positive] []));
      try (vm_compute; reflexivity). vm_compute. discriminate.
  - apply (calculate_path_to_outcomes never_found family family_pedigrees
             1%positive 3%positive
             (person 1 2 None [2%positive] 7 (Some 1%positive))
             (person 3 0 (Some 2%positive) [] 7 (Some 1%positive))
             (mkPedigree 7 (Some 1%positive) [1%positive; 2%positive; 3%positive] []));
      vm_compute; reflexivity.
Defined.

(** Claim C2 fails as stated: it is not the case that [calculate_path_to]
    throws for every pair of individuals in different pedigrees; on the
    grandfather and the stranger it returns the empty path. *)
Lemma calculate_path_to_cross_pedigree_returns :
  ~ (forall find_path h peds a b x y,
       h !! a = Some x -> h !! b = Some y ->
       pedigree_is_set x = true -> pedigree_is_set y = true ->
       m_pedigree_id x <> m_pedigree_id y ->
       exists e, calculate_path_to find_path h peds a (Some b) = Throw e).
Proof.
  intros H.
  destruct (H never_found family family_pedigrees 1%positive 4%positive
              (person 1 2 None [2%positive] 7 (Some 1%positive))
              (person 4 0 None [] 8 (Some 2%positive))) as [e He];
    try (vm_compute; reflexivity).
  - vm_compute. discriminate.
  - vm_compute in He. discriminate.
Qed.

(** * Further properties of the code *)

Import More.

(** ** Haplotype mutation, locus by locus *)

Lemma vec_nth_Ok {A} (v : list A) (i : nat) (x : A) :
  vec_nth v i = Ok x <-> v !! i = Some x.
Proof.
  unfold vec_nth. destruct (v !! i); split; intros H; try discriminate; congruence.
Qed.

(** A loop over the loci whose body leaves the haplotype alone or rewrites
    the locus it is at: at the end every locus is as before or was rewritten
    once, from its original value. *)
Lemma loci_loop (f : list Z * nat -> nat -> outcome (list Z * nat))
    (R : nat -> Z -> Z -> Prop) :
  (forall hap k loc hap' k',
     f (hap, k) loc = Ok (hap', k') ->
     hap' = hap \/ exists a v, hap !! loc = Some a /\ hap' = <[loc := v]> hap /\ R loc a v) ->
  forall n s hap0 cur k hap' k',
  length cur = length hap0 ->
  (forall i a, (s <= i)%nat -> hap0 !! i = Some a -> cur !! i = Some a) ->
  (forall i a b, (i < s)%nat -> hap0 !! i = Some a -> cur !! i = Some b -> b = a \/ R i a b) ->
  ofold f (seq s n) (cur, k) = Ok (hap', k') ->
  length hap' = length hap0
  /\ forall i a b, hap0 !! i = Some a -> hap' !! i = Some b -> b = a \/ R i a b.
Proof.
  intros Hf. induction n as [|n IH]; intros s hap0 cur k hap' k' Hlen Hrest Hdone.
  - cbn. intros [= <- <-]. split; [done|]. intros i a b Ha Hb.
    destruct (Nat.lt_ge_cases i s) as [Hi|Hi]; [eauto|].
    rewrite (Hrest i a Hi Ha) in Hb. left. congruence.
  - cbn [seq ofold]. destruct (f (cur, k) s) as [[cur1 k1]| | |] eqn:E; cbn [obind];
      try discriminate.
    apply (IH (S s) hap0 cur1 k1 hap' k').
    + destruct (Hf _ _ _ _ _ E) as [->|(a & v & _ & -> & _)]; [done|].
      now rewrite length_insert.
    + intros i a Hi Ha.
      destruct (Hf _ _ _ _ _ E) as [->|(a' & v & _ & -> & _)]; [apply Hrest; [lia|done]|].
      rewrite list_lookup_insert_ne by lia. apply Hrest; [lia|done].
    + intros i a b Hi Ha Hb.
      destruct (Hf _ _ _ _ _ E) as [->|(a' & v & Ha' & -> & HR)].
      * destruct (decide (i = s)) as [->|]; [|apply (Hdone i a b); [lia|done|done]].
        rewrite (Hrest s a (Nat.le_refl s) Ha) in Hb. left. congruence.
      * destruct (decide (i = s)) as [->|].
        -- rewrite (Hrest s a (Nat.le_refl s) Ha) in Ha'. injection Ha' as <-.
           rewrite list_lookup_insert_eq in Hb by (apply lookup_lt_Some in Ha; lia).
           injection Hb as <-. now right.
        -- rewrite list_lookup_insert_ne in Hb by done.
           apply (Hdone i a b); [lia|done|done].
Qed.

Lemma mutate_locus_step unif rates hap k loc hap' k' :
  mutate_locus unif rates (hap, k) loc = Ok (hap', k') ->
  hap' = hap
  \/ exists a v, hap !! loc = Some a /\ hap' = <[loc := v]> hap /\ (v = a - 1 \/ v = a + 1).
Proof.
  unfold mutate_locus. destruct (vec_nth rates loc) as [r| | |]; cbn [obind];
    try discriminate.
  destruct (Qltb (unif k) r); [|intros [= <- _]; now left].
  destruct (vec_nth hap loc) as [a| | |] eqn:Ha; cbn [obind]; try discriminate.
  apply vec_nth_Ok in Ha.
  destruct (Qltb (unif (S k)) half); intros [= <- _]; right; exists a; eauto.
Qed.

(** Property X1. A successful [haplotype_mutate] changes nothing but the haplotype:
    the number of loci stays, and every allele is the old one, one less or
    one more. *)
Theorem haplotype_mutate_moves_one_step unif rates this k x' k' :
  haplotype_mutate unif rates this k = Ok (x', k') ->
  x' = with_haplotype (m_haplotype x') true this
  /\ length (m_haplotype x') = length (m_haplotype this)
  /\ forall i a b, m_haplotype this !! i = Some a -> m_haplotype x' !! i = Some b ->
       one_step a b.
Proof.
  unfold haplotype_mutate.
  destruct (m_haplotype_set this) eqn:Hs; cbn [negb]; [|discriminate].
  destruct (negb _); [discriminate|].
  destruct (m_haplotype_mutated this); [discriminate|].
  destruct (ofold _ _ _) as [[hap k1]| | |] eqn:E; cbn [obind]; try discriminate.
  intros [= <- <-]. cbn. split; [done|].
  destruct (loci_loop (mutate_locus unif rates) (fun _ a v => v = a - 1 \/ v = a + 1)
              (mutate_locus_step unif rates)
              (length (m_haplotype this)) O (m_haplotype this) (m_haplotype this) k hap k1)
    as [Hlen Hall]; auto; try (intros; lia).
Qed.

Lemma haplotype_mutate_moves_one_step_witness :
  carrier [-1] = with_haplotype (m_haplotype (carrier [-1])) true (carrier [0])
  /\ length (m_haplotype (carrier [-1])) = length (m_haplotype (carrier [0]))
  /\ forall i a b, m_haplotype (carrier [0]) !! i = Some a ->
       m_haplotype (carrier [-1]) !! i = Some b -> one_step a b.
Proof.
  apply (haplotype_mutate_moves_one_step (fun _ => 0%Q) [1%Q] (carrier [0]) 0
           (carrier [-1]) 2).
  reflexivity.
Defined.

Lemma Qltb_false_nonpositive (u r : Q) : (0 <= u)%Q -> (r <= 0)%Q -> Qltb u r = false.
Proof.
  intros Hu Hr. unfold Qltb. apply negb_false_iff. apply Qle_bool_iff.
  eapply Qle_trans; eauto.
Qed.

Lemma with_haplotype_same (x : Individual) :
  m_haplotype_set x = true -> with_haplotype (m_haplotype x) true x = x.
Proof. destruct x. cbn. now intros ->. Qed.

Lemma quiet_loop (f : list Z * nat -> nat -> outcome (list Z * nat)) (n : nat) :
  forall s hap k,
  (forall loc k, (s <= loc < s + n)%nat -> f (hap, k) loc = Ok (hap, S k)) ->
  ofold f (seq s n) (hap, k) = Ok (hap, (k + n)%nat).
Proof.
  induction n as [|n IH]; intros s hap k Hf.
  - cbn. now rewrite Nat.add_0_r.
  - cbn [seq ofold]. rewrite Hf by lia. cbn [obind]. rewrite IH.
    + do 2 f_equal. lia.
    + intros loc k1 Hloc. apply Hf. lia.
Qed.

(** Property X2. With mutation rates that are all zero (or below) and draws that are
    never negative, both mutation functions return the individual as it
    was, after one draw per locus. The ladder is not looked at. *)
Theorem mutation_rate_zero_changes_nothing unif rates ladder_min ladder_max this k :
  (forall j, (0 <= unif j)%Q) ->
  Forall (fun r => (r <= 0)%Q) rates ->
  m_haplotype_set this = true ->
  m_haplotype_mutated this = false ->
  length (m_haplotype this) = length rates ->
  haplotype_mutate unif rates this k = Ok (this, (k + length rates)%nat)
  /\ haplotype_mutate_ladder_bounded unif rates ladder_min ladder_max this k
     = Ok (this, (k + length rates)%nat).
Proof.
  intros Hu Hr Hs Hm Hlen.
  assert (Hrate : forall loc, (loc < length rates)%nat ->
            exists r, rates !! loc = Some r /\ (r <= 0)%Q).
  { intros loc Hloc. destruct (lookup_lt_is_Some_2 rates loc Hloc) as [r Hrl].
    exists r. split; [done|]. rewrite Forall_forall in Hr. apply Hr.
    eapply list_elem_of_lookup_2; eauto. }
  unfold haplotype_mutate, haplotype_mutate_ladder_bounded.
  rewrite Hs, Hm, Hlen, Nat.eqb_refl. cbn [negb]. split.
  - rewrite quiet_loop.
    + cbn [obind]. now rewrite with_haplotype_same.
    + intros loc j Hloc. unfold mutate_locus, vec_nth.
      destruct (Hrate loc) as (r & -> & Hle); [lia|]. cbn [obind].
      now rewrite Qltb_false_nonpositive.
  - rewrite quiet_loop.
    + cbn [obind]. now rewrite with_haplotype_same.
    + intros loc j Hloc. unfold mutate_locus_ladder_bounded, vec_nth.
      destruct (Hrate loc) as (r & -> & Hle); [lia|]. cbn [obind].
      now rewrite Qltb_false_nonpositive.
Qed.

Lemma mutation_rate_zero_changes_nothing_witness :
  haplotype_mutate all_zero [0%Q; 0%Q] (carrier [4; 5]) 0 = Ok (carrier [4; 5], 2%nat)
  /\ haplotype_mutate_ladder_bounded all_zero [0%Q; 0%Q] [] [] (carrier [4; 5]) 0
     = Ok (carrier [4; 5], 2%nat).
Proof.
  apply (mutation_rate_zero_changes_nothing all_zero [0%Q; 0%Q] [] [] (carrier [4; 5]) 0).
  - intros j. apply Qle_refl.
  - repeat constructor; apply Qle_refl.
  - reflexivity.
  - reflexivity.
  - reflexivity.
Defined.

(** ** The ladder *)

Lemma ladder_locus_step unif rates ladder_min ladder_max hap k loc hap' k' :
  mutate_locus_ladder_bounded unif rates ladder_min ladder_max (hap, k) loc = Ok (hap', k') ->
  hap' = hap
  \/ exists a v, hap !! loc = Some a /\ hap' = <[loc := v]> hap
       /\ exists lo hi, ladder_min !! loc = Some lo /\ ladder_max !! loc = Some hi
            /\ lo <= a <= hi
            /\ (a = lo -> v = a + 1)
            /\ (a <> lo -> a = hi -> v = a - 1)
            /\ (v = a - 1 \/ v = a + 1).
Proof.
  unfold mutate_locus_ladder_bounded.
  destruct (vec_nth rates loc) as [r| | |]; cbn [obind]; try discriminate.
  destruct (Qltb (unif k) r); [|intros [= <- _]; now left].
  destruct (vec_nth hap loc) as [a| | |] eqn:Ha; cbn [obind]; try discriminate.
  destruct (vec_nth ladder_min loc) as [lo| | |] eqn:Hlo; cbn [obind]; try discriminate.
  destruct (Z.ltb_spec a lo); [discriminate|].
  destruct (vec_nth ladder_max loc) as [hi| | |] eqn:Hhi; cbn [obind]; try discriminate.
  destruct (Z.ltb_spec hi a); [discriminate|].
  apply vec_nth_Ok in Ha, Hlo, Hhi.
  intros Hres. right. exists a.
  destruct (Z.eqb_spec a lo) as [->|Hne].
  { injection Hres as <- _. exists (lo + 1). repeat split; auto.
    exists lo, hi. repeat split; auto; lia. }
  destruct (Z.eqb_spec a hi) as [->|Hne'].
  { injection Hres as <- _. exists (hi - 1). repeat split; auto.
    exists lo, hi. repeat split; auto; lia. }
  destruct (Qltb (unif (S k)) half); injection Hres as <- _.
  - exists (a - 1). repeat split; auto. exists lo, hi. repeat split; auto; lia.
  - exists (a + 1). repeat split; auto. exists lo, hi. repeat split; auto; lia.
Qed.

(** Property X3. Whenever [haplotype_mutate_ladder_bounded] returns, an allele that
    changed was on the ladder of its locus and moved by one step: up from
    the lower end, down from the upper end (when that is not the lower
    end). On a ladder with more than one allele the new allele is on the
    ladder too. *)
Theorem ladder_bounded_changes_on_the_ladder unif rates ladder_min ladder_max this k x' k' :
  haplotype_mutate_ladder_bounded unif rates ladder_min ladder_max this k = Ok (x', k') ->
  length (m_haplotype x') = length (m_haplotype this)
  /\ forall i a b,
       m_haplotype this !! i = Some a -> m_haplotype x' !! i = Some b -> b <> a ->
       exists lo hi,
         ladder_min !! i = Some lo /\ ladder_max !! i = Some hi
         /\ lo <= a <= hi
         /\ (b = a - 1 \/ b = a + 1)
         /\ (a = lo -> b = a + 1)
         /\ (lo < a -> a = hi -> b = a - 1)
         /\ (lo < hi -> lo <= b <= hi).
Proof.
  unfold haplotype_mutate_ladder_bounded.
  destruct (m_haplotype_set this) eqn:Hs; cbn [negb]; [|discriminate].
  destruct (negb _); [discriminate|].
  destruct (m_haplotype_mutated this); [discriminate|].
  destruct (ofold _ _ _) as [[hap k1]| | |] eqn:E; cbn [obind]; try discriminate.
  intros [= <- <-]. cbn.
  destruct (loci_loop (mutate_locus_ladder_bounded unif rates ladder_min ladder_max)
              (fun loc a v =>
                 exists lo hi, ladder_min !! loc = Some lo /\ ladder_max !! loc = Some hi
                   /\ lo <= a <= hi
                   /\ (a = lo -> v = a + 1)
                   /\ (a <> lo -> a = hi -> v = a - 1)
                   /\ (v = a - 1 \/ v = a + 1))
              (ladder_locus_step unif rates ladder_min ladder_max)
              (length (m_haplotype this)) O (m_haplotype this) (m_haplotype this) k hap k1)
    as [Hlen Hall]; auto; try (intros; lia).
  split; [done|]. intros i a b Ha Hb Hne.
  destruct (Hall i a b Ha Hb) as [->|(lo & hi & Hlo & Hhi & Hin & H1 & H2 & H3)]; [done|].
  exists lo, hi.
  refine (conj Hlo (conj Hhi (conj Hin (conj H3 (conj H1 (conj _ _)))))).
  - intros Hlt Heq. apply H2; lia.
  - intros Hlt. destruct (Z.eq_dec a lo) as [Hal|Hal]; [specialize (H1 Hal); lia|].
    destruct (Z.eq_dec a hi) as [Hah|Hah]; [specialize (H2 Hal Hah); lia|]. lia.
Qed.

Lemma ladder_bounded_changes_on_the_ladder_witness :
  length (m_haplotype (carrier [6])) = length (m_haplotype (carrier [5]))
  /\ forall i a b,
       m_haplotype (carrier [5]) !! i = Some a -> m_haplotype (carrier [6]) !! i = Some b ->
       b <> a ->
       exists lo hi,
         [5] !! i = Some lo /\ [8] !! i = Some hi
         /\ lo <= a <= hi
         /\ (b = a - 1 \/ b = a + 1)
         /\ (a = lo -> b = a + 1)
         /\ (lo < a -> a = hi -> b = a - 1)
         /\ (lo < hi -> lo <= b <= hi).
Proof.
  apply (ladder_bounded_changes_on_the_ladder all_zero [1%Q] [5] [8] (carrier [5]) 0
           (carrier [6]) 1).
  reflexivity.
Defined.

Lemma ladder_loop_total unif rates ladder_min ladder_max hap0 (n : nat) :
  length hap0 = length rates ->
  on_ladder hap0 ladder_min ladder_max ->
  forall s cur k,
  length cur = length hap0 ->
  (forall i, (s <= i)%nat -> cur !! i = hap0 !! i) ->
  (s + n <= length rates)%nat ->
  exists st', ofold (mutate_locus_ladder_bounded unif rates ladder_min ladder_max)
                (seq s n) (cur, k) = Ok st'.
Proof.
  intros Hlen Hon. induction n as [|n IH]; intros s cur k Hcur Hsame Hs.
  - cbn. eauto.
  - cbn [seq ofold].
    assert (E : exists hap1 k1,
              mutate_locus_ladder_bounded unif rates ladder_min ladder_max (cur, k) s
              = Ok (hap1, k1)).
    { unfold mutate_locus_ladder_bounded.
      destruct (vec_nth_lt rates s) as [r ->]; [lia|]. cbn [obind].
      destruct (Qltb (unif k) r); [|eauto].
      destruct (lookup_lt_is_Some_2 hap0 s) as [a Ha]; [lia|].
      destruct (Hon s a Ha) as (lo & hi & Hlo & Hhi & Hin).
      unfold vec_nth. rewrite (Hsame s) by lia. rewrite Ha, Hlo. cbn [obind].
      destruct (Z.ltb_spec a lo); [lia|]. rewrite Hhi. cbn [obind].
      destruct (Z.ltb_spec hi a); [lia|].
      destruct (a =? lo); [eauto|]. destruct (a =? hi); [eauto|].
      destruct (Qltb (unif (S k)) half); eauto. }
    destruct E as (hap1 & k1 & E). rewrite E. cbn [obind].
    destruct (ladder_locus_step _ _ _ _ _ _ _ _ _ E) as [->|(a & v & _ & -> & _)].
    + apply IH; auto; [intros i Hi; apply Hsame; lia | lia].
    + apply IH.
      * now rewrite length_insert.
      * intros i Hi. rewrite list_lookup_insert_ne by lia. apply Hsame. lia.
      * lia.
Qed.

(** Property X4. For an individual with a set haplotype whose alleles all lie on
    ladders of more than one allele, [haplotype_mutate_ladder_bounded]
    returns (it does not throw) and the new haplotype lies on the ladders
    again, whatever the rates and the draws. *)
Theorem ladder_bounded_stays_on_the_ladder unif rates ladder_min ladder_max this k :
  m_haplotype_set this = true ->
  m_haplotype_mutated this = false ->
  length (m_haplotype this) = length rates ->
  on_ladder (m_haplotype this) ladder_min ladder_max ->
  ladder_open ladder_min ladder_max ->
  exists x' k',
    haplotype_mutate_ladder_bounded unif rates ladder_min ladder_max this k = Ok (x', k')
    /\ length (m_haplotype x') = length (m_haplotype this)
    /\ on_ladder (m_haplotype x') ladder_min ladder_max.
Proof.
  intros Hs Hm Hlen Hon Hopen.
  unfold haplotype_mutate_ladder_bounded.
  rewrite Hs, Hm, Hlen, Nat.eqb_refl. cbn [negb].
  destruct (ladder_loop_total unif rates ladder_min ladder_max (m_haplotype this)
              (length rates) Hlen Hon O (m_haplotype this) k
              eq_refl (fun i _ => eq_refl) (Nat.le_refl _)) as ([hap k1] & E).
  rewrite E. cbn [obind]. eexists _, _. split; [reflexivity|]. cbn.
  rewrite <- Hlen in E.
  destruct (loci_loop (mutate_locus_ladder_bounded unif rates ladder_min ladder_max)
              (fun loc a v =>
                 exists lo hi, ladder_min !! loc = Some lo /\ ladder_max !! loc = Some hi
                   /\ lo <= a <= hi
                   /\ (a = lo -> v = a + 1)
                   /\ (a <> lo -> a = hi -> v = a - 1)
                   /\ (v = a - 1 \/ v = a + 1))
              (ladder_locus_step unif rates ladder_min ladder_max)
              (length (m_haplotype this)) O (m_haplotype this) (m_haplotype this) k hap k1)
    as [Hl Hall]; auto; try (intros; lia).
  split; [congruence|].
  intros i b Hb.
  destruct (lookup_lt_is_Some_2 (m_haplotype this) i) as [a Ha].
  { rewrite <- Hl. eapply lookup_lt_Some; eauto. }
  destruct (Hall i a b Ha Hb) as [->|(lo & hi & Hlo & Hhi & Hin & H1 & H2 & H3)].
  - exact (Hon i a Ha).
  - exists lo, hi. refine (conj Hlo (conj Hhi _)).
    pose proof (Hopen i lo hi Hlo Hhi) as Hlt.
    destruct (Z.eq_dec a lo) as [Hal|Hal]; [specialize (H1 Hal); lia|].
    destruct (Z.eq_dec a hi) as [Hah|Hah]; [specialize (H2 Hal Hah); lia|]. lia.
Qed.

Lemma ladder_bounded_stays_on_the_ladder_witness :
  exists x' k',
    haplotype_mutate_ladder_bounded all_zero [1%Q; 1%Q] [5; 0] [8; 3] (carrier [5; 3]) 0
    = Ok (x', k')
    /\ length (m_haplotype x') = length (m_haplotype (carrier [5; 3]))
    /\ on_ladder (m_haplotype x') [5; 0] [8; 3].
Proof.
  apply (ladder_bounded_stays_on_the_ladder all_zero [1%Q; 1%Q] [5; 0] [8; 3]
           (carrier [5; 3]) 0).
  - reflexivity.
  - reflexivity.
  - reflexivity.
  - intros [|[|i]] a Ha; cbn in Ha; try discriminate; injection Ha as <-;
      eexists _, _; (split; [reflexivity|split; [reflexivity|lia]]).
  - intros [|[|i]] lo hi Hlo Hhi; cbn in Hlo, Hhi; try discriminate;
      injection Hlo as <-; injection Hhi as <-; lia.
Defined.

(** ** [possible_mutate_index] *)

Lemma possible_mutate_index_Ok unif index rate max k j k' :
  possible_mutate_index unif index rate max k = Ok (j, k') ->
  1 <= max /\ (0 <= index <= max -> 0 <= j <= max).
Proof.
  unfold possible_mutate_index.
  destruct (Z.leb_spec max 0); [discriminate|]. split; [lia|]. intros Hi. revert H0.
  destruct (negb _); [intros [= <- _]; lia|].
  destruct (Z.eqb_spec index 0); [intros [= <- _]; lia|].
  destruct (Z.eqb_spec index max); [intros [= <- _]; lia|].
  destruct (Qltb _ half); intros [= <- _]; lia.
Qed.

(** Property X5. For [max >= 1] and an index between 0 and [max],
    [possible_mutate_index] returns an index between 0 and [max]: the same
    index after one draw when no mutation happens, a neighbouring one after
    one or two draws when it does. *)
Theorem possible_mutate_index_stays_in_range unif index rate max k :
  1 <= max -> 0 <= index <= max ->
  exists j k',
    possible_mutate_index unif index rate max k = Ok (j, k')
    /\ 0 <= j <= max
    /\ (Qltb (unif k) rate = false -> j = index /\ k' = S k)
    /\ (Qltb (unif k) rate = true -> (j = index - 1 \/ j = index + 1)
                                     /\ (S k <= k' <= S (S k))%nat).
Proof.
  intros Hmax Hi. unfold possible_mutate_index.
  destruct (Z.leb_spec max 0); [lia|].
  destruct (Qltb (unif k) rate); cbn [negb].
  - destruct (Z.eqb_spec index 0) as [->|H0].
    { eexists _, _. split; [reflexivity|]. repeat split; try lia; discriminate. }
    destruct (Z.eqb_spec index max) as [->|H1].
    { eexists _, _. split; [reflexivity|]. repeat split; try lia; discriminate. }
    destruct (Qltb _ half); eexists _, _; (split; [reflexivity|]);
      repeat split; try lia; discriminate.
  - eexists _, _. split; [reflexivity|]. repeat split; try lia; discriminate.
Qed.

Lemma possible_mutate_index_stays_in_range_witness :
  exists j k',
    possible_mutate_index all_zero 3 1%Q 3 0 = Ok (j, k')
    /\ 0 <= j <= 3
    /\ (Qltb (all_zero 0%nat) 1%Q = false -> j = 3 /\ k' = 1%nat)
    /\ (Qltb (all_zero 0%nat) 1%Q = true -> (j = 3 - 1 \/ j = 3 + 1)
                                            /\ (1 <= k' <= 2)%nat).
Proof.
  apply (possible_mutate_index_stays_in_range all_zero 3 1%Q 3 0); lia.
Defined.

(** ** Autosomal genotypes handed to the children *)

Lemma scan_cumdist_range (u : Q) (cumdist : list Q) :
  forall i, 0 <= i ->
  scan_cumdist u cumdist i = 0
  \/ i <= scan_cumdist u cumdist i < i + Z.of_nat (length cumdist).
Proof.
  induction cumdist as [|c rest IH]; intros i Hi; cbn [scan_cumdist]; [now left|].
  destruct (Qle_bool u c).
  - right. cbn [length]. lia.
  - destruct (IH (i + 1)) as [->|H]; [lia|now left|]. right. cbn [length]. lia.
Qed.

Lemma draw_mother_allele_range (u : Q) (cumdist : list Q) (m : Z) :
  draw_mother_allele u cumdist = Ok m -> 0 <= m < Z.of_nat (length cumdist).
Proof.
  unfold draw_mother_allele.
  destruct (vec_at cumdist 0) as [c0| | |] eqn:E; cbn [obind]; try discriminate.
  apply vec_at_Ok in E as [_ E]. apply lookup_lt_Some in E.
  destruct cumdist as [|c rest]; [cbn in E; lia|]. cbn [tl length].
  destruct (Qltb c0 u); intros [= <-]; [|lia].
  destruct (scan_cumdist_range u rest 1) as [->|H]; lia.
Qed.

Lemma set_haplotype_twice (g g' : list Z) (c : Individual) :
  set_haplotype g' (set_haplotype g c) = set_haplotype g' c.
Proof. reflexivity. Qed.

Lemma autosomal_child_writes unif cumdists rate this child h k h1 k1 :
  square cumdists ->
  autosomal_child unif cumdists rate this child (h, k) = Ok (h1, k1) ->
  exists c geno, h !! child = Some c /\ h1 = <[child := set_haplotype geno c]> h
                 /\ genotype_over (Z.of_nat (length cumdists)) geno.
Proof.
  intros Hsq. unfold autosomal_child.
  destruct (deref h this) as [x| | |]; cbn [obind]; try discriminate.
  destruct (if Qltb (unif k) half then _ else _) as [fa| | |]; cbn [obind]; try discriminate.
  destruct (vec_at cumdists fa) as [cumdist| | |] eqn:Erow; cbn [obind]; try discriminate.
  apply vec_at_Ok in Erow as [Hfa Erow].
  assert (Hlen : length cumdist = length cumdists).
  { unfold square in Hsq. rewrite Forall_forall in Hsq. apply Hsq.
    eapply list_elem_of_lookup_2; eauto. }
  apply lookup_lt_Some in Erow.
  destruct (draw_mother_allele _ cumdist) as [ma| | |] eqn:Em; cbn [obind]; try discriminate.
  apply draw_mother_allele_range in Em.
  destruct (possible_mutate_index unif fa _ _ _) as [[g0 k2]| | |] eqn:E0; cbn [obind];
    try discriminate.
  destruct (possible_mutate_index unif ma _ _ _) as [[g1 k3]| | |] eqn:E1; cbn [obind];
    try discriminate.
  apply possible_mutate_index_Ok in E0 as [_ H0], E1 as [_ H1].
  unfold deref. destruct (h !! child) as [c|] eqn:Ec; cbn [obind]; try discriminate.
  intros [= <- _]. exists c. eexists. split; [reflexivity|]. split; [reflexivity|].
  rewrite Hlen in *.
  destruct (Z.leb_spec g1 g0); eexists _, _; (split; [reflexivity|]); lia.
Qed.

Lemma written_after (P : list Z -> Prop) (h h1 h2 : heap) (p : addr) :
  haplotype_written P h h1 p ->
  (forall q, h2 !! q = h1 !! q \/ haplotype_written P h1 h2 q) ->
  haplotype_written P h h2 p.
Proof.
  intros (c & g & Hc & Hc1 & Hg) H12.
  destruct (H12 p) as [E|(c1 & g' & Hc1' & Hc2 & Hg')].
  - exists c, g. now rewrite E.
  - exists c, g'. rewrite Hc1 in Hc1'. injection Hc1' as <-. now rewrite Hc2.
Qed.

Lemma written_before (P : list Z -> Prop) (h h1 h2 : heap) (p : addr) :
  (forall q, h1 !! q = h !! q \/ haplotype_written P h h1 q) ->
  haplotype_written P h1 h2 p ->
  haplotype_written P h h2 p.
Proof.
  intros H01 (c1 & g' & Hc1 & Hc2 & Hg').
  destruct (H01 p) as [E|(c & g & Hc & Hc1' & Hg)].
  - exists c1, g'. now rewrite <- E.
  - exists c, g'. rewrite Hc1 in Hc1'. injection Hc1' as ->. now rewrite Hc2.
Qed.

Lemma written_frame_trans (P : list Z -> Prop) (h h1 h2 : heap) :
  (forall q, h1 !! q = h !! q \/ haplotype_written P h h1 q) ->
  (forall q, h2 !! q = h1 !! q \/ haplotype_written P h1 h2 q) ->
  forall q, h2 !! q = h !! q \/ haplotype_written P h h2 q.
Proof.
  intros H01 H12 q. destruct (H12 q) as [E|W].
  - destruct (H01 q) as [E1|(c & g & Hc & Hc1 & Hg)].
    + left. congruence.
    + right. exists c, g. now rewrite E.
  - right. eapply written_before; eauto.
Qed.

Lemma written_insert (P : list Z -> Prop) (h : heap) (p : addr) (c : Individual)
    (hap : list Z) :
  h !! p = Some c -> P hap ->
  (forall q, <[p := set_haplotype hap c]> h !! q = h !! q
             \/ haplotype_written P h (<[p := set_haplotype hap c]> h) q)
  /\ haplotype_written P h (<[p := set_haplotype hap c]> h) p.
Proof.
  intros Hc HP.
  assert (W : haplotype_written P h (<[p := set_haplotype hap c]> h) p).
  { exists c, hap. rewrite lookup_insert_eq. auto. }
  split; [|exact W]. intros q. destruct (decide (q = p)) as [->|Hne].
  - now right.
  - left. now rewrite lookup_insert_ne.
Qed.

Lemma autosomal_child_frame unif cumdists rate this child h k h1 k1 :
  square cumdists ->
  autosomal_child unif cumdists rate this child (h, k) = Ok (h1, k1) ->
  (forall q, h1 !! q = h !! q \/ genotype_written (Z.of_nat (length cumdists)) h h1 q)
  /\ genotype_written (Z.of_nat (length cumdists)) h h1 child.
Proof.
  intros Hsq E. destruct (autosomal_child_writes _ _ _ _ _ _ _ _ _ Hsq E)
    as (c & g & Hc & -> & Hg).
  now apply (written_insert (genotype_over (Z.of_nat (length cumdists)))).
Qed.

Lemma autosomal_pass_frame unif recursive cumdists rate :
  square cumdists ->
  forall fuel this st st',
  pass_autosomal_to_children unif fuel recursive cumdists rate this st = Ok st' ->
  (forall q, fst st' !! q = fst st !! q
             \/ genotype_written (Z.of_nat (length cumdists)) (fst st) (fst st') q)
  /\ (forall x child, fst st !! this = Some x -> child ∈ m_children x ->
        genotype_written (Z.of_nat (length cumdists)) (fst st) (fst st') child).
Proof.
  intros Hsq. induction fuel as [|fuel IH]; intros this st st'; [discriminate|].
  cbn [pass_autosomal_to_children]. unfold deref at 1.
  destruct (fst st !! this) as [x|] eqn:Ex; cbn [obind]; [|discriminate].
  intros E.
  enough (Hloop : forall l st st',
    ofold (fun st child =>
             let! st1 := autosomal_child unif cumdists rate this child st in
             if recursive
             then pass_autosomal_to_children unif fuel recursive cumdists rate child st1
             else Ok st1) l st = Ok st' ->
    (forall q, fst st' !! q = fst st !! q
               \/ genotype_written (Z.of_nat (length cumdists)) (fst st) (fst st') q)
    /\ (forall child, child ∈ l ->
          genotype_written (Z.of_nat (length cumdists)) (fst st) (fst st') child)).
  { destruct (Hloop _ _ _ E) as [HF HW]. split; [exact HF|].
    intros x0 child [= <-] Hin. now apply HW. }
  clear E st st' Ex. induction l as [|child l IHl]; intros st st'; cbn [ofold].
  - intros [= <-]. split; [now left|]. intros child Hin. inversion Hin.
  - destruct st as [h k].
    destruct (autosomal_child unif cumdists rate this child (h, k)) as [[h1 k1]| | |] eqn:E1;
      cbn [obind]; try discriminate.
    destruct (autosomal_child_frame _ _ _ _ _ _ _ _ _ Hsq E1) as [F1 W1].
    assert (Hrec : forall st2,
      (if recursive
       then pass_autosomal_to_children unif fuel recursive cumdists rate child (h1, k1)
       else Ok (h1, k1)) = Ok st2 ->
      forall q, fst st2 !! q = h1 !! q
                \/ genotype_written (Z.of_nat (length cumdists)) h1 (fst st2) q).
    { intros st2. destruct recursive.
      - intros E2. apply (IH _ _ _ E2).
      - intros [= <-]. now left. }
    destruct (if recursive then _ else _) as [st2| | |] eqn:E2; cbn [obind]; try discriminate.
    specialize (Hrec st2 eq_refl). intros E3.
    destruct (IHl _ _ E3) as [F3 W3]. cbn [fst].
    assert (F02 : forall q, fst st2 !! q = h !! q
                \/ genotype_written (Z.of_nat (length cumdists)) h (fst st2) q).
    { eapply written_frame_trans; eauto. }
    split.
    + eapply written_frame_trans; eauto.
    + intros c Hin. apply elem_of_cons in Hin as [->|Hin].
      * eapply written_after; [|exact F3]. eapply written_after; eauto.
      * eapply written_before; [exact F02|]. now apply W3.
Qed.

(** Property X6. With a square table of cumulative distributions, a successful
    [pass_autosomal_to_children], recursive or not, gives every child of
    the individual a genotype of two allele indices within the table,
    smaller one first, and touches no individual in any other way. *)
Theorem autosomal_pass_writes_sorted_genotypes unif fuel recursive cumdists rate this
    h k h' k' x :
  square cumdists ->
  h !! this = Some x ->
  pass_autosomal_to_children unif fuel recursive cumdists rate this (h, k) = Ok (h', k') ->
  (forall child, child ∈ m_children x ->
     genotype_written (Z.of_nat (length cumdists)) h h' child)
  /\ (forall q, h' !! q = h !! q
                \/ genotype_written (Z.of_nat (length cumdists)) h h' q).
Proof.
  intros Hsq Hx E.
  destruct (autosomal_pass_frame unif recursive cumdists rate Hsq fuel this _ _ E)
    as [HF HW]. cbn [fst] in HF, HW.
  split.
  - intros child Hin. exact (HW x child Hx Hin).
  - exact HF.
Qed.

Lemma autosomal_pass_writes_sorted_genotypes_witness :
  (forall child, child ∈ [2%positive] ->
     genotype_written 2 autosomal_household
       (<[ 2%positive := set_haplotype [0; 0]
                           (with_father (Some 1%positive) (new_Individual 2 0)) ]>
          autosomal_household) child)
  /\ (forall q,
        <[ 2%positive := set_haplotype [0; 0]
                           (with_father (Some 1%positive) (new_Individual 2 0)) ]>
          autosomal_household !! q = autosomal_household !! q
        \/ genotype_written 2 autosomal_household
             (<[ 2%positive := set_haplotype [0; 0]
                                 (with_father (Some 1%positive) (new_Individual 2 0)) ]>
                autosomal_household) q).
Proof.
  apply (autosomal_pass_writes_sorted_genotypes all_zero 2 true even_table 0%Q 1%positive
           autosomal_household 0
           (<[ 2%positive := set_haplotype [0; 0]
                               (with_father (Some 1%positive) (new_Individual 2 0)) ]>
              autosomal_household) 4
           (with_children [2%positive] (set_haplotype [0; 1] (new_Individual 1 1)))).
  - repeat constructor.
  - reflexivity.
  - vm_compute. reflexivity.
Defined.

(** ** The L1 distance between haplotypes *)

Lemma int_result_Ok (z z' : Z) :
  int_result z = Ok z' -> z' = z /\ int_min <= z <= int_max.
Proof.
  unfold int_result. destruct (Z.leb_spec int_min z), (Z.leb_spec z int_max);
    cbn; try discriminate. intros [= <-]. lia.
Qed.

Lemma int_result_in (z : Z) : int_min <= z <= int_max -> int_result z = Ok z.
Proof.
  intros H. unfold int_result.
  destruct (Z.leb_spec int_min z), (Z.leb_spec z int_max); cbn; auto; lia.
Qed.

Lemma int_result_out (z : Z) : ~ int_min <= z <= int_max -> int_result z = Undefined.
Proof.
  intros H. unfold int_result.
  destruct (Z.leb_spec int_min z), (Z.leb_spec z int_max); cbn; auto; lia.
Qed.

Lemma abs_difference (a b : Z) :
  (let! diff := int_result (a - b) in int_result (Z.abs diff))
  = if Z.abs (a - b) <=? int_max then Ok (Z.abs (a - b)) else Undefined.
Proof.
  assert (Hm : int_min = -2147483648) by reflexivity.
  assert (HM : int_max = 2147483647) by reflexivity.
  destruct (Z.leb_spec (Z.abs (a - b)) int_max).
  - rewrite int_result_in by lia. cbn [obind]. apply int_result_in. lia.
  - destruct (Z_le_gt_dec int_min (a - b)) as [Hlo|Hlo].
    + destruct (Z_le_gt_dec (a - b) int_max) as [Hhi|Hhi].
      * rewrite int_result_in by lia. cbn [obind]. apply int_result_out. lia.
      * rewrite int_result_out by lia. reflexivity.
    + rewrite int_result_out by lia. reflexivity.
Qed.

Lemma L1_loop_step (a b : Z) (l1 l2 : list Z) (d : Z) :
  L1_loop (a :: l1) (b :: l2) d
  = if Z.abs (a - b) <=? int_max
    then let! d' := int_result (d + Z.abs (a - b)) in L1_loop l1 l2 d'
    else Undefined.
Proof.
  cbn [L1_loop]. pose proof (abs_difference a b) as E.
  destruct (int_result (a - b)) as [diff| | |]; cbn [obind] in *.
  - rewrite E. now destruct (Z.abs (a - b) <=? int_max).
  - destruct (Z.abs (a - b) <=? int_max); discriminate.
  - now destruct (Z.abs (a - b) <=? int_max).
  - destruct (Z.abs (a - b) <=? int_max); discriminate.
Qed.

Lemma L1_loop_sym (l1 : list Z) : forall l2 d, L1_loop l1 l2 d = L1_loop l2 l1 d.
Proof.
  induction l1 as [|a l1 IH]; intros [|b l2] d; try reflexivity.
  rewrite !L1_loop_step. replace (b - a) with (- (a - b)) by lia. rewrite Z.abs_opp.
  destruct (Z.abs (a - b) <=? int_max); [|reflexivity].
  destruct (int_result _); cbn [obind]; auto.
Qed.

(** Property X7. [get_haplotype_L1] is symmetric in its two individuals: it returns
    the same distance, throws the same exception or is undefined (a
    dangling individual, an overflow of [int]) in both directions. *)
Theorem haplotype_L1_symmetric (h : heap) (a b : addr) :
  get_haplotype_L1 h a b = get_haplotype_L1 h b a.
Proof.
  unfold get_haplotype_L1, deref.
  destruct (h !! a) as [x|], (h !! b) as [y|]; cbn [obind]; try reflexivity.
  rewrite (Nat.eqb_sym (length (m_haplotype y))).
  destruct (negb _); [reflexivity|]. apply L1_loop_sym.
Qed.

Lemma L1_loop_zero (l1 : list Z) :
  forall l2 d0 d, length l1 = length l2 -> L1_loop l1 l2 d0 = Ok d ->
  d0 <= d /\ (d = d0 <-> l1 = l2).
Proof.
  induction l1 as [|a l1 IH]; intros [|b l2] d0 d Hlen; try discriminate.
  - intros [= <-]. split; [lia|]. tauto.
  - rewrite L1_loop_step. destruct (Z.abs (a - b) <=? int_max); [|discriminate].
    destruct (int_result _) as [d'| | |] eqn:Ed; cbn [obind]; try discriminate.
    apply int_result_Ok in Ed as [-> _]. intros E.
    injection Hlen as Hlen. destruct (IH _ _ _ Hlen E) as [Hle Hiff].
    split; [lia|]. split.
    + intros ->. assert (a = b) by lia. subst b. f_equal. apply Hiff. lia.
    + intros [= <- <-]. rewrite Z.sub_diag in *. cbn in *.
      rewrite Z.add_0_r in *. now apply Hiff.
Qed.

(** Property X8. A distance returned by [get_haplotype_L1] is not negative, and it
    is zero exactly when the two haplotypes are equal. *)
Theorem haplotype_L1_zero_iff_equal (h : heap) (a b : addr) (x y : Individual) (d : Z) :
  h !! a = Some x -> h !! b = Some y ->
  get_haplotype_L1 h a b = Ok d ->
  0 <= d /\ (d = 0 <-> m_haplotype x = m_haplotype y).
Proof.
  intros Ha Hb. unfold get_haplotype_L1, deref. rewrite Ha, Hb. cbn [obind].
  destruct (Nat.eqb_spec (length (m_haplotype x)) (length (m_haplotype y))) as [Hlen|];
    cbn [negb]; [|discriminate].
  intros E. exact (L1_loop_zero _ _ _ _ Hlen E).
Qed.

Lemma haplotype_L1_zero_iff_equal_witness :
  0 <= 3 /\ (3 = 0 <-> m_haplotype (carrier [7; 9]) = m_haplotype (carrier [8; 7])).
Proof.
  apply (haplotype_L1_zero_iff_equal (trio [7; 9] [8; 7] [7; 7]) 1%positive 2%positive
           (carrier [7; 9]) (carrier [8; 7]) 3); reflexivity.
Defined.

Lemma L1_loop_triangle (l1 : list Z) :
  forall l2 l3 e1 e2 e3 d1 d2 d3,
  length l1 = length l2 -> length l2 = length l3 ->
  L1_loop l1 l2 e1 = Ok d1 -> L1_loop l2 l3 e2 = Ok d2 -> L1_loop l1 l3 e3 = Ok d3 ->
  e3 <= e1 + e2 -> d3 <= d1 + d2.
Proof.
  induction l1 as [|a l1 IH]; intros [|b l2] [|c l3] e1 e2 e3 d1 d2 d3 H12 H23;
    try discriminate.
  - intros [= <-] [= <-] [= <-]. auto.
  - rewrite !L1_loop_step.
    destruct (Z.abs (a - b) <=? int_max); [|discriminate].
    destruct (Z.abs (b - c) <=? int_max); [|discriminate].
    destruct (Z.abs (a - c) <=? int_max); [|discriminate].
    destruct (int_result (e1 + _)) as [e1'| | |] eqn:E1; cbn [obind]; try discriminate.
    destruct (int_result (e2 + _)) as [e2'| | |] eqn:E2; cbn [obind]; try discriminate.
    destruct (int_result (e3 + _)) as [e3'| | |] eqn:E3; cbn [obind]; try discriminate.
    apply int_result_Ok in E1 as [-> _], E2 as [-> _], E3 as [-> _].
    intros L1 L2 L3 He. injection H12 as H12. injection H23 as H23.
    eapply (IH _ _ _ _ _ _ _ _ H12 H23 L1 L2 L3). lia.
Qed.

(** Property X9. The distances returned by [get_haplotype_L1] satisfy the triangle
    inequality. *)
Theorem haplotype_L1_triangle (h : heap) (a b c : addr) (d_ab d_bc d_ac : Z) :
  get_haplotype_L1 h a b = Ok d_ab ->
  get_haplotype_L1 h b c = Ok d_bc ->
  get_haplotype_L1 h a c = Ok d_ac ->
  d_ac <= d_ab + d_bc.
Proof.
  unfold get_haplotype_L1, deref.
  destruct (h !! a) as [x|]; cbn [obind]; [|discriminate].
  destruct (h !! b) as [y|]; cbn [obind]; [|discriminate].
  destruct (h !! c) as [z|]; cbn [obind]; [|discriminate].
  destruct (Nat.eqb_spec (length (m_haplotype x)) (length (m_haplotype y))) as [H12|];
    cbn [negb]; [|discriminate].
  destruct (Nat.eqb_spec (length (m_haplotype y)) (length (m_haplotype z))) as [H23|];
    cbn [negb]; [|discriminate].
  destruct (Nat.eqb_spec (length (m_haplotype x)) (length (m_haplotype z))) as [H13|];
    cbn [negb]; [|discriminate].
  intros L1 L2 L3. eapply (L1_loop_triangle _ _ _ _ _ _ _ _ _ H12 H23 L1 L2 L3). lia.
Qed.

Lemma haplotype_L1_triangle_witness : 2 <= 3 + 1.
Proof.
  apply (haplotype_L1_triangle (trio [7; 9] [8; 7] [7; 7]) 1%positive 2%positive 3%positive
           3 1 2); reflexivity.
Defined.

(** ** Handing the haplotype down to the children *)






(** ** The ladder-bounded pass through a pedigree *)

Lemma ladder_mutate_on_ladder unif rates ladder_min ladder_max this k x' k' :
  ladder_open ladder_min ladder_max ->
  on_ladder (m_haplotype this) ladder_min ladder_max ->
  haplotype_mutate_ladder_bounded unif rates ladder_min ladder_max this k = Ok (x', k') ->
  x' = with_haplotype (m_haplotype x') (m_haplotype_set this) this
  /\ on_ladder (m_haplotype x') ladder_min ladder_max.
Proof.
  intros Hopen Hon. unfold haplotype_mutate_ladder_bounded.
  destruct (negb (m_haplotype_set this)); [discriminate|].
  destruct (negb _); [discriminate|].
  destruct (m_haplotype_mutated this); [discriminate|].
  destruct (ofold _ _ _) as [[hap k1]| | |] eqn:E; cbn [obind]; try discriminate.
  intros [= <- <-]. cbn. split; [reflexivity|].
  destruct (loci_loop (mutate_locus_ladder_bounded unif rates ladder_min ladder_max)
              (fun loc a v =>
                 exists lo hi, ladder_min !! loc = Some lo /\ ladder_max !! loc = Some hi
                   /\ lo <= a <= hi
                   /\ (a = lo -> v = a + 1)
                   /\ (a <> lo -> a = hi -> v = a - 1)
                   /\ (v = a - 1 \/ v = a + 1))
              (ladder_locus_step unif rates ladder_min ladder_max)
              (length (m_haplotype this)) O (m_haplotype this) (m_haplotype this) k hap k1)
    as [Hl Hall]; auto; try (intros; lia).
  intros i b Hb.
  destruct (lookup_lt_is_Some_2 (m_haplotype this) i) as [a Ha].
  { rewrite <- Hl. eapply lookup_lt_Some; eauto. }
  destruct (Hall i a b Ha Hb) as [->|(lo & hi & Hlo & Hhi & Hin & H1 & H2 & H3)].
  - exact (Hon i a Ha).
  - exists lo, hi. refine (conj Hlo (conj Hhi _)).
    pose proof (Hopen i lo hi Hlo Hhi) as Hlt.
    destruct (Z.eq_dec a lo) as [Hal|Hal]; [specialize (H1 Hal); lia|].
    destruct (Z.eq_dec a hi) as [Hah|Hah]; [specialize (H2 Hal Hah); lia|]. lia.
Qed.

Lemma hand_down_ladder_frame unif rates ladder_min ladder_max this child h k h1 k1 x :
  ladder_open ladder_min ladder_max ->
  h !! this = Some x ->
  on_ladder (m_haplotype x) ladder_min ladder_max ->
  hand_down_ladder_bounded unif rates ladder_min ladder_max this child (h, k) = Ok (h1, k1) ->
  (forall q, h1 !! q = h !! q \/ ladder_written ladder_min ladder_max h h1 q)
  /\ ladder_written ladder_min ladder_max h h1 child.
Proof.
  intros Hopen Hx Hon. unfold hand_down_ladder_bounded, deref. rewrite Hx. cbn [obind].
  destruct (h !! child) as [c|] eqn:Hc; cbn [obind]; [|discriminate].
  destruct (haplotype_mutate_ladder_bounded _ _ _ _ _ _) as [[c' k']| | |] eqn:E;
    cbn [obind]; try discriminate.
  intros [= <- <-].
  apply ladder_mutate_on_ladder in E as [Hc' Hon']; auto.
  rewrite Hc'. change (with_haplotype (m_haplotype c') _ _) with
    (set_haplotype (m_haplotype c') c).
  now apply (written_insert (fun hap => on_ladder hap ladder_min ladder_max)).
Qed.

Lemma ladder_pass_frame unif recursive rates ladder_min ladder_max :
  ladder_open ladder_min ladder_max ->
  forall fuel this st st' x,
  fst st !! this = Some x ->
  on_ladder (m_haplotype x) ladder_min ladder_max ->
  pass_haplotype_to_children_ladder_bounded unif fuel recursive rates ladder_min ladder_max
    this st = Ok st' ->
  (forall q, fst st' !! q = fst st !! q
             \/ ladder_written ladder_min ladder_max (fst st) (fst st') q)
  /\ (forall child, child ∈ m_children x ->
        ladder_written ladder_min ladder_max (fst st) (fst st') child).
Proof.
  intros Hopen. induction fuel as [|fuel IH]; intros this st st' x Hx Hon; [discriminate|].
  cbn [pass_haplotype_to_children_ladder_bounded]. unfold deref at 1.
  rewrite Hx. cbn [obind]. intros E.
  enough (Hloop : forall l st st' x0,
    fst st !! this = Some x0 ->
    on_ladder (m_haplotype x0) ladder_min ladder_max ->
    ofold (fun st child =>
             let! st1 := hand_down_ladder_bounded unif rates ladder_min ladder_max
                           this child st in
             if recursive
             then pass_haplotype_to_children_ladder_bounded unif fuel recursive rates
                    ladder_min ladder_max child st1
             else Ok st1) l st = Ok st' ->
    (forall q, fst st' !! q = fst st !! q
               \/ ladder_written ladder_min ladder_max (fst st) (fst st') q)
    /\ (forall child, child ∈ l ->
          ladder_written ladder_min ladder_max (fst st) (fst st') child)).
  { exact (Hloop _ _ _ x Hx Hon E). }
  clear E st st' x Hx Hon.
  assert (Hstill : forall (h h1 : heap) p y,
    h !! p = Some y -> on_ladder (m_haplotype y) ladder_min ladder_max ->
    (forall q, h1 !! q = h !! q \/ ladder_written ladder_min ladder_max h h1 q) ->
    exists y1, h1 !! p = Some y1 /\ on_ladder (m_haplotype y1) ladder_min ladder_max).
  { intros h h1 p y Hy Hony F. destruct (F p) as [Eq|(c & hap & Hc & Hc1 & Hh)].
    - exists y. split; [congruence|exact Hony].
    - exists (set_haplotype hap c). split; [exact Hc1|exact Hh]. }
  induction l as [|child l IHl]; intros st st' x Hx Hon; cbn [ofold].
  - intros [= <-]. split; [now left|]. intros child Hin. inversion Hin.
  - destruct st as [h k]. cbn [fst] in Hx.
    destruct (hand_down_ladder_bounded unif rates ladder_min ladder_max this child (h, k))
      as [[h1 k1]| | |] eqn:E1; cbn [obind]; try discriminate.
    destruct (hand_down_ladder_frame _ _ _ _ _ _ _ _ _ _ _ Hopen Hx Hon E1) as [F1 W1].
    assert (Hrec : forall st2,
      (if recursive
       then pass_haplotype_to_children_ladder_bounded unif fuel recursive rates
              ladder_min ladder_max child (h1, k1)
       else Ok (h1, k1)) = Ok st2 ->
      forall q, fst st2 !! q = h1 !! q
                \/ ladder_written ladder_min ladder_max h1 (fst st2) q).
    { intros st2. destruct recursive.
      - intros E2. destruct W1 as (c & hap & Hc & Hc1 & Hh).
        apply (IH child (h1, k1) st2 (set_haplotype hap c) Hc1 Hh E2).
      - intros [= <-]. now left. }
    destruct (if recursive then _ else _) as [st2| | |] eqn:E2; cbn [obind]; try discriminate.
    specialize (Hrec st2 eq_refl). intros E3. cbn [fst].
    assert (F02 : forall q, fst st2 !! q = h !! q
                \/ ladder_written ladder_min ladder_max h (fst st2) q).
    { eapply written_frame_trans; eauto. }
    destruct (Hstill h (fst st2) this x Hx Hon F02) as (x2 & Hx2 & Hon2).
    destruct (IHl _ _ x2 Hx2 Hon2 E3) as [F3 W3].
    split.
    + eapply written_frame_trans; eauto.
    + intros c Hin. apply elem_of_cons in Hin as [->|Hin].
      * eapply written_after; [|exact F3]. eapply written_after; eauto.
      * eapply written_before; [exact F02|]. now apply W3.
Qed.

(** Property X11. When [pass_haplotype_to_children_ladder_bounded] returns for a
    father whose haplotype lies on ladders of more than one allele, every
    child of his carries a haplotype on the ladders, and so does every
    individual the call has touched, at any depth of the recursion;
    nothing but haplotypes is written. *)
Theorem ladder_pass_keeps_pedigree_on_the_ladder unif fuel recursive rates
    ladder_min ladder_max this h k h' k' x :
  ladder_open ladder_min ladder_max ->
  h !! this = Some x ->
  on_ladder (m_haplotype x) ladder_min ladder_max ->
  pass_haplotype_to_children_ladder_bounded unif fuel recursive rates ladder_min ladder_max
    this (h, k) = Ok (h', k') ->
  (forall child, child ∈ m_children x -> ladder_written ladder_min ladder_max h h' child)
  /\ (forall q, h' !! q = h !! q \/ ladder_written ladder_min ladder_max h h' q).
Proof.
  intros Hopen Hx Hon E.
  destruct (ladder_pass_frame unif recursive rates ladder_min ladder_max Hopen fuel this
              (h, k) (h', k') x Hx Hon E) as [HF HW].
  cbn [fst] in HF, HW. split; [exact HW|exact HF].
Qed.

Lemma ladder_pass_keeps_pedigree_on_the_ladder_witness :
  (forall child, child ∈ [2%positive; 3%positive] ->
     ladder_written [7; 5] [8; 9] household
       (<[ 3%positive := set_haplotype [8; 8]
                           (with_father (Some 1%positive) (new_Individual 3 0)) ]>
       (<[ 2%positive := set_haplotype [8; 8]
                           (with_father (Some 1%positive) (new_Individual 2 0)) ]>
          household)) child)
  /\ (forall q,
        (<[ 3%positive := set_haplotype [8; 8]
                            (with_father (Some 1%positive) (new_Individual 3 0)) ]>
        (<[ 2%positive := set_haplotype [8; 8]
                            (with_father (Some 1%positive) (new_Individual 2 0)) ]>
           household)) !! q = household !! q
        \/ ladder_written [7; 5] [8; 9] household
             (<[ 3%positive := set_haplotype [8; 8]
                                 (with_father (Some 1%positive) (new_Individual 3 0)) ]>
             (<[ 2%positive := set_haplotype [8; 8]
                                 (with_father (Some 1%positive) (new_Individual 2 0)) ]>
                household)) q).
Proof.
  apply (ladder_pass_keeps_pedigree_on_the_ladder all_zero 2 true [1%Q; 1%Q] [7; 5] [8; 9]
           1%positive household 0 _ 4
           (with_children [2%positive; 3%positive]
              (set_haplotype [7; 9] (new_Individual 1 1)))).
  - intros [|[|i]] lo hi Hlo Hhi; cbn in Hlo, Hhi; try discriminate;
      injection Hlo as <-; injection Hhi as <-; lia.
  - reflexivity.
  - intros [|[|i]] a Ha; cbn in Ha; try discriminate; injection Ha as <-;
      eexists _, _; (split; [reflexivity|split; [reflexivity|lia]]).
  - vm_compute. reflexivity.
Defined.

(** ** The table of conditional cumulative distributions *)

Lemma Qsum_nonneg (v : list Q) : Forall (fun x => (0 <= x)%Q) v -> (0 <= Qsum v)%Q.
Proof.
  induction 1 as [|x v Hx _ IH]; cbn.
  - apply Qle_refl.
  - change 0%Q with (0 + 0)%Q. now apply Qplus_le_compat.
Qed.

Lemma partial_sum_from_length (v : list Q) : forall acc,
  length (partial_sum_from acc v) = length v.
Proof. induction v as [|x v IH]; intros acc; cbn; [reflexivity|]. now rewrite IH. Qed.

Lemma partial_sum_length (v : list Q) : length (partial_sum v) = length v.
Proof. destruct v; cbn; [reflexivity|]. now rewrite partial_sum_from_length. Qed.

Lemma partial_sum_from_lookup (v : list Q) : forall acc j a,
  partial_sum_from acc v !! j = Some a -> (a == acc + Qsum (take (S j) v))%Q.
Proof.
  induction v as [|x v IH]; intros acc j a; cbn [partial_sum_from]; [discriminate|].
  destruct j as [|j]; cbn [lookup list_lookup].
  - intros [= <-]. cbn. rewrite take_0. cbn. ring.
  - intros H. apply IH in H. rewrite H.
    change (take (S (S j)) (x :: v)) with (x :: take (S j) v).
    cbn [Qsum fold_right]. fold (Qsum (take (S j) v)). change num_add with Qplus. ring.
Qed.

Lemma partial_sum_lookup (v : list Q) (j : nat) (a : Q) :
  partial_sum v !! j = Some a -> (a == Qsum (take (S j) v))%Q.
Proof.
  destruct v as [|x v]; cbn [partial_sum]; [discriminate|].
  destruct j as [|j]; cbn [lookup list_lookup].
  - intros [= <-]. cbn. rewrite take_0. cbn. ring.
  - intros H. apply partial_sum_from_lookup in H. rewrite H. cbn [take Qsum]. reflexivity.
Qed.

Lemma Qsum_take_S (v : list Q) : forall j x,
  v !! j = Some x -> (Qsum (take (S j) v) == Qsum (take j v) + x)%Q.
Proof.
  induction v as [|y v IH]; intros j x; [discriminate|].
  destruct j as [|j]; cbn [lookup list_lookup].
  - intros [= <-]. cbn. rewrite take_0. cbn. ring.
  - intros H. change (take (S (S j)) (y :: v)) with (y :: take (S j) v).
    change (take (S j) (y :: v)) with (y :: take j v).
    cbn [Qsum fold_right]. fold (Qsum (take (S j) v)). fold (Qsum (take j v)).
    rewrite (IH j x H). ring.
Qed.

Lemma partial_sum_cumulative (v : list Q) :
  Forall (fun x => (0 <= x)%Q) v -> (Qsum v == 1)%Q -> cumulative (partial_sum v).
Proof.
  intros Hpos Hsum. refine (conj _ (conj _ _)).
  - intros a Ha. destruct v as [|x v]; [discriminate|]. cbn in Ha. injection Ha as <-.
    now inversion Hpos.
  - intros j a b Ha Hb.
    assert (Hj : (S j < length v)%nat).
    { rewrite <- partial_sum_length. eapply lookup_lt_Some; eauto. }
    destruct (lookup_lt_is_Some_2 v (S j) Hj) as [x Hx].
    apply partial_sum_lookup in Ha, Hb. rewrite Ha, Hb, (Qsum_take_S v (S j) x Hx).
    assert (0 <= x)%Q.
    { rewrite Forall_forall in Hpos. apply Hpos. eapply list_elem_of_lookup_2; eauto. }
    rewrite <- (Qplus_0_r (Qsum (take (S j) v))) at 1.
    apply Qplus_le_compat; [apply Qle_refl|assumption].
  - intros z Hz. rewrite last_lookup in Hz. apply partial_sum_lookup in Hz.
    rewrite partial_sum_length in Hz.
    destruct v as [|x v]; [cbn in Hz; rewrite Hz; cbn in Hsum; exact Hsum|].
    cbn [length Nat.pred] in Hz. rewrite take_ge in Hz by (cbn; lia).
    now rewrite Hz.
Qed.

Lemma Qsum_map_div (f : nat -> Q) (c : Q) (l : list nat) :
  (Qsum (map (fun j => num_div (f j) c) l) == Qsum (map f l) / c)%Q.
Proof.
  induction l as [|j l IH]; cbn [map Qsum fold_right].
  - unfold Qdiv. ring.
  - fold (Qsum (map (fun j => num_div (f j) c) l)). fold (Qsum (map f l)).
    rewrite IH. change num_div with Qdiv. unfold Qdiv. ring.
Qed.

Lemma conditional_entry_exact (theta : Q) (ps : list Q) (i j : nat) :
  (conditional_entry theta ps i j
   == (1 - theta) * ps_at ps i * ps_at ps j
      + (if Nat.eqb i j then theta * ps_at ps i else 0))%Q.
Proof.
  unfold conditional_entry. destruct (Nat.eqb_spec i j) as [->|Hne].
  - cbn. ring.
  - destruct (Nat.le_gt_cases i j).
    + rewrite Nat.max_r, Nat.min_l by lia. cbn. ring.
    + rewrite Nat.max_l, Nat.min_r by lia. cbn. ring.
Qed.

Lemma conditional_sum (theta : Q) (ps : list Q) (i n : nat) :
  (Qsum (map (conditional_entry theta ps i) (seq 0 n))
   == (1 - theta) * ps_at ps i * Qsum (map (ps_at ps) (seq 0 n))
      + (if Nat.ltb i n then theta * ps_at ps i else 0))%Q.
Proof.
  induction n as [|n IH].
  - cbn. ring.
  - rewrite !seq_S, !map_app, !Qsum_app, IH. cbn [map Nat.add].
    change (Qsum [conditional_entry theta ps i n])
      with (conditional_entry theta ps i n + 0)%Q.
    change (Qsum [ps_at ps n]) with (ps_at ps n + 0)%Q.
    rewrite conditional_entry_exact.
    destruct (Nat.eqb_spec i n) as [->|Hne].
    + rewrite Nat.ltb_irrefl. replace (n <? S n)%nat with true
        by (symmetry; apply Nat.ltb_lt; lia). ring.
    + destruct (Nat.ltb_spec i n).
      * replace (i <? S n)%nat with true by (symmetry; apply Nat.ltb_lt; lia). ring.
      * replace (i <? S n)%nat with false by (symmetry; apply Nat.ltb_ge; lia). ring.
Qed.

Lemma conditional_entry_nonneg (theta : Q) (ps : list Q) (i j : nat) :
  (0 <= theta <= 1)%Q -> (forall k, 0 <= ps_at ps k)%Q ->
  (0 <= conditional_entry theta ps i j)%Q.
Proof.
  intros [H0 H1] Hps. rewrite conditional_entry_exact.
  assert (0 <= 1 - theta)%Q by (unfold Qminus; rewrite <- Qle_minus_iff; exact H1).
  assert (0 <= (1 - theta) * ps_at ps i * ps_at ps j)%Q.
  { repeat apply Qmult_le_0_compat; auto. }
  assert (0 <= (if Nat.eqb i j then theta * ps_at ps i else 0))%Q.
  { destruct (Nat.eqb i j); [apply Qmult_le_0_compat; auto|apply Qle_refl]. }
  change 0%Q with (0 + 0)%Q at 1. now apply Qplus_le_compat.
Qed.

Lemma Qsum_ge_elem (v : list Q) : Forall (fun x => (0 <= x)%Q) v ->
  forall i x, v !! i = Some x -> (x <= Qsum v)%Q.
Proof.
  induction 1 as [|y v Hy Hv IH]; intros i x; [discriminate|].
  cbn [Qsum fold_right]. fold (Qsum v).
  destruct i as [|i]; cbn [lookup list_lookup].
  - intros [= <-]. rewrite <- (Qplus_0_r y) at 1.
    apply Qplus_le_compat; [apply Qle_refl|now apply Qsum_nonneg].
  - intros Hx. rewrite <- (Qplus_0_l x).
    apply Qplus_le_compat; [exact Hy|exact (IH i x Hx)].
Qed.

Lemma ps_at_lookup (ps : list Q) (i : nat) (x : Q) : ps !! i = Some x -> ps_at ps i = x.
Proof.
  revert i. induction ps as [|y ps IH]; intros [|i]; cbn; try discriminate.
  - now intros [= ->].
  - apply IH.
Qed.

Lemma ps_at_beyond (ps : list Q) (i : nat) : (length ps <= i)%nat -> ps_at ps i = 0%Q.
Proof. intros H. unfold ps_at. now apply nth_overflow. Qed.

Lemma ps_at_normalise (p : list Q) (i : nat) :
  (i < length p)%nat -> ps_at (normalise p) i = (ps_at p i / accumulate p)%Q.
Proof.
  intros Hi. destruct (lookup_lt_is_Some_2 p i Hi) as [x Hx].
  rewrite (ps_at_lookup p i x Hx). apply ps_at_lookup.
  unfold normalise. rewrite list_lookup_fmap, Hx. reflexivity.
Qed.

(** Property X12. With allele proportions in [0, 1] and theta in [0, 1], in exact
    arithmetic, [calc_autosomal_genotype_conditional_cumdist] returns a
    square matrix with one row per allele, and the row of every allele of
    positive proportion is a cumulative distribution: it starts at or above
    zero, never falls and ends at one. *)
Theorem conditional_cumdist_rows_are_cumulative (p : list Q) (theta : Q) :
  Forall (fun x => 0 <= x <= 1)%Q p ->
  (0 <= theta <= 1)%Q ->
  exists t,
    calc_autosomal_genotype_conditional_cumdist p theta = Ok t
    /\ length t = length p
    /\ square t
    /\ forall i row, t !! i = Some row -> (0 < ps_at p i)%Q -> cumulative row.
Proof.
  intros Hp [Ht0 Ht1]. unfold calc_autosomal_genotype_conditional_cumdist.
  rewrite out_of_unit_false by exact Hp.
  assert (Hth : (num_ltb theta num_zero || num_ltb num_one theta)%bool = false).
  { cbn. unfold Qltb. apply Qle_bool_iff in Ht0, Ht1. now rewrite Ht0, Ht1. }
  rewrite Hth. cbn [orb]. eexists. split; [reflexivity|].
  assert (HK : length (normalise p) = length p) by (unfold normalise; apply length_map).
  assert (Hnn : Forall (fun x => 0 <= x)%Q p).
  { eapply Forall_impl; [exact Hp|]. now intros x [H _]. }
  split; [now rewrite length_map, length_seq|]. split.
  { unfold square. rewrite Forall_forall. intros row Hrow.
    apply list_elem_of_In, in_map_iff in Hrow as (i & <- & _).
    unfold conditional_row.
    now rewrite partial_sum_length, !length_map, !length_seq. }
  intros i row Hrow Hpi.
  rewrite list_lookup_fmap in Hrow.
  destruct (seq 0 (length (normalise p)) !! i) as [i'|] eqn:Ei; [|discriminate].
  apply lookup_seq in Ei as [-> Hi]. cbn in Hrow. injection Hrow as <-.
  rewrite HK in Hi.
  assert (Hle : (ps_at p i <= Qsum p)%Q).
  { destruct (lookup_lt_is_Some_2 p i Hi) as [x Hx].
    rewrite (ps_at_lookup p i x Hx). now apply (Qsum_ge_elem p Hnn i). }
  assert (HS : (0 < Qsum p)%Q) by (eapply Qlt_le_trans; eauto).
  assert (HA : (0 < accumulate p)%Q) by now rewrite accumulate_Qsum.
  assert (Hps : forall k, (0 <= ps_at (normalise p) k)%Q).
  { intros k. destruct (Nat.lt_ge_cases k (length p)) as [Hk|Hk].
    - rewrite ps_at_normalise by exact Hk. apply Qle_shift_div_l; [exact HA|].
      rewrite Qmult_0_l. destruct (lookup_lt_is_Some_2 p k Hk) as [x Hx].
      rewrite (ps_at_lookup p k x Hx). rewrite Forall_forall in Hnn. apply Hnn.
      eapply list_elem_of_lookup_2; eauto.
    - rewrite ps_at_beyond by (rewrite HK; exact Hk). apply Qle_refl. }
  assert (Hpos : (0 < ps_at (normalise p) i)%Q).
  { rewrite ps_at_normalise by exact Hi. apply Qlt_shift_div_l; [exact HA|].
    now rewrite Qmult_0_l. }
  unfold conditional_row. apply partial_sum_cumulative.
  - rewrite Forall_forall. intros e He.
    apply list_elem_of_In, in_map_iff in He as (j & <- & _).
    change num_div with Qdiv. apply Qle_shift_div_l; [exact Hpos|].
    rewrite Qmult_0_l. apply conditional_entry_nonneg; auto.
  - rewrite (Qsum_map_div (conditional_entry theta (normalise p) i)
               (ps_at (normalise p) i)).
    rewrite conditional_sum, map_ps_at_seq.
    replace (i <? length (normalise p))%nat with true
      by (symmetry; apply Nat.ltb_lt; rewrite HK; exact Hi).
    rewrite Qsum_normalise by (intros E; rewrite E in HS; discriminate).
    field. intros E. rewrite E in Hpos. discriminate.
Qed.

Lemma conditional_cumdist_rows_are_cumulative_witness :
  exists t,
    calc_autosomal_genotype_conditional_cumdist [1 # 4; 3 # 4]%Q (1 # 10)%Q = Ok t
    /\ length t = length [1 # 4; 3 # 4]%Q
    /\ square t
    /\ forall i row, t !! i = Some row -> (0 < ps_at [1 # 4; 3 # 4] i)%Q -> cumulative row.
Proof.
  apply (conditional_cumdist_rows_are_cumulative [1 # 4; 3 # 4]%Q (1 # 10)%Q).
  - repeat constructor; discriminate.
  - split; discriminate.
Defined.

(** ** Drawing the mother's allele from a cumulative row *)

Lemma Qle_bool_false (x y : Q) : Qle_bool x y = false -> (y < x)%Q.
Proof.
  intros H. apply Qnot_le_lt. intros Hle. apply Qle_bool_iff in Hle. congruence.
Qed.

Lemma scan_cumdist_first (u : Q) (cumdist : list Q) :
  forall i,
  (scan_cumdist u cumdist i = 0 /\ forall j c, cumdist !! j = Some c -> (c < u)%Q)
  \/ exists j c, scan_cumdist u cumdist i = i + Z.of_nat j
                 /\ cumdist !! j = Some c /\ (u <= c)%Q
                 /\ forall j' c', (j' < j)%nat -> cumdist !! j' = Some c' -> (c' < u)%Q.
Proof.
  induction cumdist as [|c0 rest IH]; intros i; cbn [scan_cumdist].
  - left. split; [reflexivity|]. intros j c Hc. discriminate.
  - destruct (Qle_bool u c0) eqn:E.
    + right. exists O, c0. apply Qle_bool_iff in E.
      split; [lia|]. split; [reflexivity|]. split; [exact E|]. intros j' c' Hj. lia.
    + apply Qle_bool_false in E.
      destruct (IH (i + 1)) as [[H0 Hall]|(j & c & Hr & Hc & Hu & Hbefore)].
      * left. split; [exact H0|]. intros [|j] c; cbn; [now intros [= <-]|apply Hall].
      * right. exists (S j), c. split; [lia|]. split; [exact Hc|]. split; [exact Hu|].
        intros [|j'] c' Hj; cbn; [now intros [= <-]|]. apply Hbefore. lia.
Qed.

(** Property X13. The scan for the mother's allele in [pass_autosomal_to_children],
    run on a cumulative row with a draw of at most one, returns the first
    index whose cumulative probability reaches the draw. *)
Theorem mother_allele_is_first_to_reach_the_draw (u : Q) (cumdist : list Q) :
  cumdist <> [] ->
  cumulative cumdist ->
  (u <= 1)%Q ->
  exists m c,
    draw_mother_allele u cumdist = Ok m
    /\ 0 <= m
    /\ cumdist !! Z.to_nat m = Some c
    /\ (u <= c)%Q
    /\ forall j c', (j < Z.to_nat m)%nat -> cumdist !! j = Some c' -> (c' < u)%Q.
Proof.
  intros Hne (_ & _ & Hlast) Hu.
  destruct cumdist as [|c0 rest]; [contradiction|].
  unfold draw_mother_allele. change (vec_at (c0 :: rest) 0) with (Ok c0). cbn [obind tl].
  destruct (Qltb c0 u) eqn:E.
  - apply Qltb_true in E.
    destruct (scan_cumdist_first u rest 1) as [[_ Hall]|(j & c & Hr & Hc & Huc & Hbefore)].
    + exfalso. destruct (last (c0 :: rest)) as [z|] eqn:Ez.
      * assert (Hz : (z < u)%Q).
        { rewrite last_lookup in Ez. cbn [length Nat.pred] in Ez.
          destruct rest as [|c1 rest']; [cbn in Ez; now injection Ez as <-|].
          apply (Hall (length rest') z). exact Ez. }
        specialize (Hlast z eq_refl). rewrite Hlast in Hz.
        apply Qlt_not_le in Hz. contradiction.
      * rewrite last_lookup in Ez. cbn [length Nat.pred] in Ez.
        apply lookup_ge_None in Ez. cbn [length] in Ez. lia.
    + exists (1 + Z.of_nat j), c. rewrite Hr.
      replace (Z.to_nat (1 + Z.of_nat j)) with (S j) by lia.
      split; [reflexivity|]. split; [lia|]. split; [exact Hc|]. split; [exact Huc|].
      intros [|j'] c' Hj; cbn; [now intros [= <-]|]. apply Hbefore. lia.
  - exists 0, c0. split; [reflexivity|]. split; [lia|]. split; [reflexivity|]. split.
    + unfold Qltb in E. apply negb_false_iff in E. now apply Qle_bool_iff.
    + intros j c' Hj. change (Z.to_nat 0) with O in Hj. lia.
Qed.

Lemma mother_allele_is_first_to_reach_the_draw_witness :
  exists m c,
    draw_mother_allele (3 # 5) [1 # 4; 1 # 2; 1]%Q = Ok m
    /\ 0 <= m
    /\ [1 # 4; 1 # 2; 1]%Q !! Z.to_nat m = Some c
    /\ (3 # 5 <= c)%Q
    /\ forall j c', (j < Z.to_nat m)%nat -> [1 # 4; 1 # 2; 1]%Q !! j = Some c' ->
         (c' < 3 # 5)%Q.
Proof.
  apply (mother_allele_is_first_to_reach_the_draw (3 # 5) [1 # 4; 1 # 2; 1]%Q).
  - discriminate.
  - refine (conj _ (conj _ _)).
    + intros a [= <-]. discriminate.
    + intros [|[|[|j]]] a b Ha Hb; cbn in Ha, Hb; try discriminate;
        injection Ha as <-; injection Hb as <-; discriminate.
    + intros z [= <-]. reflexivity.
  - discriminate.
Defined.

(** ** The layout of the genotype probabilities *)

Lemma triangle_S (i : nat) :
  (S i * (S i + 1) / 2 = i * (i + 1) / 2 + S i)%nat.
Proof.
  replace (S i * (S i + 1))%nat with (i * (i + 1) + S i * 2)%nat by lia.
  now rewrite Nat.div_add by lia.
Qed.

Lemma genotype_row_length (theta : Q) (ps : list Q) (i : nat) :
  length (genotype_row theta ps i) = S i.
Proof. unfold genotype_row. now rewrite length_map, length_seq. Qed.

Lemma genotype_rows_S (theta : Q) (ps : list Q) (n : nat) :
  genotype_rows theta ps (S n) = genotype_rows theta ps n ++ genotype_row theta ps n.
Proof.
  unfold genotype_rows. rewrite seq_S, flat_map_app. cbn [flat_map Nat.add].
  now rewrite app_nil_r.
Qed.

Lemma genotype_rows_length (theta : Q) (ps : list Q) (n : nat) :
  length (genotype_rows theta ps n) = (n * (n + 1) / 2)%nat.
Proof.
  induction n as [|n IH]; [reflexivity|].
  now rewrite genotype_rows_S, length_app, IH, genotype_row_length, triangle_S.
Qed.

Lemma genotype_rows_lookup (theta : Q) (ps : list Q) (n i j : nat) :
  (j <= i)%nat -> (i < n)%nat ->
  genotype_rows theta ps n !! (i * (i + 1) / 2 + j)%nat
  = Some (genotype_entry theta ps i j).
Proof.
  intros Hj. induction n as [|n IH]; intros Hi; [lia|].
  rewrite genotype_rows_S. destruct (decide (i = n)) as [->|Hne].
  - rewrite lookup_app_r by (rewrite genotype_rows_length; lia).
    rewrite genotype_rows_length.
    replace (n * (n + 1) / 2 + j - n * (n + 1) / 2)%nat with j by lia.
    unfold genotype_row. rewrite list_lookup_fmap, lookup_seq_lt by lia. reflexivity.
  - rewrite lookup_app_l; [apply IH; lia|].
    rewrite genotype_rows_length.
    assert (H : (S i * (S i + 1) / 2 <= n * (n + 1) / 2)%nat).
    { apply Nat.Div0.div_le_mono. nia. }
    rewrite triangle_S in H. lia.
Qed.

Lemma genotype_entry_nonneg (theta : Q) (ps : list Q) (i j : nat) :
  (0 <= theta <= 1)%Q -> (forall k, 0 <= ps_at ps k)%Q ->
  (0 <= genotype_entry theta ps i j)%Q.
Proof.
  intros [H0 H1] Hps. unfold genotype_entry.
  assert (0 <= 1 - theta)%Q by (unfold Qminus; rewrite <- Qle_minus_iff; exact H1).
  destruct (Nat.eqb i j); cbn.
  - change 0%Q with (0 + 0)%Q. apply Qplus_le_compat.
    + apply Qmult_le_0_compat; auto.
    + repeat apply Qmult_le_0_compat; auto.
  - repeat apply Qmult_le_0_compat; auto. discriminate.
Qed.

(** Property X25. With allele proportions in [0, 1] of positive sum and theta in
    [0, 1], in exact arithmetic, [calc_autosomal_genotype_probs] returns
    [K (K + 1) / 2] probabilities that sum to one, whether or not the
    input sums to one; the entry of the genotype [(i, j)], [j <= i], taken
    on the normalised proportions, sits at index [i (i + 1) / 2 + j]. *)
Theorem genotype_probs_are_a_normalised_triangle (p : list Q) (theta : Q) :
  Forall (fun x => 0 <= x <= 1)%Q p ->
  (0 < Qsum p)%Q ->
  (0 <= theta <= 1)%Q ->
  exists v,
    calc_autosomal_genotype_probs p theta = Ok v
    /\ length v = (length p * (length p + 1) / 2)%nat
    /\ (Qsum v == 1)%Q
    /\ Forall (fun e => 0 <= e <= 1)%Q v
    /\ forall i j, (j <= i)%nat -> (i < length p)%nat ->
         v !! (i * (i + 1) / 2 + j)%nat = Some (genotype_entry theta (normalise p) i j).
Proof.
  intros Hp Hsum [Ht0 Ht1]. unfold calc_autosomal_genotype_probs.
  rewrite out_of_unit_false by exact Hp.
  assert (Hth : (num_ltb theta num_zero || num_ltb num_one theta)%bool = false).
  { cbn. unfold Qltb. apply Qle_bool_iff in Ht0, Ht1. now rewrite Ht0, Ht1. }
  rewrite Hth. cbn [orb]. eexists. split; [reflexivity|].
  assert (HK : length (normalise p) = length p) by (unfold normalise; apply length_map).
  assert (Hnn : Forall (fun x => 0 <= x)%Q p).
  { eapply Forall_impl; [exact Hp|]. now intros x [H _]. }
  assert (HA : (0 < accumulate p)%Q) by now rewrite accumulate_Qsum.
  assert (Hps : forall k, (0 <= ps_at (normalise p) k)%Q).
  { intros k. destruct (Nat.lt_ge_cases k (length p)) as [Hk|Hk].
    - rewrite ps_at_normalise by exact Hk. apply Qle_shift_div_l; [exact HA|].
      rewrite Qmult_0_l. destruct (lookup_lt_is_Some_2 p k Hk) as [x Hx].
      rewrite (ps_at_lookup p k x Hx). rewrite Forall_forall in Hnn. apply Hnn.
      eapply list_elem_of_lookup_2; eauto.
    - rewrite ps_at_beyond by (rewrite HK; exact Hk). apply Qle_refl. }
  assert (Hone : (Qsum (genotype_rows theta (normalise p) (length (normalise p))) == 1)%Q).
  { rewrite genotype_rows_sum, prefix_sum_all, Qsum_normalise; [ring|].
    intros E. rewrite E in Hsum. discriminate. }
  assert (Hpos : Forall (fun e => 0 <= e)%Q
                   (genotype_rows theta (normalise p) (length (normalise p)))).
  { rewrite Forall_forall. intros e He. apply list_elem_of_In in He.
    unfold genotype_rows in He. apply in_flat_map in He as (i & _ & He).
    unfold genotype_row in He. apply in_map_iff in He as (j & <- & _).
    apply genotype_entry_nonneg; auto. }
  refine (conj _ (conj Hone (conj _ _))).
  - now rewrite genotype_rows_length, HK.
  - rewrite Forall_forall. intros e He. split.
    + rewrite Forall_forall in Hpos. now apply Hpos.
    + apply list_elem_of_lookup in He as [k Hk]. rewrite <- Hone.
      now apply (Qsum_ge_elem _ Hpos k).
  - intros i j Hj Hi. apply genotype_rows_lookup; [exact Hj|]. now rewrite HK.
Qed.

Lemma genotype_probs_are_a_normalised_triangle_witness :
  exists v,
    calc_autosomal_genotype_probs [1 # 2; 1 # 2; 1]%Q (1 # 10)%Q = Ok v
    /\ length v = (length [1 # 2; 1 # 2; 1]%Q
                   * (length [1 # 2; 1 # 2; 1]%Q + 1) / 2)%nat
    /\ (Qsum v == 1)%Q
    /\ Forall (fun e => 0 <= e <= 1)%Q v
    /\ forall i j, (j <= i)%nat -> (i < length [1 # 2; 1 # 2; 1]%Q)%nat ->
         v !! (i * (i + 1) / 2 + j)%nat
         = Some (genotype_entry (1 # 10) (normalise [1 # 2; 1 # 2; 1]%Q) i j).
Proof.
  apply (genotype_probs_are_a_normalised_triangle [1 # 2; 1 # 2; 1]%Q (1 # 10)%Q).
  - repeat constructor; discriminate.
  - reflexivity.
  - split; discriminate.
Defined.

(** ** The tables of allele and genotype proportions *)

Lemma table_sum_empty {K : Type} `{Countable K} (g : K -> Q -> Q) :
  table_sum g (∅ : gmap K Q) = 0%Q.
Proof. unfold table_sum. apply map_fold_empty. Qed.

Lemma table_sum_insert_fresh {K : Type} `{Countable K} (g : K -> Q -> Q)
    (m : gmap K Q) (k : K) (v : Q) :
  m !! k = None -> (table_sum g (<[k := v]> m) == g k v + table_sum g m)%Q.
Proof.
  intros Hk. unfold table_sum.
  apply (map_fold_insert Qeq (fun k v acc => (g k v + acc)%Q)).
  - intros j z a b Hab. now rewrite Hab.
  - intros j1 j2 z1 z2 y _ _ _. ring.
  - exact Hk.
Qed.

Lemma table_sum_insert {K : Type} `{Countable K} (g : K -> Q -> Q)
    (m : gmap K Q) (k : K) (v : Q) :
  (table_sum g (<[k := v]> m) == g k v + table_sum g (delete k m))%Q.
Proof.
  rewrite <- (insert_delete_eq m k v). apply table_sum_insert_fresh.
  apply lookup_delete_eq.
Qed.

Lemma table_sum_lookup {K : Type} `{Countable K} (g : K -> Q -> Q)
    (m : gmap K Q) (k : K) (v : Q) :
  m !! k = Some v -> (table_sum g m == g k v + table_sum g (delete k m))%Q.
Proof.
  intros Hk. rewrite <- (insert_id m k v Hk) at 1. apply table_sum_insert.
Qed.

Lemma table_sum_bump {K : Type} `{Countable K} (g : K -> Q -> Q)
    (m : gmap K Q) (k : K) (x : Q) :
  (forall v, g k (v + x) == g k v + g k x)%Q -> (g k 0 == 0)%Q ->
  (table_sum g (bump m k x) == table_sum g m + g k x)%Q.
Proof.
  intros Hadd Hzero. unfold bump. rewrite table_sum_insert, Hadd.
  destruct (m !! k) as [v|] eqn:Hk; cbn [default from_option]; unfold id.
  - rewrite (table_sum_lookup g m k v Hk). ring.
  - rewrite Hzero, delete_id by exact Hk. ring.
Qed.

Lemma total_bump {K : Type} `{Countable K} (m : gmap K Q) (k : K) (x : Q) :
  (total (bump m k x) == total m + x)%Q.
Proof. unfold total. apply (table_sum_bump (fun _ v => v)); intros; ring. Qed.

Lemma value_at_bump {K : Type} `{Countable K} (m : gmap K Q) (k j : K) (x : Q) :
  value_at (bump m k x) j
  = if decide (j = k) then (value_at m k + x)%Q else value_at m j.
Proof.
  unfold value_at, bump. destruct (decide (j = k)) as [->|Hne].
  - now rewrite lookup_insert_eq.
  - now rewrite lookup_insert_ne.
Qed.

Lemma fill_containers_ordered (a1 a2 : Z) (one_over_n one_over_2n : Q) (c : containers) :
  estimate_theta_1subpop_fill_containers a1 a2 one_over_n one_over_2n c
  = mkContainers
      (if fst (ordered (a1, a2)) =? snd (ordered (a1, a2))
       then bump (allele_p c) (fst (ordered (a1, a2))) one_over_n
       else bump (bump (allele_p c) (fst (ordered (a1, a2))) one_over_2n)
                 (snd (ordered (a1, a2))) one_over_2n)
      (bump (genotype_p c) (ordered (a1, a2)) one_over_n)
      ({[ ordered (a1, a2) ]} ∪ genotypes_unique c).
Proof.
  unfold estimate_theta_1subpop_fill_containers, ordered. cbn [fst snd].
  now destruct (a2 <? a1).
Qed.

Lemma fill_containers_swap (a1 a2 : Z) (one_over_n one_over_2n : Q) (c : containers) :
  estimate_theta_1subpop_fill_containers a2 a1 one_over_n one_over_2n c
  = estimate_theta_1subpop_fill_containers a1 a2 one_over_n one_over_2n c.
Proof.
  rewrite !fill_containers_ordered.
  assert (E : ordered (a2, a1) = ordered (a1, a2)).
  { unfold ordered. cbn [fst snd].
    destruct (Z.ltb_spec a1 a2), (Z.ltb_spec a2 a1); try reflexivity; try lia.
    f_equal; lia. }
  now rewrite E.
Qed.

Lemma fill_containers_step (a1 a2 : Z) (one_over_n one_over_2n : Q) (c : containers) :
  (2 * one_over_2n == one_over_n)%Q ->
  let c' := estimate_theta_1subpop_fill_containers a1 a2 one_over_n one_over_2n c in
  (total (allele_p c') == total (allele_p c) + one_over_n)%Q
  /\ (total (genotype_p c') == total (genotype_p c) + one_over_n)%Q
  /\ (forall a,
        value_at (allele_p c') a
        == value_at (allele_p c) a + share a (ordered (a1, a2)) * one_over_n)%Q
  /\ (forall a,
        table_sum (fun geno v => share a geno * v) (genotype_p c')
        == table_sum (fun geno v => share a geno * v) (genotype_p c)
           + share a (ordered (a1, a2)) * one_over_n)%Q.
Proof.
  intros H2 c'. subst c'. rewrite fill_containers_ordered. cbn [allele_p genotype_p].
  destruct (ordered (a1, a2)) as [b1 b2]. cbn [fst snd].
  refine (conj _ (conj _ (conj _ _))).
  - destruct (b1 =? b2); rewrite ?total_bump; [reflexivity|]. rewrite <- H2. ring.
  - apply total_bump.
  - intros a. unfold share. cbn [fst snd].
    destruct (Z.eqb_spec b1 b2) as [->|Hne].
    + rewrite value_at_bump. destruct (decide (a = b2)) as [->|Ha].
      * rewrite Z.eqb_refl. ring.
      * destruct (Z.eqb_spec b2 a); [congruence|]. ring.
    + rewrite !value_at_bump.
      destruct (decide (a = b2)) as [->|Ha2].
      * destruct (decide (b2 = b1)) as [E|_]; [congruence|].
        destruct (Z.eqb_spec b1 b2); [congruence|]. rewrite Z.eqb_refl.
        rewrite <- H2. ring.
      * destruct (decide (a = b1)) as [->|Ha1].
        -- rewrite Z.eqb_refl. destruct (Z.eqb_spec b2 b1); [congruence|].
           rewrite <- H2. ring.
        -- destruct (Z.eqb_spec b1 a); [congruence|].
           destruct (Z.eqb_spec b2 a); [congruence|]. ring.
  - intros a. apply (table_sum_bump (fun geno v => share a geno * v)%Q); intros; ring.
Qed.

Lemma fill_containers_loop (one_over_n one_over_2n : Q) (rows : list (Z * Z)) :
  (2 * one_over_2n == one_over_n)%Q ->
  forall c,
  let c' := fold_left (fun c r =>
                         estimate_theta_1subpop_fill_containers (fst r) (snd r)
                           one_over_n one_over_2n c) rows c in
  (total (allele_p c')
   == total (allele_p c) + inject_Z (Z.of_nat (length rows)) * one_over_n)%Q
  /\ (total (genotype_p c')
      == total (genotype_p c) + inject_Z (Z.of_nat (length rows)) * one_over_n)%Q
  /\ ((forall a, value_at (allele_p c) a
                 == table_sum (fun geno v => share a geno * v) (genotype_p c))%Q ->
      forall a, value_at (allele_p c') a
                == table_sum (fun geno v => share a geno * v) (genotype_p c'))%Q.
Proof.
  intros H2. induction rows as [|[a1 a2] rows IH]; intros c; cbn [fold_left length].
  - refine (conj _ (conj _ _)); [cbn; ring|cbn; ring|auto].
  - destruct (fill_containers_step a1 a2 one_over_n one_over_2n c H2)
      as (Ha & Hg & Hv & Ht).
    destruct (IH (estimate_theta_1subpop_fill_containers a1 a2 one_over_n one_over_2n c))
      as (Ha' & Hg' & Hm').
    cbn [fst snd]. refine (conj _ (conj _ _)).
    + rewrite Ha', Ha, Nat2Z.inj_succ, <- Z.add_1_r, inject_Z_plus. ring.
    + rewrite Hg', Hg, Nat2Z.inj_succ, <- Z.add_1_r, inject_Z_plus. ring.
    + intros Hm. apply Hm'. intros a. rewrite Hv, Ht, Hm. reflexivity.
Qed.

Lemma fold_rows (one_over_n one_over_2n : Q) (genotypes : IntegerMatrix) :
  forall (l : list nat) c,
  fold_left (fun c i =>
               estimate_theta_1subpop_fill_containers
                 (cell genotypes i 0) (cell genotypes i 1) one_over_n one_over_2n c) l c
  = fold_left (fun c r =>
                 estimate_theta_1subpop_fill_containers (fst r) (snd r)
                   one_over_n one_over_2n c)
      (map (fun i => (cell genotypes i 0, cell genotypes i 1)) l) c.
Proof. induction l as [|i l IH]; intros c; cbn; [reflexivity|apply IH]. Qed.

(** Property X14. The containers [estimate_theta_1subpop_genotypes] hands to the
    estimator, in exact arithmetic: for a matrix with at least one row and
    two columns the allele proportions sum to one, the genotype
    proportions sum to one, and the proportion of every allele is the sum
    over the genotypes of half its number of copies times the proportion
    of the genotype. *)
Theorem genotype_tables_are_distributions (genotypes : IntegerMatrix) :
  (1 <= nrow genotypes)%nat ->
  ncol genotypes = 2%nat ->
  exists c,
    estimate_theta_1subpop_genotypes_containers genotypes = Ok c
    /\ (total (allele_p c) == 1)%Q
    /\ (total (genotype_p c) == 1)%Q
    /\ forall a, (value_at (allele_p c) a
                  == table_sum (fun geno v => share a geno * v) (genotype_p c))%Q.
Proof.
  intros Hn Hc. unfold estimate_theta_1subpop_genotypes_containers.
  destruct (Z.leb_spec (Z.of_nat (nrow genotypes)) 0); [lia|].
  rewrite Hc. cbn [Nat.eqb negb]. eexists. split; [reflexivity|].
  rewrite fold_rows.
  set (n := inject_Z (Z.of_nat (nrow genotypes))).
  assert (Hnz : ~ (n == 0)%Q).
  { unfold n, Qeq, inject_Z. cbn [Qnum Qden]. lia. }
  assert (H2 : (2 * (1 / (2 * n)) == 1 / n)%Q) by (field; exact Hnz).
  destruct (fill_containers_loop (1 / n) (1 / (2 * n))
              (map (fun i => (cell genotypes i 0, cell genotypes i 1))
                   (seq 0 (nrow genotypes))) H2 no_containers) as (Ha & Hg & Hm).
  rewrite length_map, length_seq in Ha, Hg. fold n in Ha, Hg.
  refine (conj _ (conj _ _)).
  - rewrite Ha. cbn [no_containers allele_p]. unfold total. rewrite table_sum_empty.
    field. exact Hnz.
  - rewrite Hg. cbn [no_containers genotype_p]. unfold total. rewrite table_sum_empty.
    field. exact Hnz.
  - apply Hm. intros a. cbn [no_containers allele_p genotype_p].
    rewrite table_sum_empty. reflexivity.
Qed.

Lemma genotype_tables_are_distributions_witness :
  exists c,
    estimate_theta_1subpop_genotypes_containers three_genotypes = Ok c
    /\ (total (allele_p c) == 1)%Q
    /\ (total (genotype_p c) == 1)%Q
    /\ forall a, (value_at (allele_p c) a
                  == table_sum (fun geno v => share a geno * v) (genotype_p c))%Q.
Proof.
  apply (genotype_tables_are_distributions three_genotypes).
  - cbn. lia.
  - reflexivity.
Defined.

(** Property X15. Exchanging the two alleles in any rows of the genotype matrix does
    not change the outcome of building the containers. *)
Theorem genotype_tables_ignore_allele_order (flip : nat -> bool)
    (genotypes : IntegerMatrix) :
  estimate_theta_1subpop_genotypes_containers (flipped flip genotypes)
  = estimate_theta_1subpop_genotypes_containers genotypes.
Proof.
  unfold estimate_theta_1subpop_genotypes_containers. cbn [flipped nrow ncol cell].
  destruct (Z.of_nat (nrow genotypes) <=? 0); [reflexivity|].
  destruct (negb _); [reflexivity|]. f_equal.
  generalize no_containers. generalize (seq 0 (nrow genotypes)).
  induction l as [|i l IH]; intros c; cbn [fold_left]; [reflexivity|].
  rewrite IH. f_equal. destruct (flip i); [|reflexivity]. apply fill_containers_swap.
Qed.

Lemma bump_is_Some {K : Type} `{Countable K} (m : gmap K Q) (k j : K) (x : Q) :
  is_Some (bump m k x !! j) <-> j = k \/ is_Some (m !! j).
Proof.
  unfold bump. destruct (decide (j = k)) as [->|Hne].
  - rewrite lookup_insert_eq. split; [now left|eauto].
  - rewrite lookup_insert_ne by auto. split; [now right|]. now intros [|].
Qed.

Lemma ordered_le (a1 a2 : Z) : fst (ordered (a1, a2)) <= snd (ordered (a1, a2)).
Proof. unfold ordered. cbn [fst snd]. destruct (Z.ltb_spec a2 a1); cbn; lia. Qed.

Lemma fill_containers_lookups (a1 a2 : Z) (one_over_n one_over_2n : Q) (c : containers) :
  lookups_succeed c ->
  lookups_succeed (estimate_theta_1subpop_fill_containers a1 a2 one_over_n one_over_2n c).
Proof.
  intros Hc. rewrite fill_containers_ordered. pose proof (ordered_le a1 a2) as Hle.
  destruct (ordered (a1, a2)) as [b1 b2]. cbn [fst snd] in *.
  assert (Hkeep : forall a,
    (a = b1 \/ a = b2 \/ is_Some (allele_p c !! a)) ->
    is_Some ((if b1 =? b2 then bump (allele_p c) b1 one_over_n
              else bump (bump (allele_p c) b1 one_over_2n) b2 one_over_2n) !! a)).
  { intros a Ha. destruct (Z.eqb_spec b1 b2) as [->|Hne].
    - apply bump_is_Some. tauto.
    - apply bump_is_Some. rewrite bump_is_Some. tauto. }
  intros x1 x2 Hin. cbn [genotypes_unique genotype_p allele_p] in *.
  apply elem_of_union in Hin as [Hin|Hin].
  - apply elem_of_singleton in Hin. injection Hin as -> ->.
    refine (conj Hle (conj _ (conj _ _))).
    + apply bump_is_Some. now left.
    + apply Hkeep. tauto.
    + apply Hkeep. tauto.
  - destruct (Hc x1 x2 Hin) as (H1 & H2 & H3 & H4).
    refine (conj H1 (conj _ (conj _ _))).
    + apply bump_is_Some. now right.
    + apply Hkeep. tauto.
    + apply Hkeep. tauto.
Qed.

Lemma fill_containers_unique (one_over_n one_over_2n : Q) (rows : list (Z * Z)) :
  forall c,
  genotypes_unique
    (fold_left (fun c r =>
                  estimate_theta_1subpop_fill_containers (fst r) (snd r)
                    one_over_n one_over_2n c) rows c)
  = list_to_set (map ordered rows) ∪ genotypes_unique c.
Proof.
  induction rows as [|[a1 a2] rows IH]; intros c; cbn [fold_left map list_to_set fst snd].
  - now rewrite (left_id_L ∅ (∪)).
  - rewrite IH, fill_containers_ordered. cbn [genotypes_unique].
    rewrite (assoc_L (∪)). f_equal. apply (comm_L (∪)).
Qed.

(** Property X16. In the containers built from a genotype matrix the set of unique
    genotypes is the set of rows, smaller allele first; it is the key set
    of [genotype_p]; and both alleles of each unique genotype are keys of
    [allele_p]. The lookups by [at] in [estimate_theta_1subpop] therefore
    find their keys. *)
Theorem estimator_lookups_find_their_keys (genotypes : IntegerMatrix) (c : containers) :
  estimate_theta_1subpop_genotypes_containers genotypes = Ok c ->
  lookups_succeed c
  /\ genotypes_unique c = list_to_set (map ordered (genotype_rows_of genotypes))
  /\ dom (genotype_p c) = genotypes_unique c.
Proof.
  unfold estimate_theta_1subpop_genotypes_containers.
  destruct (Z.of_nat (nrow genotypes) <=? 0); [discriminate|].
  destruct (negb _); [discriminate|]. intros [= <-].
  rewrite fold_rows. fold (genotype_rows_of genotypes).
  refine (conj _ (conj _ _)).
  - generalize (genotype_rows_of genotypes).
    assert (H0 : lookups_succeed no_containers).
    { intros a1 a2 Hin. cbn in Hin. now apply not_elem_of_empty in Hin. }
    revert H0. generalize no_containers. intros c0 H0 rows. revert c0 H0.
    induction rows as [|[a1 a2] rows IH]; intros c0 H0; cbn [fold_left]; [exact H0|].
    apply IH. now apply fill_containers_lookups.
  - rewrite fill_containers_unique. cbn [no_containers genotypes_unique].
    apply (right_id_L ∅ (∪)).
  - generalize (genotype_rows_of genotypes).
    assert (H0 : dom (genotype_p no_containers) = genotypes_unique no_containers).
    { cbn. apply dom_empty_L. }
    revert H0. generalize no_containers. intros c0 H0 rows. revert c0 H0.
    induction rows as [|[a1 a2] rows IH]; intros c0 H0; cbn [fold_left]; [exact H0|].
    apply IH. rewrite fill_containers_ordered. cbn [genotypes_unique genotype_p].
    unfold bump. rewrite dom_insert_L. now rewrite H0.
Qed.

Lemma estimator_lookups_find_their_keys_witness :
  exists c,
    estimate_theta_1subpop_genotypes_containers three_genotypes = Ok c
    /\ lookups_succeed c
    /\ genotypes_unique c = list_to_set (map ordered (genotype_rows_of three_genotypes))
    /\ dom (genotype_p c) = genotypes_unique c.
Proof.
  eexists. split; [reflexivity|].
  apply (estimator_lookups_find_their_keys three_genotypes). reflexivity.
Defined.

Lemma map_lookup_seq {A B : Type} (F : option A -> B) (l : list A) :
  forall s (pre : list A), length pre = s ->
  map (fun i => F ((pre ++ l) !! i)) (seq s (length l)) = map (fun x => F (Some x)) l.
Proof.
  induction l as [|x l IH]; intros s pre Hs; cbn [length seq map]; [reflexivity|].
  f_equal.
  - rewrite lookup_app_r by lia. now rewrite Hs, Nat.sub_diag.
  - specialize (IH (S s) (pre ++ [x])). rewrite <- app_assoc in IH. cbn in IH.
    apply IH. rewrite length_app. cbn. lia.
Qed.

Lemma individuals_loop (h : heap) (one_over_n one_over_2n : Q) (l : list addr) :
  (forall p, p ∈ l -> exists x, h !! p = Some x /\ (2 <= length (m_haplotype x))%nat) ->
  forall c,
  ofold (fun c individual =>
           let! x := deref h individual in
           let hap := m_haplotype x in
           let! a1 := vec_nth hap 0 in
           let! a2 := vec_nth hap 1 in
           Ok (estimate_theta_1subpop_fill_containers a1 a2 one_over_n one_over_2n c)) l c
  = Ok (fold_left (fun c r =>
                     estimate_theta_1subpop_fill_containers (fst r) (snd r)
                       one_over_n one_over_2n c)
          (map (fun p => match h !! p with
                         | Some x => (nth 0 (m_haplotype x) 0, nth 1 (m_haplotype x) 0)
                         | None => (0, 0)
                         end) l) c).
Proof.
  induction l as [|p l IH]; intros Hall c; cbn [ofold map fold_left]; [reflexivity|].
  destruct (Hall p) as (x & Hx & Hlen); [left|].
  unfold deref at 1. rewrite Hx. cbn [obind].
  destruct (m_haplotype x) as [|a1 [|a2 rest]]; cbn in Hlen; try lia.
  cbn [vec_nth lookup list_lookup obind nth fst snd].
  apply IH. intros q Hq. apply Hall. now right.
Qed.

(** Property X17. For individuals that all exist and carry at least two loci, the
    first one with exactly two and a set haplotype,
    [estimate_theta_1subpop_individuals] builds the very containers that
    [estimate_theta_1subpop_genotypes] builds from the matrix of their
    first two alleles. *)
Theorem individuals_and_genotypes_build_the_same_containers (h : heap)
    (individuals : list addr) (first : addr) (x0 : Individual) :
  individuals !! O = Some first ->
  h !! first = Some x0 ->
  m_haplotype_set x0 = true ->
  length (m_haplotype x0) = 2%nat ->
  (forall p, p ∈ individuals ->
     exists x, h !! p = Some x /\ (2 <= length (m_haplotype x))%nat) ->
  estimate_theta_1subpop_individuals_containers h individuals
  = estimate_theta_1subpop_genotypes_containers (matrix_of_individuals h individuals).
Proof.
  intros Hfirst Hx0 Hset Hlen Hall.
  unfold estimate_theta_1subpop_individuals_containers,
    estimate_theta_1subpop_genotypes_containers.
  cbn [matrix_of_individuals nrow ncol cell Nat.eqb negb].
  destruct (Z.leb_spec (Z.of_nat (length individuals)) 0) as [Hn|_].
  { destruct individuals; [discriminate|cbn in Hn; lia]. }
  unfold vec_nth at 1. rewrite Hfirst. cbn [obind]. unfold deref at 1.
  rewrite Hx0. cbn [obind]. rewrite Hset, Hlen. cbn [Nat.eqb negb].
  rewrite individuals_loop by exact Hall. f_equal.
  rewrite (fold_rows _ _ (matrix_of_individuals h individuals)).
  cbn [matrix_of_individuals cell]. f_equal.
  pose proof (map_lookup_seq
           (fun o => (match o with
                      | Some p => match h !! p with
                                  | Some x => nth 0 (m_haplotype x) 0
                                  | None => 0
                                  end
                      | None => 0
                      end,
                      match o with
                      | Some p => match h !! p with
                                  | Some x => nth 1 (m_haplotype x) 0
                                  | None => 0
                                  end
                      | None => 0
                      end)) individuals O [] eq_refl) as E.
  cbn [app] in E. rewrite E. apply map_ext. intros p. now destruct (h !! p).
Qed.

Lemma individuals_and_genotypes_build_the_same_containers_witness :
  estimate_theta_1subpop_individuals_containers three_individuals
    [1%positive; 2%positive; 3%positive]
  = estimate_theta_1subpop_genotypes_containers
      (matrix_of_individuals three_individuals [1%positive; 2%positive; 3%positive]).
Proof.
  apply (individuals_and_genotypes_build_the_same_containers three_individuals
           [1%positive; 2%positive; 3%positive] 1%positive (carrier [1; 1]));
    try reflexivity.
  intros p Hp. apply elem_of_cons in Hp as [->|Hp].
  { eexists. split; [reflexivity|]. cbn. lia. }
  apply elem_of_cons in Hp as [->|Hp].
  { eexists. split; [reflexivity|]. cbn. lia. }
  apply elem_of_cons in Hp as [->|Hp]; [|inversion Hp].
  eexists. split; [reflexivity|]. cbn. lia.
Defined.

(** Property X18. [estimate_theta_1subpop_individuals] checks the haplotype of the
    first individual only. If the first passes and any individual of the
    list is dangling or carries fewer than two loci (an unset haplotype,
    say), the function reads [hap[0]] or [hap[1]] out of range: undefined
    behaviour, not the error message the first individual would get. *)
Theorem later_individuals_are_not_checked (h : heap) (individuals : list addr)
    (first p : addr) (x0 : Individual) :
  individuals !! O = Some first ->
  h !! first = Some x0 ->
  m_haplotype_set x0 = true ->
  length (m_haplotype x0) = 2%nat ->
  p ∈ individuals ->
  (forall x, h !! p = Some x -> (length (m_haplotype x) < 2)%nat) ->
  estimate_theta_1subpop_individuals_containers h individuals = Undefined.
Proof.
  intros Hfirst Hx0 Hset Hlen Hin Hbad.
  unfold estimate_theta_1subpop_individuals_containers.
  destruct (Z.leb_spec (Z.of_nat (length individuals)) 0) as [Hn|_].
  { destruct individuals; [discriminate|cbn in Hn; lia]. }
  unfold vec_nth at 1. rewrite Hfirst. cbn [obind]. unfold deref at 1.
  rewrite Hx0. cbn [obind]. rewrite Hset, Hlen. cbn [Nat.eqb negb].
  generalize (1 / inject_Z (Z.of_nat (length individuals)))%Q.
  generalize (1 / (2 * inject_Z (Z.of_nat (length individuals))))%Q.
  intros one_over_2n one_over_n.
  generalize no_containers. clear Hfirst.
  induction individuals as [|q l IH]; intros c; [inversion Hin|].
  cbn [ofold]. unfold deref at 1.
  destruct (decide (q = p)) as [->|Hne].
  - destruct (h !! p) as [x|] eqn:Hx; cbn [obind]; [|reflexivity].
    specialize (Hbad x eq_refl).
    destruct (m_haplotype x) as [|a1 [|a2 rest]]; cbn in Hbad; try lia; reflexivity.
  - apply elem_of_cons in Hin as [Hin|Hin]; [congruence|].
    destruct (h !! q) as [x|]; cbn [obind]; [|reflexivity].
    unfold vec_nth.
    destruct (m_haplotype x) as [|a1 [|a2 rest]];
      cbn [lookup list_lookup obind]; try reflexivity.
    now apply IH.
Qed.

Lemma later_individuals_are_not_checked_witness :
  estimate_theta_1subpop_individuals_containers unchecked_pair [1%positive; 2%positive]
  = Undefined.
Proof.
  apply (later_individuals_are_not_checked unchecked_pair [1%positive; 2%positive]
           1%positive 2%positive (carrier [1; 1])); try reflexivity.
  - right. left.
  - intros x [= <-]. apply Nat.ltb_lt. reflexivity.
Defined.

(** ** The tables for several subpopulations *)

Lemma bump_at_Some (v : list (gmap Z Q)) (i : nat) (a : Z) (x : Q) (m : gmap Z Q) :
  v !! i = Some m -> bump_at v i a x = Ok (<[i := bump m a x]> v).
Proof. intros H. unfold bump_at, vec_nth. now rewrite H. Qed.

Lemma fill_at (a b : Z) (i : nat) (frac1 frac2 : Q) (t : subpop_tables)
    (HA PAA pA : gmap Z Q) :
  H_A t !! i = Some HA -> P_AA t !! i = Some PAA -> p_A t !! i = Some pA ->
  (2 * frac1 == frac2)%Q ->
  exists HA' PAA' pA',
    fill_H_A_P_AA_p_A a b i frac1 frac2 t
    = Ok (mkTables (<[i := HA']> (H_A t)) (<[i := PAA']> (P_AA t)) (<[i := pA']> (p_A t)))
    /\ (total pA' == total pA + frac2)%Q
    /\ forall c, (value_at HA' c - 2 * (value_at pA' c - value_at PAA' c)
                  == value_at HA c - 2 * (value_at pA c - value_at PAA c))%Q.
Proof.
  intros HH HP Hp H2. unfold fill_H_A_P_AA_p_A.
  pose proof (lookup_lt_Some _ _ _ HH) as LH.
  pose proof (lookup_lt_Some _ _ _ Hp) as Lp.
  destruct (Z.eqb_spec a b) as [->|Hne].
  - rewrite (bump_at_Some _ _ _ _ _ Hp). cbn [obind].
    rewrite (bump_at_Some _ _ _ _ _ HP). cbn [obind].
    exists HA, (bump PAA b frac2), (bump pA b frac2).
    rewrite (list_insert_id _ _ _ HH). split; [reflexivity|].
    split; [apply total_bump|].
    intros c. rewrite !value_at_bump. destruct (decide (c = b)) as [->|_]; ring.
  - rewrite (bump_at_Some _ _ _ _ _ Hp). cbn [obind].
    rewrite (bump_at_Some _ _ b frac1 (bump pA a frac1))
      by (now apply list_lookup_insert_eq). cbn [obind].
    rewrite (bump_at_Some _ _ _ _ _ HH). cbn [obind].
    rewrite (bump_at_Some _ _ b frac2 (bump HA a frac2))
      by (now apply list_lookup_insert_eq). cbn [obind].
    rewrite !list_insert_insert_eq.
    exists (bump (bump HA a frac2) b frac2), PAA, (bump (bump pA a frac1) b frac1).
    rewrite (list_insert_id _ _ _ HP). split; [reflexivity|].
    split; [rewrite !total_bump, <- H2; ring|].
    intros c. rewrite !value_at_bump.
    destruct (decide (c = b)) as [->|Hcb].
    + destruct (decide (b = a)) as [->|_]; [congruence|]. rewrite <- H2. ring.
    + destruct (decide (c = a)) as [->|_]; [rewrite <- H2|]; ring.
Qed.

Lemma fill_rows_at (subpop : IntegerMatrix) (i : nat) (frac1 frac2 : Q) :
  (2 * frac1 == frac2)%Q ->
  forall (rows : list nat) (t : subpop_tables) (HA PAA pA : gmap Z Q),
  H_A t !! i = Some HA -> P_AA t !! i = Some PAA -> p_A t !! i = Some pA ->
  exists HA' PAA' pA',
    ofold (fun t j =>
             fill_H_A_P_AA_p_A (cell subpop j 0) (cell subpop j 1) i frac1 frac2 t)
          rows t
    = Ok (mkTables (<[i := HA']> (H_A t)) (<[i := PAA']> (P_AA t)) (<[i := pA']> (p_A t)))
    /\ (total pA' == total pA + inject_Z (Z.of_nat (length rows)) * frac2)%Q
    /\ forall c, (value_at HA' c - 2 * (value_at pA' c - value_at PAA' c)
                  == value_at HA c - 2 * (value_at pA c - value_at PAA c))%Q.
Proof.
  intros H2. induction rows as [|j rows IH]; intros t HA PAA pA HH HP Hp.
  - exists HA, PAA, pA. cbn [ofold length].
    rewrite !list_insert_id by assumption. destruct t. split; [reflexivity|].
    split; [cbn; ring|reflexivity].
  - cbn [ofold length].
    destruct (fill_at (cell subpop j 0) (cell subpop j 1) i frac1 frac2 t HA PAA pA
                HH HP Hp H2) as (HA1 & PAA1 & pA1 & -> & Ht1 & HD1).
    cbn [obind].
    pose proof (lookup_lt_Some _ _ _ HH) as LH.
    pose proof (lookup_lt_Some _ _ _ HP) as LP.
    pose proof (lookup_lt_Some _ _ _ Hp) as Lp.
    destruct (IH (mkTables (<[i := HA1]> (H_A t)) (<[i := PAA1]> (P_AA t))
                    (<[i := pA1]> (p_A t))) HA1 PAA1 pA1)
      as (HA2 & PAA2 & pA2 & E & Ht2 & HD2);
      try (cbn; now apply list_lookup_insert_eq).
    exists HA2, PAA2, pA2. rewrite E. cbn [H_A P_AA p_A].
    rewrite !list_insert_insert_eq. split; [reflexivity|]. split.
    + rewrite Ht2, Ht1, Nat2Z.inj_succ, <- Z.add_1_r, inject_Z_plus. ring.
    + intros c. now rewrite HD2, HD1.
Qed.

Lemma fill_subpop_step (subpops : list IntegerMatrix) (subpops_sizes : list Z)
    (r s : nat) (st : subpop_tables * list Q) (subpop : IntegerMatrix) (size : Z) :
  filled_upto subpops_sizes r s st ->
  (s < r)%nat ->
  subpops !! s = Some subpop -> (1 <= nrow subpop)%nat -> ncol subpop = 2%nat ->
  subpops_sizes !! s = Some size -> 0 < size ->
  exists st', fill_subpop subpops subpops_sizes st s = Ok st'
              /\ filled_upto subpops_sizes r (S s) st'.
Proof.
  intros (LH & LP & Lp & Ln & Hdone & Hrest) Hs HM Hrow Hcol Hsize Hpos.
  destruct st as [t n]. cbn [fst snd] in *.
  unfold fill_subpop, vec_nth. rewrite HM. cbn [obind].
  destruct (Z.leb_spec (Z.of_nat (nrow subpop)) 0); [lia|].
  rewrite Hcol. cbn [Nat.eqb negb]. rewrite Hsize. cbn [obind].
  destruct (Z.leb_spec size 0); [lia|]. cbn [fst snd].
  destruct (Hrest s) as (HH & HP & Hp); [lia|].
  set (m := inject_Z (Z.of_nat (nrow subpop))).
  assert (Hnz : ~ (m == 0)%Q).
  { unfold m, Qeq, inject_Z. cbn [Qnum Qden]. lia. }
  assert (H2 : (2 * (1 / (2 * m)) == 1 / m)%Q) by (field; exact Hnz).
  destruct (fill_rows_at subpop s (1 / (2 * m)) (1 / m) H2 (seq 0 (nrow subpop))
              t ∅ ∅ ∅ HH HP Hp) as (HA' & PAA' & pA' & -> & Ht & HD).
  cbn [obind]. eexists. split; [reflexivity|].
  rewrite length_seq in Ht. fold m in Ht.
  unfold filled_upto. cbn [fst snd H_A P_AA p_A].
  rewrite !length_insert.
  refine (conj LH (conj LP (conj Lp (conj Ln (conj _ _))))).
  - intros k Hk. destruct (decide (k = s)) as [->|Hne].
    + split.
      * exists HA', PAA', pA'. cbn [H_A P_AA p_A].
        rewrite !list_lookup_insert_eq by lia.
        refine (conj eq_refl (conj eq_refl (conj eq_refl (conj _ _)))).
        -- rewrite Ht. unfold total. rewrite table_sum_empty. field. exact Hnz.
        -- intros a. specialize (HD a). unfold value_at in HD at 4 5 6.
           rewrite !lookup_empty in HD. cbn [default from_option] in HD.
           apply Qplus_inj_r with (z := (- (2 * (value_at pA' a - value_at PAA' a)))%Q).
           rewrite Qplus_opp_r. unfold Qminus in HD. rewrite HD. ring.
      * exists size. split; [exact Hsize|]. now rewrite list_lookup_insert_eq by lia.
    + destruct (Hdone k) as ((HA & PAA & pA & H1 & H2' & H3 & H4) & sz & Hsz & Hn); [lia|].
      split.
      * exists HA, PAA, pA. cbn [H_A P_AA p_A].
        rewrite !list_lookup_insert_ne by auto. auto.
      * exists sz. split; [exact Hsz|]. now rewrite list_lookup_insert_ne by auto.
  - intros k Hk. rewrite !list_lookup_insert_ne by lia. apply Hrest. lia.
Qed.

Lemma fill_subpops_loop (subpops : list IntegerMatrix) (subpops_sizes : list Z) (r : nat) :
  length subpops = r -> length subpops_sizes = r ->
  Forall (fun s => 0 < s) subpops_sizes ->
  Forall (fun M => (1 <= nrow M)%nat /\ ncol M = 2%nat) subpops ->
  forall n s st,
  filled_upto subpops_sizes r s st -> (s + n = r)%nat ->
  exists st', ofold (fill_subpop subpops subpops_sizes) (seq s n) st = Ok st'
              /\ filled_upto subpops_sizes r r st'.
Proof.
  intros Lr Ls Hsizes Hsub. induction n as [|n IH]; intros s st Hst Hsn.
  - exists st. cbn. split; [reflexivity|].
    assert (E : s = r) by lia. rewrite E in Hst. exact Hst.
  - cbn [seq ofold].
    destruct (lookup_lt_is_Some_2 subpops s) as [M HM]; [lia|].
    destruct (lookup_lt_is_Some_2 subpops_sizes s) as [size Hsize]; [lia|].
    assert (HMok : (1 <= nrow M)%nat /\ ncol M = 2%nat).
    { rewrite Forall_forall in Hsub. apply Hsub. eapply list_elem_of_lookup_2; eauto. }
    assert (Hpos : 0 < size).
    { rewrite Forall_forall in Hsizes. apply Hsizes. eapply list_elem_of_lookup_2; eauto. }
    destruct HMok as [Hrow Hcol].
    destruct (fill_subpop_step subpops subpops_sizes r s st M size Hst) as (st1 & -> & Hst1);
      auto; [lia|].
    cbn [obind]. apply IH; [exact Hst1|lia].
Qed.

(** Property X19. For at least one subpopulation, as many positive sizes, and
    samples with at least one row and two columns each,
    [estimate_theta_subpops_genotypes] reaches the call of the engine; the
    vector [n] holds the sizes, and in every subpopulation, in exact
    arithmetic, the allele proportions sum to one and the heterozygous
    proportion of each allele is twice the difference of its allele
    proportion and its homozygous proportion. *)
Theorem subpop_tables_are_consistent (subpops : list IntegerMatrix)
    (subpops_sizes : list Z) :
  (1 <= length subpops)%nat ->
  length subpops_sizes = length subpops ->
  Forall (fun s => 0 < s) subpops_sizes ->
  Forall (fun M => (1 <= nrow M)%nat /\ ncol M = 2%nat) subpops ->
  exists t n,
    estimate_theta_subpops_genotypes_containers subpops subpops_sizes = Ok (t, n)
    /\ n = map inject_Z subpops_sizes
    /\ forall i, (i < length subpops)%nat -> consistent_at t i.
Proof.
  intros Hr Hlen Hsizes Hsub. unfold estimate_theta_subpops_genotypes_containers.
  destruct (Z.leb_spec (Z.of_nat (length subpops)) 0); [lia|].
  rewrite Hlen, Nat.eqb_refl. cbn [negb].
  assert (Hex : existsb (fun s => s <=? 0) subpops_sizes = false).
  { apply not_true_is_false. rewrite existsb_exists. intros (s & Hin & Hs).
    rewrite Forall_forall in Hsizes. apply list_elem_of_In in Hin.
    specialize (Hsizes s Hin). apply Z.leb_le in Hs. lia. }
  rewrite Hex.
  destruct (fill_subpops_loop subpops subpops_sizes (length subpops) eq_refl Hlen
              Hsizes Hsub (length subpops) O
              (mkTables (replicate (length subpops) ∅) (replicate (length subpops) ∅)
                 (replicate (length subpops) ∅), replicate (length subpops) 0%Q))
    as ([t n] & E & (_ & _ & _ & Ln & Hdone & _)).
  { unfold filled_upto. cbn [fst snd H_A P_AA p_A]. rewrite !length_replicate.
    refine (conj eq_refl (conj eq_refl (conj eq_refl (conj eq_refl (conj _ _))))).
    - intros k Hk. lia.
    - intros k Hk. rewrite !lookup_replicate_2 by lia. auto. }
  { lia. }
  exists t, n. split; [exact E|]. cbn [fst snd] in *. split.
  - apply list_eq. intros k. rewrite list_lookup_fmap.
    destruct (Nat.lt_ge_cases k (length subpops)) as [Hk|Hk].
    + destruct (Hdone k Hk) as (_ & size & Hsz & Hn). now rewrite Hn, Hsz.
    + rewrite (lookup_ge_None_2 n) by lia.
      now rewrite (lookup_ge_None_2 subpops_sizes) by lia.
  - intros i Hi. apply (Hdone i Hi).
Qed.

Lemma subpop_tables_are_consistent_witness :
  exists t n,
    estimate_theta_subpops_genotypes_containers two_subpops [10; 20] = Ok (t, n)
    /\ n = map inject_Z [10; 20]
    /\ forall i, (i < length two_subpops)%nat -> consistent_at t i.
Proof.
  apply (subpop_tables_are_consistent two_subpops [10; 20]).
  - cbn. lia.
  - reflexivity.
  - repeat constructor.
  - repeat constructor.
Defined.


Lemma bump_at_no_throw (v : list (gmap Z Q)) (i : nat) (a : Z) (x : Q) (e : exn) :
  bump_at v i a x <> Throw e.
Proof. unfold bump_at, vec_nth. now destruct (v !! i). Qed.



(** ** Counting hash values of pairs *)

Lemma count_total_insert_fresh (tab : gmap Z Z) (k v : Z) :
  tab !! k = None -> count_total (<[k := v]> tab) = v + count_total tab.
Proof.
  intros Hk. unfold count_total.
  apply (map_fold_insert_L (fun _ v acc => v + acc)); [|exact Hk].
  intros j1 j2 z1 z2 y _ _ _. lia.
Qed.

Lemma count_total_count_up (tab : gmap Z Z) (k : Z) :
  count_total (count_up tab k) = count_total tab + 1.
Proof.
  unfold count_up. rewrite <- (insert_delete_eq tab k).
  rewrite count_total_insert_fresh by apply lookup_delete_eq.
  destruct (tab !! k) as [v|] eqn:Hk; cbn [default from_option]; unfold id.
  - rewrite <- (insert_id tab k v Hk) at 2. rewrite <- (insert_delete_eq tab k v).
    rewrite count_total_insert_fresh by apply lookup_delete_eq. lia.
  - rewrite delete_id by exact Hk. lia.
Qed.

Lemma to_int_range (z : Z) : - 2 ^ 31 <= to_int z < 2 ^ 31.
Proof.
  unfold to_int. pose proof (Z.mod_pos_bound (z + 2 ^ 31) (2 ^ 32) eq_refl).
  change (2 ^ 32) with (2 ^ 31 + 2 ^ 31) in *. lia.
Qed.

Lemma inner_counts (i : nat) (l : list nat) :
  forall tab,
  let tab' := fold_left (fun tab j =>
                count_up tab (to_int (hash_combine (Z.of_nat i) (Z.of_nat j)))) l tab in
  count_total tab' = count_total tab + Z.of_nat (length l)
  /\ ((forall k, is_Some (tab !! k) -> - 2 ^ 31 <= k < 2 ^ 31) ->
      forall k, is_Some (tab' !! k) -> - 2 ^ 31 <= k < 2 ^ 31).
Proof.
  induction l as [|j l IH]; intros tab; cbn [fold_left length].
  - split; [lia|auto].
  - destruct (IH (count_up tab (to_int (hash_combine (Z.of_nat i) (Z.of_nat j)))))
      as [Hc Hr].
    split.
    + cbn zeta in Hc. rewrite Hc, count_total_count_up. lia.
    + intros Htab. apply Hr. intros k. unfold count_up.
      destruct (decide (k = to_int (hash_combine (Z.of_nat i) (Z.of_nat j)))) as [->|Hne].
      * intros _. apply to_int_range.
      * rewrite lookup_insert_ne by auto. apply Htab.
Qed.

Lemma outer_counts (P : nat) (n : nat) :
  forall s tab, (s + n < P \/ n = 0)%nat ->
  let tab' := fold_left (fun tab i =>
                fold_left (fun tab j =>
                             count_up tab (to_int (hash_combine (Z.of_nat i) (Z.of_nat j))))
                          (seq (S i) (P - S i)) tab) (seq s n) tab in
  2 * count_total tab'
  = 2 * count_total tab
    + Z.of_nat n * (2 * Z.of_nat P - 2 * Z.of_nat s - Z.of_nat n - 1)
  /\ ((forall k, is_Some (tab !! k) -> - 2 ^ 31 <= k < 2 ^ 31) ->
      forall k, is_Some (tab' !! k) -> - 2 ^ 31 <= k < 2 ^ 31).
Proof.
  induction n as [|n IH]; intros s tab Hs; cbn [seq fold_left].
  - split; [lia|auto].
  - destruct (inner_counts s (seq (S s) (P - S s)) tab) as [Hc Hr].
    rewrite length_seq in Hc. cbn zeta in Hc, Hr.
    destruct (IH (S s) (fold_left (fun tab j =>
                count_up tab (to_int (hash_combine (Z.of_nat s) (Z.of_nat j))))
                (seq (S s) (P - S s)) tab)) as [Hc' Hr']; [lia|].
    cbn zeta in Hc', Hr'. split.
    + rewrite Hc', Hc. nia.
    + intros Htab. apply Hr', Hr, Htab.
Qed.

(** Property X21. For [p >= 0] the counts in the table of [hash_colisions] add up to
    the number of pairs [i < j < p], that is [p (p - 1) / 2], and every key
    is an [int]. *)
Theorem hash_colisions_counts_every_pair (p : Z) :
  0 <= p ->
  2 * count_total (hash_colisions p) = p * (p - 1)
  /\ forall hash, is_Some (hash_colisions p !! hash) -> - 2 ^ 31 <= hash < 2 ^ 31.
Proof.
  intros Hp. unfold hash_colisions.
  destruct (outer_counts (Z.to_nat p) (Z.to_nat (p - 1)) O ∅) as [Hc Hr]; [lia|].
  cbn zeta in Hc, Hr. split.
  - rewrite Hc. unfold count_total. rewrite map_fold_empty.
    destruct (Z.eq_dec p 0) as [->|Hne]; [reflexivity|]. nia.
  - apply Hr. intros k [v Hv]. rewrite lookup_empty in Hv. discriminate.
Qed.

Lemma hash_colisions_counts_every_pair_witness :
  2 * count_total (hash_colisions 4) = 4 * (4 - 1)
  /\ forall hash, is_Some (hash_colisions 4 !! hash) -> - 2 ^ 31 <= hash < 2 ^ 31.
Proof. apply (hash_colisions_counts_every_pair 4). lia. Defined.

(** ** More on the samplers *)

Lemma climb_to_last_generation (g : Z) (children : list (option addr)) (founders : Z)
    (h : heap) :
  generation_inv g children founders h ->
  forall (n : nat) a x,
  h !! a = Some x -> g - 1 - m_generation x = Z.of_nat n ->
  exists top y,
    anc h n a = Some top /\ Some top ∈ children
    /\ h !! top = Some y /\ m_father y = None /\ m_generation y = g - 1.
Proof.
  intros [Hlinked Hbound Hmembers Hslots _ _ _ Horphans].
  induction n as [|n IH]; intros a x Ha Hn.
  - assert (Hin : Some a ∈ children) by (apply (Hmembers a x Ha); lia).
    destruct (Hslots a Hin) as (y & Hy & Hg & Hf).
    exists a, y. cbn [anc]. auto.
  - assert (Hlt : m_generation x < g - 1) by lia.
    destruct (m_father x) as [f|] eqn:Hf; [|now destruct (Horphans a x Ha Hlt)].
    destruct (Hlinked a x f Ha Hf) as (fx & Hfx & Hgen & _).
    destruct (IH f fx Hfx) as (top & y & Hanc & Hrest); [lia|].
    exists top, y. split; [|exact Hrest].
    rewrite anc_S_inner. unfold father_of. now rewrite Ha, Hf.
Qed.

(** Property X22. In the population either sampler returns, every individual lies at
    most in the last generation, and following the fathers from it for as
    many steps as generations lie in between ends at an individual of the
    last generation, who has no father. *)
Theorem sampled_individuals_descend_from_the_last_generation
    sample_father check_abort M fuel G res a x :
  sample_with sample_father check_abort M fuel G = Ok res ->
  individuals (res_population res) !! a = Some x ->
  m_generation x <= res_generations res - 1
  /\ exists top y,
       anc (individuals (res_population res))
           (Z.to_nat (res_generations res - 1 - m_generation x)) a = Some top
       /\ Some top ∈ res_last_generation res
       /\ individuals (res_population res) !! top = Some y
       /\ m_father y = None
       /\ m_generation y = res_generations res - 1.
Proof.
  intros Hrun Ha. apply sample_with_inv in Hrun as [Hinv _].
  pose proof (gi_bound _ _ _ _ Hinv a x Ha) as Hb. split; [exact Hb|].
  apply (climb_to_last_generation _ _ _ _ Hinv _ a x Ha). lia.
Qed.

Lemma sampled_individuals_descend_from_the_last_generation_witness :
  exists x,
    individuals (res_population fixed_run) !! 1%positive = Some x
    /\ m_generation x <= res_generations fixed_run - 1
    /\ exists top y,
         anc (individuals (res_population fixed_run))
             (Z.to_nat (res_generations fixed_run - 1 - m_generation x)) 1%positive
         = Some top
         /\ Some top ∈ res_last_generation fixed_run
         /\ individuals (res_population fixed_run) !! top = Some y
         /\ m_father y = None
         /\ m_generation y = res_generations fixed_run - 1.
Proof.
  eexists. split; [vm_compute; reflexivity|].
  apply (sampled_individuals_descend_from_the_last_generation
           (fun _ k => sample_person in_turn 3 k) never_abort 3 5 3 fixed_run 1%positive).
  - vm_compute. reflexivity.
  - vm_compute. reflexivity.
Defined.









Lemma registered_update (pop : gmap Z addr) (h : heap) (id : Z) (a : addr)
    (x x' : Individual) :
  registered_at pop h id -> h !! a = Some x -> m_pid x' = m_pid x ->
  registered_at pop (<[a := x']> h) id.
Proof.
  intros (H1 & H2 & H3) Ha Hpid. refine (conj _ (conj _ _)).
  - intros b y. destruct (decide (b = a)) as [->|Hne].
    + rewrite lookup_insert_eq. intros [= <-]. rewrite Hpid. exact (H1 a x Ha).
    + rewrite lookup_insert_ne by auto. apply H1.
  - intros pid b Hb. destruct (H2 pid b Hb) as (y & Hy & Hp).
    destruct (decide (b = a)) as [->|Hne].
    + exists x'. rewrite lookup_insert_eq. split; [reflexivity|]. congruence.
    + exists y. now rewrite lookup_insert_ne by auto.
  - rewrite map_size_insert_Some; [exact H3|eauto].
Qed.

Lemma registered_set_father (pop : gmap Z addr) (h h1 : heap) (id : Z) (c : addr)
    (f : option addr) :
  registered_at pop h id -> set_father c f h = Ok h1 -> registered_at pop h1 id.
Proof.
  intros Hr. unfold set_father, deref.
  destruct (h !! c) as [x|] eqn:Hc; cbn [obind]; [|discriminate].
  intros [= <-]. now apply (registered_update pop h id c x).
Qed.

Lemma registered_add_child (pop : gmap Z addr) (h h1 : heap) (id : Z) (f c : addr) :
  registered_at pop h id -> add_child f c h = Ok h1 -> registered_at pop h1 id.
Proof.
  intros Hr. unfold add_child, deref.
  destruct (h !! f) as [x|] eqn:Hf; cbn [obind]; [|discriminate].
  destruct (_ !! c) as [y|] eqn:Hc; cbn [obind]; [|discriminate].
  intros [= <-]. apply (registered_update pop _ id c y); [|exact Hc|reflexivity].
  now apply (registered_update pop h id f x).
Qed.

Lemma registered_alloc (g : Z) (s : sim) :
  registered s -> registered (snd (alloc_Individual g s)).
Proof.
  intros (H1 & H2 & H3). unfold alloc_Individual, registered. cbn.
  pose proof (fresh_heap (individuals s)) as Hfresh.
  set (a := fresh (dom (individuals s))) in *.
  refine (conj _ (conj _ _)).
  - intros b y. destruct (decide (b = a)) as [->|Hne].
    + rewrite lookup_insert_eq. intros [= <-]. cbn. rewrite lookup_insert_eq.
      split; [reflexivity|]. lia.
    + rewrite lookup_insert_ne by auto. intros Hb. destruct (H1 b y Hb) as [Hp Hrange].
      rewrite lookup_insert_ne by lia. split; [exact Hp|lia].
  - intros pid b. destruct (decide (pid = individual_id s)) as [->|Hne].
    + rewrite lookup_insert_eq. intros [= <-]. eexists. rewrite lookup_insert_eq.
      split; reflexivity.
    + rewrite lookup_insert_ne by auto. intros Hb. destruct (H2 pid b Hb) as (y & Hy & Hp).
      exists y. rewrite lookup_insert_ne by congruence. auto.
  - rewrite map_size_insert_None by exact Hfresh. lia.
Qed.

Lemma registered_pick_father sample_father g fathers founders s child
    fathers' founders' s' :
  registered s ->
  pick_father sample_father g (fathers, founders, s) child = Ok (fathers', founders', s') ->
  registered s'.
Proof.
  intros Hr. unfold pick_father. destruct child as [c|]; [|now intros [= _ _ <-]].
  destruct (sample_father g (rng s)) as [father_i k'].
  destruct (vec_at fathers father_i) as [slot| | |]; cbn [obind]; try discriminate.
  set (s0 := mkSim (population s) (individuals s) (individual_id s) k').
  assert (Hr0 : registered s0) by exact Hr.
  destruct slot as [f|].
  - destruct (set_father c (Some f) (individuals s0)) as [h1| | |] eqn:E1; cbn [obind];
      try discriminate.
    destruct (add_child f c h1) as [h2| | |] eqn:E2; cbn [obind]; try discriminate.
    intros [= _ _ <-]. unfold registered. cbn.
    eapply registered_add_child; [|exact E2]. eapply registered_set_father; [|exact E1].
    exact Hr0.
  - pose proof (registered_alloc g s0 Hr0) as Hr1.
    destruct (alloc_Individual g s0) as [f s1]. cbn [snd] in Hr1.
    destruct (set_father c (Some f) (individuals s1)) as [h1| | |] eqn:E1; cbn [obind];
      try discriminate.
    destruct (add_child f c h1) as [h2| | |] eqn:E2; cbn [obind]; try discriminate.
    intros [= _ _ <-]. unfold registered. cbn.
    eapply registered_add_child; [|exact E2]. eapply registered_set_father; [|exact E1].
    exact Hr1.
Qed.

Lemma registered_children_loop sample_father g (todo : list (option addr)) :
  forall fathers founders s fathers' founders' s',
  registered s ->
  ofold (pick_father sample_father g) todo (fathers, founders, s)
    = Ok (fathers', founders', s') ->
  registered s'.
Proof.
  induction todo as [|child todo IH]; intros fathers founders s fathers' founders' s' Hr.
  - now intros [= _ _ <-].
  - cbn [ofold]. destruct (pick_father sample_father g (fathers, founders, s) child)
      as [[[f1 n1] s1]| | |] eqn:E; cbn [obind]; try discriminate.
    intros H. eapply IH; [|exact H]. eapply registered_pick_father; eauto.
Qed.

Lemma registered_generations_loop sample_father check_abort M fuel fixed generations :
  forall g founders children s end_generation res,
  registered s ->
  generations_loop sample_father check_abort M fuel fixed generations g founders
    children s end_generation = Ok res ->
  registered (res_population res).
Proof.
  induction fuel as [|fuel IH]; intros g founders children s end_generation res Hr;
    cbn [generations_loop].
  - destruct (_ || _); [discriminate|]. now intros [= <-].
  - destruct (_ || _).
    + destruct (ofold _ _ _) as [[[fathers nfl] s1]| | |] eqn:E; cbn [obind];
        try discriminate.
      destruct (check_abort g); [discriminate|].
      apply IH. eapply registered_children_loop; eauto.
    + now intros [= <-].
Qed.

Lemma registered_first_generation (n : nat) :
  forall s l s', registered s -> first_generation n s = (l, s') -> registered s'.
Proof.
  induction n as [|n IH]; intros s l s' Hr; cbn [first_generation].
  - now intros [= _ <-].
  - pose proof (registered_alloc 0 s Hr) as Hr1.
    destruct (alloc_Individual 0 s) as [a s1]. cbn [snd] in Hr1.
    destruct (first_generation n s1) as [l2 s2] eqn:E.
    intros [= _ <-]. eapply IH; eauto.
Qed.

(** Property X24. In the population either sampler returns, the population map finds
    every individual under its pid and holds nothing else, the pids run
    from 1 to the number of individuals, and no two individuals share a
    pid. *)
Theorem sampled_pids_are_unique sample_father check_abort M fuel G res :
  sample_with sample_father check_abort M fuel G = Ok res ->
  registered (res_population res)
  /\ forall a b x y,
       individuals (res_population res) !! a = Some x ->
       individuals (res_population res) !! b = Some y ->
       m_pid x = m_pid y -> a = b.
Proof.
  intros Hrun.
  assert (Hr : registered (res_population res)).
  { revert Hrun. unfold sample_with.
    destruct (M <=? 1)%nat; [discriminate|]. destruct (_ || _); [discriminate|].
    destruct (first_generation M _) as [l s] eqn:E.
    apply registered_generations_loop.
    apply (registered_first_generation M (mkSim ∅ ∅ 1 0) l s); [|exact E].
    refine (conj _ (conj _ _)); cbn.
    - intros a x Ha. rewrite lookup_empty in Ha. discriminate.
    - intros pid a Ha. rewrite lookup_empty in Ha. discriminate.
    - rewrite map_size_empty. reflexivity. }
  split; [exact Hr|]. intros a b x y Ha Hb Hpid.
  destruct Hr as (H1 & _ & _).
  destruct (H1 a x Ha) as [Hpa _]. destruct (H1 b y Hb) as [Hpb _].
  rewrite Hpid in Hpa. congruence.
Qed.

Lemma sampled_pids_are_unique_witness :
  registered (res_population fixed_run)
  /\ forall a b x y,
       individuals (res_population fixed_run) !! a = Some x ->
       individuals (res_population fixed_run) !! b = Some y ->
       m_pid x = m_pid y -> a = b.
Proof.
  apply (sampled_pids_are_unique (fun _ k => sample_person in_turn 3 k) never_abort
           3 5 3 fixed_run).
  vm_compute. reflexivity.
Defined.

Lemma sample_geneology_fixed_returns_witness :
  exists res, sample_geneology all_zero never_abort 4 3 2 = Ok res
              /\ res_generations res = 2.
Proof.
  apply (sample_geneology_fixed_returns all_zero 4 3 2).
  - intros k. split; [apply Qle_refl|reflexivity].
  - lia.
  - lia.
  - lia.
Defined.

Lemma variance_sentinel_run_ends_with_one_founder_witness :
  res_founders variance_run = 1
  /\ exists c x,
       Some c ∈ res_last_generation variance_run
       /\ individuals (res_population variance_run) !! c = Some x
       /\ m_generation x = res_generations variance_run - 1
       /\ m_father x = None
       /\ (forall a, Some a ∈ res_last_generation variance_run -> a = c)
       /\ (forall a y, individuals (res_population variance_run) !! a = Some y ->
             m_generation y = res_generations variance_run - 1 \/ m_father y = None ->
             a = c).
Proof.
  apply (variance_sentinel_run_ends_with_one_founder all_zero rising never_abort 5 3 1 1).
  vm_compute. reflexivity.
Defined.

(** ** The flood fill of the pedigree builder *)

Lemma with_pedigree_is_set (id : Z) (ped : option addr) (x : Individual) :
  id <> 0 -> pedigree_is_set (with_pedigree id ped x) = true.
Proof.
  intros Hid. unfold pedigree_is_set. cbn. apply negb_true_iff. now apply Z.eqb_neq.
Qed.

Lemma assigned_refl (id : Z) (ped : addr) (h : heap) : assigned id ped h h [].
Proof.
  refine (conj (NoDup_nil_2) (conj _ _)).
  - intros a Ha. inversion Ha.
  - reflexivity.
Qed.

Lemma assigned_set_after (id : Z) (ped : addr) (h h' : heap) (new : list addr) (a : addr) :
  id <> 0 -> assigned id ped h h' new -> a ∈ new -> is_set_in h' a.
Proof.
  intros Hid (_ & Hnew & _) Ha. destruct (Hnew a Ha) as (x & _ & _ & Hx').
  eexists. split; [exact Hx'|]. now apply with_pedigree_is_set.
Qed.

Lemma assigned_unset_before (id : Z) (ped : addr) (h h' : heap) (new : list addr)
    (a : addr) :
  assigned id ped h h' new -> a ∈ new -> ~ is_set_in h a.
Proof.
  intros (_ & Hnew & _) Ha (x & Hx & Hset). destruct (Hnew a Ha) as (y & Hy & Hunset & _).
  congruence.
Qed.

Lemma assigned_trans (id : Z) (ped : addr) (h h1 h2 : heap) (new1 new2 : list addr) :
  id <> 0 -> assigned id ped h h1 new1 -> assigned id ped h1 h2 new2 ->
  assigned id ped h h2 (new1 ++ new2).
Proof.
  intros Hid H01 H12.
  assert (Hdisj : forall a, a ∈ new1 -> a ∉ new2).
  { intros a H1 H2. apply (assigned_unset_before _ _ _ _ _ _ H12 H2).
    exact (assigned_set_after _ _ _ _ _ _ Hid H01 H1). }
  destruct H01 as (N1 & A1 & F1). destruct H12 as (N2 & A2 & F2).
  refine (conj _ (conj _ _)).
  - apply NoDup_app. auto.
  - intros a Ha. apply elem_of_app in Ha as [Ha|Ha].
    + destruct (A1 a Ha) as (x & Hx & Hu & Hx1). exists x.
      refine (conj Hx (conj Hu _)). rewrite F2 by auto. exact Hx1.
    + destruct (A2 a Ha) as (x & Hx & Hu & Hx2). exists x.
      assert (a ∉ new1) by (intros H1; exact (Hdisj a H1 Ha)).
      refine (conj _ (conj Hu Hx2)). rewrite <- F1 by auto. exact Hx.
  - intros a Ha. rewrite F2, F1; [reflexivity| |];
      intros Hin; apply Ha, elem_of_app; auto.
Qed.

Lemma assigned_one (id : Z) (ped : addr) (h : heap) (this : addr) (x : Individual) :
  h !! this = Some x -> pedigree_is_set x = false ->
  assigned id ped h (<[this := with_pedigree id (Some ped) x]> h) [this].
Proof.
  intros Hx Hu. refine (conj _ (conj _ _)).
  - apply NoDup_singleton.
  - intros a Ha. apply list_elem_of_singleton in Ha as ->. exists x.
    now rewrite lookup_insert_eq.
  - intros a Ha. rewrite lookup_insert_ne; [reflexivity|].
    intros <-. apply Ha. now apply list_elem_of_singleton.
Qed.

Lemma is_set_mono (id : Z) (ped : addr) (h h' : heap) (new : list addr) (a : addr) :
  id <> 0 -> assigned id ped h h' new -> is_set_in h a -> is_set_in h' a.
Proof.
  intros Hid Has Hset. destruct (decide (a ∈ new)) as [Hin|Hout].
  - exact (assigned_set_after _ _ _ _ _ _ Hid Has Hin).
  - destruct Has as (_ & _ & F). destruct Hset as (x & Hx & Hs). exists x.
    now rewrite F.
Qed.

Lemma covered_mono (id : Z) (ped : addr) (h h' : heap) (new new' : list addr) :
  id <> 0 -> assigned id ped h h' new' ->
  (forall a, a ∈ new -> is_set_in h a) ->
  covered h new -> covered h' new.
Proof.
  intros Hid Has Hset Hcov a x' Ha Hx'.
  assert (Hout : a ∉ new').
  { intros Hin. exact (assigned_unset_before _ _ _ _ _ _ Has Hin (Hset a Ha)). }
  destruct Has as (N & A & F). rewrite F in Hx' by exact Hout.
  destruct (Hcov a x' Ha Hx') as [Hf Hc]. split.
  - intros f Hfa. eapply is_set_mono; eauto. exact (conj N (conj A F)).
  - intros c Hin. eapply is_set_mono; eauto. exact (conj N (conj A F)).
Qed.

Lemma covered_app (h : heap) (new1 new2 : list addr) :
  covered h new1 -> covered h new2 -> covered h (new1 ++ new2).
Proof.
  intros H1 H2 a x Ha. apply elem_of_app in Ha as [Ha|Ha]; [now apply H1|now apply H2].
Qed.

Lemma flooded_trans (id : Z) (ped : addr) (st st1 st2 : heap * Pedigree * Z)
    (new1 new2 : list addr) :
  id <> 0 -> flooded id ped st st1 new1 -> flooded id ped st1 st2 new2 ->
  flooded id ped st st2 (new1 ++ new2).
Proof.
  intros Hid (A1 & M1 & I1 & S1) (A2 & M2 & I2 & S2).
  refine (conj _ (conj _ (conj _ _))).
  - eapply assigned_trans; eauto.
  - now rewrite M2, M1, app_assoc.
  - now rewrite I2.
  - rewrite S2, S1, length_app. lia.
Qed.

Lemma flood_children (id : Z) (ped : addr) (this : addr) (fuel : nat) :
  id <> 0 ->
  (forall a st st',
     set_pedigree_id fuel id ped a st = Ok st' ->
     exists new, flooded id ped st st' new /\ is_set_in (fst (fst st')) a
                 /\ covered (fst (fst st')) new) ->
  forall (l : list addr) st st',
  ofold (fun st child =>
           let '(h, p, pedigree_size) := st in
           set_pedigree_id fuel id ped child
             (h, add_relation this child p, pedigree_size)) l st = Ok st' ->
  exists new, flooded id ped st st' new /\ covered (fst (fst st')) new
              /\ forall c, c ∈ l -> is_set_in (fst (fst st')) c.
Proof.
  intros Hid IH. induction l as [|c l IHl]; intros st st'; cbn [ofold].
  - intros [= <-]. exists []. split.
    + refine (conj (assigned_refl _ _ _) (conj _ (conj eq_refl _))).
      * now rewrite app_nil_r.
      * cbn. lia.
    + split; [intros a x Ha; inversion Ha|intros c Hc; inversion Hc].
  - destruct st as [[h p] size].
    destruct (set_pedigree_id fuel id ped c (h, add_relation this c p, size))
      as [st2| | |] eqn:E; cbn [obind]; try discriminate.
    intros Hrest.
    destruct (IH _ _ _ E) as (new2 & F2 & Hc2 & Cov2).
    destruct (IHl _ _ Hrest) as (new3 & F3 & Cov3 & Hl3).
    assert (F2' : flooded id ped (h, p, size) st2 new2).
    { destruct F2 as (A & M & I & S). exact (conj A (conj M (conj I S))). }
    exists (new2 ++ new3). split; [eapply flooded_trans; eauto|]. split.
    + apply covered_app; [|exact Cov3].
      destruct F3 as (A3 & _). eapply covered_mono; eauto.
      intros a Ha. destruct F2 as (A2 & _).
      exact (assigned_set_after _ _ _ _ _ _ Hid A2 Ha).
    + intros c' Hc'. apply elem_of_cons in Hc' as [->|Hc']; [|now apply Hl3].
      destruct F3 as (A3 & _). eapply is_set_mono; eauto.
Qed.

Lemma flood_fill (id : Z) (ped : addr) :
  id <> 0 ->
  forall fuel this st st',
  set_pedigree_id fuel id ped this st = Ok st' ->
  exists new, flooded id ped st st' new /\ is_set_in (fst (fst st')) this
              /\ covered (fst (fst st')) new.
Proof.
  intros Hid. induction fuel as [|fuel IH]; intros this st st'; [discriminate|].
  destruct st as [[h p] size]. cbn [set_pedigree_id]. unfold deref at 1.
  destruct (h !! this) as [x|] eqn:Hx; cbn [obind]; [|discriminate].
  destruct (pedigree_is_set x) eqn:Hset.
  - intros [= <-]. exists []. cbn [fst snd]. split.
    + refine (conj (assigned_refl _ _ _) (conj _ (conj eq_refl _))).
      * now rewrite app_nil_r.
      * cbn. lia.
    + split; [now exists x|intros a y Ha; inversion Ha].
  - destruct (int_result (size + 1)) as [size1| | |] eqn:Esize; cbn [obind];
      try discriminate.
    apply int_result_Ok in Esize as [-> _].
    set (x' := with_pedigree id (Some ped) x).
    set (h1 := <[this := x']> h). set (p1 := add_member this x' p).
    assert (F1 : flooded id ped (h, p, size) (h1, p1, size + 1) [this]).
    { refine (conj (assigned_one _ _ _ _ _ Hx Hset) (conj eq_refl (conj eq_refl _))).
      cbn. lia. }
    assert (Hfather : forall stF,
      match m_father x' with
      | Some f => set_pedigree_id fuel id ped f (h1, p1, size + 1)
      | None => Ok (h1, p1, size + 1)
      end = Ok stF ->
      exists newF, flooded id ped (h1, p1, size + 1) stF newF
                   /\ covered (fst (fst stF)) newF
                   /\ forall f, m_father x = Some f -> is_set_in (fst (fst stF)) f).
    { intros stF. change (m_father x') with (m_father x).
      destruct (m_father x) as [f|].
      - intros E. destruct (IH _ _ _ E) as (newF & FF & HsetF & CovF).
        exists newF. refine (conj FF (conj CovF _)). now intros f' [= <-].
      - intros [= <-]. exists []. split.
        + refine (conj (assigned_refl _ _ _) (conj _ (conj eq_refl _))).
          * now rewrite app_nil_r.
          * cbn. lia.
        + split; [intros a y Ha; inversion Ha|discriminate]. }
    destruct (match m_father x' with Some f => _ | None => _ end) as [stF| | |] eqn:EF;
      cbn [obind]; try discriminate.
    destruct (Hfather stF eq_refl) as (newF & FF & CovF & HsetF).
    intros Eloop.
    destruct (flood_children id ped this fuel Hid IH _ _ _ Eloop)
      as (newC & FC & CovC & HsetC).
    exists ([this] ++ newF ++ newC).
    assert (F02 : flooded id ped (h, p, size) stF ([this] ++ newF))
      by (eapply flooded_trans; eauto).
    assert (Ftot : flooded id ped (h, p, size) st' (([this] ++ newF) ++ newC))
      by (eapply flooded_trans; eauto).
    rewrite <- app_assoc in Ftot. split; [exact Ftot|].
    destruct FC as (AC & _). destruct FF as (AF & _).
    assert (Hthis : is_set_in (fst (fst stF)) this).
    { eapply is_set_mono; eauto. exists x'. cbn [fst]. unfold h1.
      rewrite lookup_insert_eq. split; [reflexivity|]. now apply with_pedigree_is_set. }
    split; [eapply is_set_mono; eauto|].
    apply covered_app; [|apply covered_app; [|exact CovC]].
    + intros a y Ha Hy. apply list_elem_of_singleton in Ha as ->.
      destruct Ftot as ((_ & Anew & _) & _). cbn [fst] in Anew.
      destruct (Anew this) as (x0 & Hx0 & _ & Hy'); [left|].
      rewrite Hx in Hx0. injection Hx0 as <-. rewrite Hy in Hy'. injection Hy' as ->.
      split.
      * intros f Hf. eapply is_set_mono; eauto.
      * intros c Hc. now apply HsetC.
    + eapply covered_mono; eauto. intros a Ha.
      exact (assigned_set_after _ _ _ _ _ _ Hid AF Ha).
Qed.

(** Property X26. When [set_pedigree_id] returns for an id other than 0, it has
    assigned the pedigree to a list of individuals without repetition, all
    of them without a pedigree before, and has changed nothing else; these
    are the members added to the pedigree, in this order, and the counter
    has grown by their number. Afterwards the individual it was called on
    has a pedigree, and so have the father and all children of every
    individual assigned. *)
Theorem flood_fill_assigns_a_closed_family (fuel : nat) (id : Z) (ped this : addr)
    (h : heap) (p : Pedigree) (size : Z) (h' : heap) (p' : Pedigree) (size' : Z) :
  id <> 0 ->
  set_pedigree_id fuel id ped this (h, p, size) = Ok (h', p', size') ->
  exists new,
    assigned id ped h h' new
    /\ ped_members p' = ped_members p ++ new
    /\ size' = size + Z.of_nat (length new)
    /\ is_set_in h' this
    /\ covered h' new.
Proof.
  intros Hid E. destruct (flood_fill id ped Hid fuel this _ _ E) as (new & F & Hs & Hc).
  destruct F as (A & M & _ & S). cbn [fst snd] in *.
  exists new. exact (conj A (conj M (conj S (conj Hs Hc)))).
Qed.

Lemma flood_fill_assigns_a_closed_family_witness :
  exists new,
    assigned 7 1%positive household (fst (fst flooded_household)) new
    /\ ped_members (snd (fst flooded_household)) = ped_members empty_pedigree ++ new
    /\ snd flooded_household = 0 + Z.of_nat (length new)
    /\ is_set_in (fst (fst flooded_household)) 2%positive
    /\ covered (fst (fst flooded_household)) new.
Proof.
  apply (flood_fill_assigns_a_closed_family 5 7 1%positive 2%positive household
           empty_pedigree 0 (fst (fst flooded_household)) (snd (fst flooded_household))
           (snd flooded_household)).
  - discriminate.
  - vm_compute. reflexivity.
Defined.

Lemma elem_of_unassigned (h : heap) (a : addr) :
  a ∈ unassigned h <-> exists x, h !! a = Some x /\ pedigree_is_set x = false.
Proof.
  unfold unassigned. rewrite elem_of_dom. unfold is_Some.
  setoid_rewrite map_lookup_filter_Some. cbn. reflexivity.
Qed.

Lemma assigned_count (id : Z) (ped : addr) (h h' : heap) (new : list addr) :
  id <> 0 -> assigned id ped h h' new ->
  (size (unassigned h') + length new <= size (unassigned h))%nat.
Proof.
  intros Hid Has. pose proof Has as (N & A & F).
  rewrite <- (size_list_to_set (C := gset addr) new N).
  rewrite <- size_union.
  - apply subseteq_size. intros a Ha. apply elem_of_union in Ha as [Ha|Ha].
    + apply elem_of_unassigned in Ha as (x' & Hx' & Hu).
      destruct (decide (a ∈ new)) as [Hin|Hout].
      * destruct (assigned_set_after _ _ _ _ _ _ Hid Has Hin) as (y & Hy & Hs). congruence.
      * apply elem_of_unassigned. exists x'. now rewrite <- F.
    + apply elem_of_list_to_set in Ha. destruct (A a Ha) as (x & Hx & Hu & _).
      apply elem_of_unassigned. eauto.
  - intros a Ha Hb. apply elem_of_list_to_set in Hb.
    apply elem_of_unassigned in Ha as (x' & Hx' & Hu).
    destruct (assigned_set_after _ _ _ _ _ _ Hid Has Hb) as (y & Hy & Hs). congruence.
Qed.

Lemma assigned_lookup (id : Z) (ped : addr) (h h' : heap) (new : list addr) (a : addr)
    (x' : Individual) :
  assigned id ped h h' new -> h' !! a = Some x' ->
  exists x, h !! a = Some x /\ m_father x' = m_father x /\ m_children x' = m_children x.
Proof.
  intros (N & A & F) Hx'. destruct (decide (a ∈ new)) as [Hin|Hout].
  - destruct (A a Hin) as (x & Hx & _ & Hx2). exists x. rewrite Hx' in Hx2.
    injection Hx2 as ->. auto.
  - exists x'. now rewrite <- F.
Qed.

Lemma assigned_is_Some (id : Z) (ped : addr) (h h' : heap) (new : list addr) (a : addr) :
  assigned id ped h h' new -> is_Some (h !! a) -> is_Some (h' !! a).
Proof.
  intros (N & A & F) Ha. destruct (decide (a ∈ new)) as [Hin|Hout].
  - destruct (A a Hin) as (x & _ & _ & Hx2). eauto.
  - now rewrite F.
Qed.

Lemma assigned_closed (id : Z) (ped : addr) (h h' : heap) (new : list addr) :
  assigned id ped h h' new -> closed h -> closed h'.
Proof.
  intros Has Hcl a x' y Hx' Hy.
  destruct (assigned_lookup _ _ _ _ _ _ _ Has Hx') as (x & Hx & Hf & Hc).
  eapply assigned_is_Some; eauto. apply (Hcl a x y Hx).
  unfold neighbours in *. now rewrite <- Hf, <- Hc.
Qed.

Lemma flood_terminates (id : Z) (ped : addr) :
  id <> 0 ->
  forall fuel this h p counter,
  closed h -> is_Some (h !! this) ->
  (size (unassigned h) < fuel)%nat ->
  0 <= counter -> counter + Z.of_nat (size (unassigned h)) <= int_max ->
  exists st', set_pedigree_id fuel id ped this (h, p, counter) = Ok st'.
Proof.
  intros Hid. induction fuel as [|fuel IH]; intros this h p counter Hcl [x Hx] Hfuel H0 Hmax;
    [lia|].
  cbn [set_pedigree_id]. unfold deref at 1. rewrite Hx. cbn [obind].
  destruct (pedigree_is_set x) eqn:Hset; [eauto|].
  assert (Hin : this ∈ unassigned h) by (apply elem_of_unassigned; eauto).
  assert (Hpos : (1 <= size (unassigned h))%nat).
  { destruct (size (unassigned h)) eqn:E; [|lia].
    apply size_empty_inv in E. apply leibniz_equiv in E. rewrite E in Hin.
    now apply not_elem_of_empty in Hin. }
  assert (Hm : int_min = -2147483648) by reflexivity.
  rewrite int_result_in by lia. cbn [obind].
  set (x' := with_pedigree id (Some ped) x).
  set (h1 := <[this := x']> h). set (p1 := add_member this x' p).
  assert (A1 : assigned id ped h h1 [this]) by exact (assigned_one _ _ _ _ _ Hx Hset).
  pose proof (assigned_count _ _ _ _ _ Hid A1) as C1. cbn [length] in C1.
  assert (Hcl1 : closed h1) by (eapply assigned_closed; eauto).
  assert (Hfather : exists stF newF,
    match m_father x' with
    | Some f => set_pedigree_id fuel id ped f (h1, p1, counter + 1)
    | None => Ok (h1, p1, counter + 1)
    end = Ok stF /\ flooded id ped (h1, p1, counter + 1) stF newF).
  { change (m_father x') with (m_father x). destruct (m_father x) as [f|] eqn:Hf.
    - destruct (IH f h1 p1 (counter + 1)) as (stF & E); auto; try lia.
      + eapply assigned_is_Some; eauto. apply (Hcl this x f Hx).
        unfold neighbours. rewrite Hf. left.
      + destruct (flood_fill id ped Hid fuel f _ _ E) as (newF & FF & _).
        exists stF, newF. auto.
    - exists (h1, p1, counter + 1), []. split; [reflexivity|].
      refine (conj (assigned_refl _ _ _) (conj _ (conj eq_refl _))).
      + now rewrite app_nil_r.
      + cbn. lia. }
  destruct Hfather as (stF & newF & -> & FF). cbn [obind].
  change (m_children x') with (m_children x).
  assert (Hloop : forall l, (forall c, c ∈ l -> c ∈ m_children x) ->
    forall st newL, flooded id ped (h1, p1, counter + 1) st newL ->
    exists st', ofold (fun st child =>
                         let '(h, p, pedigree_size) := st in
                         set_pedigree_id fuel id ped child
                           (h, add_relation this child p, pedigree_size)) l st = Ok st').
  { induction l as [|c l IHl]; intros Hsub st newL FL; cbn [ofold]; [eauto|].
    destruct st as [[hc pc] sizec]. destruct FL as (AL & ML & IL & SL).
    cbn [fst snd] in *.
    pose proof (assigned_count _ _ _ _ _ Hid AL) as CL.
    destruct (IH c hc (add_relation this c pc) sizec) as (st2 & E).
    - eapply assigned_closed; eauto.
    - eapply assigned_is_Some; [exact AL|]. eapply assigned_is_Some; [exact A1|].
      apply (Hcl this x c Hx). unfold neighbours.
      destruct (m_father x); [right|]; apply Hsub; left.
    - lia.
    - lia.
    - lia.
    - rewrite E. cbn [obind].
      destruct (flood_fill id ped Hid fuel c _ _ E) as (new2 & (A2 & M2 & I2 & S2) & _).
      cbn [fst snd] in *.
      apply (IHl (fun c0 Hc0 => Hsub c0 (list_elem_of_further _ _ _ Hc0)) st2
               (newL ++ new2)).
      refine (conj _ (conj _ (conj _ _))); cbn [fst snd].
      + eapply assigned_trans; eauto.
      + rewrite M2. cbn [add_relation ped_members]. now rewrite ML, app_assoc.
      + rewrite I2. cbn [add_relation ped_id]. exact IL.
      + rewrite S2, SL, length_app. lia. }
  apply (Hloop (m_children x) (fun c Hc => Hc) stF newF FF).
Qed.

(** Property X27. In a population without dangling father or child pointers,
    [set_pedigree_id] with an id other than 0 returns once the depth
    allowed to the recursion exceeds the number of individuals without a
    pedigree, provided the counter cannot overflow; it assigns at most
    that many individuals. *)
Theorem flood_fill_returns (fuel : nat) (id : Z) (ped this : addr) (h : heap)
    (p : Pedigree) (counter : Z) :
  id <> 0 ->
  closed h -> is_Some (h !! this) ->
  (size (unassigned h) < fuel)%nat ->
  0 <= counter -> counter + Z.of_nat (size (unassigned h)) <= int_max ->
  exists h' p' counter' new,
    set_pedigree_id fuel id ped this (h, p, counter) = Ok (h', p', counter')
    /\ assigned id ped h h' new
    /\ counter' = counter + Z.of_nat (length new)
    /\ (length new <= size (unassigned h))%nat.
Proof.
  intros Hid Hcl Hthis Hfuel H0 Hmax.
  destruct (flood_terminates id ped Hid fuel this h p counter Hcl Hthis Hfuel H0 Hmax)
    as ([[h' p'] counter'] & E).
  destruct (flood_fill id ped Hid fuel this _ _ E) as (new & (A & _ & _ & S) & _).
  cbn [fst snd] in *. exists h', p', counter', new.
  refine (conj E (conj A (conj S _))).
  pose proof (assigned_count _ _ _ _ _ Hid A). lia.
Qed.

Lemma flood_fill_returns_witness :
  exists h' p' counter' new,
    set_pedigree_id 5 7 1%positive 2%positive (household, empty_pedigree, 0)
    = Ok (h', p', counter')
    /\ assigned 7 1%positive household h' new
    /\ counter' = 0 + Z.of_nat (length new)
    /\ (length new <= size (unassigned household))%nat.
Proof.
  apply (flood_fill_returns 5 7 1%positive 2%positive household empty_pedigree 0).
  - discriminate.
  - intros a x y Hx Hy.
    destruct (decide (a = 1%positive)) as [->|H1];
      [injection Hx as <-|
       destruct (decide (a = 2%positive)) as [->|H2];
         [injection Hx as <-|
          destruct (decide (a = 3%positive)) as [->|H3]; [injection Hx as <-|]]].
    + cbn in Hy. apply elem_of_cons in Hy as [->|Hy]; [eexists; reflexivity|].
      apply elem_of_cons in Hy as [->|Hy]; [eexists; reflexivity|inversion Hy].
    + cbn in Hy. apply elem_of_cons in Hy as [->|Hy]; [eexists; reflexivity|inversion Hy].
    + cbn in Hy. apply elem_of_cons in Hy as [->|Hy]; [eexists; reflexivity|inversion Hy].
    + unfold household in Hx. rewrite !lookup_insert_ne in Hx by auto.
      rewrite lookup_empty in Hx. discriminate.
  - eexists. reflexivity.
  - vm_compute. lia.
  - lia.
  - vm_compute. discriminate.
Defined.

Lemma same_links_refl (h : heap) : same_links h h.
Proof. intros a. now destruct (h !! a). Qed.

Lemma same_links_trans (h h1 h2 : heap) :
  same_links h h1 -> same_links h1 h2 -> same_links h h2.
Proof.
  intros H1 H2 a. specialize (H1 a). specialize (H2 a).
  destruct (h !! a), (h1 !! a), (h2 !! a); try tauto.
  destruct H1, H2. split; congruence.
Qed.

Lemma same_links_insert (h : heap) (a : addr) (x : Individual) (id : Z)
    (ped : option addr) :
  h !! a = Some x -> same_links h (<[a := with_pedigree id ped x]> h).
Proof.
  intros Hx b. destruct (decide (b = a)) as [->|Hne].
  - rewrite Hx, lookup_insert_eq. now cbn.
  - rewrite lookup_insert_ne by auto. now destruct (h !! b).
Qed.

Lemma on_an_edge_same_links (h h' : heap) (a : addr) :
  same_links h h' -> on_an_edge h a -> on_an_edge h' a.
Proof.
  intros Hs (x & b & y & Hx & Hy & Hedge).
  pose proof (Hs a) as Ha. pose proof (Hs b) as Hb. rewrite Hx in Ha. rewrite Hy in Hb.
  destruct (h' !! a) as [x'|] eqn:Hx'; [|contradiction].
  destruct (h' !! b) as [y'|] eqn:Hy'; [|contradiction].
  destruct Ha as [Hfa Hca], Hb as [Hfb Hcb].
  exists x', b, y'. rewrite Hfa, Hca, Hfb, Hcb. auto.
Qed.

Lemma on_an_edge_other (h : heap) (a b : addr) (x y : Individual) :
  h !! a = Some x -> h !! b = Some y ->
  (m_father x = Some b /\ a ∈ m_children y) \/ (m_father y = Some a /\ b ∈ m_children x) ->
  on_an_edge h b.
Proof. intros Hx Hy Hedge. exists y, a, x. tauto. Qed.

Lemma zero_frame (ped : addr) :
  forall fuel this st st',
  set_pedigree_id fuel 0 ped this st = Ok st' ->
  nobody_assigned (fst (fst st)) ->
  same_links (fst (fst st)) (fst (fst st')) /\ nobody_assigned (fst (fst st')).
Proof.
  induction fuel as [|fuel IH]; intros this st st'; [discriminate|].
  destruct st as [[h p] counter]. cbn [set_pedigree_id fst]. unfold deref at 1.
  destruct (h !! this) as [x|] eqn:Hx; cbn [obind]; [|discriminate].
  destruct (pedigree_is_set x) eqn:Hset.
  { intros [= <-] Hn. split; [apply same_links_refl|exact Hn]. }
  destruct (int_result (counter + 1)) as [c1| | |]; cbn [obind]; try discriminate.
  set (x' := with_pedigree 0 (Some ped) x). set (h1 := <[this := x']> h).
  intros E Hn.
  assert (Hs1 : same_links h h1) by now apply same_links_insert.
  assert (Hn1 : nobody_assigned h1).
  { intros a y. unfold h1. destruct (decide (a = this)) as [->|Hne].
    - rewrite lookup_insert_eq. now intros [= <-].
    - rewrite lookup_insert_ne by auto. apply Hn. }
  destruct (match m_father x' with Some f => _ | None => _ end) as [stF| | |] eqn:EF;
    cbn [obind] in E; try discriminate.
  assert (HF : same_links h (fst (fst stF)) /\ nobody_assigned (fst (fst stF))).
  { destruct (m_father x') as [f|].
    - destruct (IH _ _ _ EF Hn1) as [Hs Hnn]. cbn [fst] in Hs.
      split; [eapply same_links_trans; eauto|exact Hnn].
    - injection EF as <-. auto. }
  clear EF. revert stF HF E. generalize (m_children x').
  induction l as [|c l IHl]; intros stF [HsF HnF]; cbn [ofold].
  - intros [= <-]. auto.
  - destruct stF as [[hc pc] cc].
    destruct (set_pedigree_id fuel 0 ped c (hc, add_relation this c pc, cc))
      as [st2| | |] eqn:E2; cbn [obind]; try discriminate.
    destruct (IH _ _ _ E2 HnF) as [Hs2 Hn2]. cbn [fst] in *.
    apply IHl. split; [eapply same_links_trans; eauto|exact Hn2].
Qed.

(** Property X28. With the id 0, which [pedigree_is_set] reads as "no pedigree",
    [set_pedigree_id] never returns when it is called, in a population
    where nobody has a pedigree, on an individual that is the father or the
    child of another: the two keep calling each other, whatever depth is
    allowed to the recursion. *)
Theorem flood_fill_under_id_zero_never_returns (fuel : nat) (ped this : addr) (h : heap)
    (p : Pedigree) (counter : Z) (st' : heap * Pedigree * Z) :
  nobody_assigned h ->
  on_an_edge h this ->
  set_pedigree_id fuel 0 ped this (h, p, counter) <> Ok st'.
Proof.
  revert this h p counter st'.
  induction fuel as [|fuel IH]; intros this h p counter st' Hn Hedge; [discriminate|].
  destruct Hedge as (x & b & y & Hx & Hy & Hedge).
  cbn [set_pedigree_id]. unfold deref at 1. rewrite Hx. cbn [obind].
  rewrite (Hn this x Hx).
  destruct (int_result (counter + 1)) as [c1| | |]; cbn [obind]; try discriminate.
  set (x' := with_pedigree 0 (Some ped) x). set (h1 := <[this := x']> h).
  assert (Hs1 : same_links h h1) by now apply same_links_insert.
  assert (Hn1 : nobody_assigned h1).
  { intros a z. unfold h1. destruct (decide (a = this)) as [->|Hne].
    - rewrite lookup_insert_eq. now intros [= <-].
    - rewrite lookup_insert_ne by auto. apply Hn. }
  assert (Hb : on_an_edge h b) by exact (on_an_edge_other h this b x y Hx Hy Hedge).
  change (m_father x') with (m_father x). change (m_children x') with (m_children x).
  destruct Hedge as [[Hf Hc]|[Hf Hc]].
  - rewrite Hf.
    destruct (set_pedigree_id fuel 0 ped b (h1, add_member this x' p, c1))
      as [stF| | |] eqn:EF; cbn [obind]; try discriminate.
    exfalso. eapply (IH b h1); [exact Hn1| |exact EF].
    eapply on_an_edge_same_links; eauto.
  - destruct (match m_father x with Some f => _ | None => _ end) as [stF| | |] eqn:EF;
      cbn [obind]; try discriminate.
    assert (HF : same_links h (fst (fst stF)) /\ nobody_assigned (fst (fst stF))).
    { destruct (m_father x) as [f|].
      - destruct (zero_frame ped _ _ _ _ EF Hn1) as [Hs Hnn]. cbn [fst] in Hs.
        split; [eapply same_links_trans; eauto|exact Hnn].
      - injection EF as <-. auto. }
    clear EF. revert stF HF. generalize Hc. generalize (m_children x).
    induction l as [|c l IHl]; intros Hin stF [HsF HnF]; [inversion Hin|].
    cbn [ofold]. destruct stF as [[hc pc] cc]. cbn [fst] in *.
    destruct (set_pedigree_id fuel 0 ped c (hc, add_relation this c pc, cc))
      as [st2| | |] eqn:E2; cbn [obind]; try discriminate.
    destruct (decide (c = b)) as [->|Hne].
    + exfalso. eapply (IH b hc); [exact HnF| |exact E2].
      eapply on_an_edge_same_links; eauto.
    + apply elem_of_cons in Hin as [Hin|Hin]; [congruence|].
      destruct (zero_frame ped _ _ _ _ E2 HnF) as [Hs2 Hn2]. cbn [fst] in *.
      apply IHl; [exact Hin|]. split; [eapply same_links_trans; eauto|exact Hn2].
Qed.

Lemma flood_fill_under_id_zero_never_returns_witness :
  set_pedigree_id 9 0 1%positive 2%positive (household, empty_pedigree, 0)
  <> Ok (household, empty_pedigree, 0).
Proof.
  apply (flood_fill_under_id_zero_never_returns 9 1%positive 2%positive household
           empty_pedigree 0 (household, empty_pedigree, 0)).
  - intros a x Hx.
    destruct (decide (a = 1%positive)) as [->|H1];
      [injection Hx as <-; reflexivity|].
    destruct (decide (a = 2%positive)) as [->|H2];
      [injection Hx as <-; reflexivity|].
    destruct (decide (a = 3%positive)) as [->|H3];
      [injection Hx as <-; reflexivity|].
    unfold household in Hx. rewrite !lookup_insert_ne in Hx by auto.
    rewrite lookup_empty in Hx. discriminate.
  - eexists _, 1%positive, _. split; [reflexivity|]. split; [reflexivity|].
    left. split; [reflexivity|]. cbn. left.
Defined.
